(** * DBusHciInterface: a model of the BlueZ D-Bus interface controller

    Shallow embedding of [src/bluetooth/DBusHciInterface.cpp].

    The controller talks to an external service (BlueZ over D-Bus).  Every
    interaction with that service, with the logger and with the
    synchronisation primitives is recorded as an [Event].  The service is a
    record of oracles that map the history of events so far to the answer of
    the next query, so that its state may change between any two calls.
    A method of the controller is a computation [M A]: given the history it
    returns a value or an exception together with the events it emitted.

    [detect], [scan] and [info] only delegate to [BluezHciInterface], which
    is outside this file, and are not modelled.

    The callback of "object-added" runs on the event loop thread.  An
    exception that leaves it unwinds into the GLib main loop, which is
    outside this file: the model ends the run there with
    [EscapedCallback]. *)

From Stdlib Require Import ZArith Lia List String Ascii.
From stdpp Require Import base option list gmap strings pretty sorting.

Local Open Scope Z_scope.

(** ** Exceptions and results

    The exceptions that the statements of the file throw, catch or let
    through.  Failures of the mutexes, of the logger and of the allocation
    of memory are not modelled. *)

Inductive Exn : Type :=
  | IOException (msg : string)        (* thrown by throwErrorIfAny *)
  | TimeoutException (msg : string)   (* thrown by waitUntilPoweredChange *)
  | SystemException (msg : string)    (* thrown by Thread::join *)
  | AddressException (address : option string)
      (* lines 244 and 307: the address is NULL or MACAddress::parse rejects it *)
  | EscapedCallback (e : Exn).        (* e has left onDBusObjectAdded *)

Inductive Res (A : Type) : Type :=
  | Ok (a : A)
  | Throw (e : Exn).
Arguments Ok {A} a.
Arguments Throw {A} e.

(** ** Events *)

Inductive Mutex : Type := StatusMutex | DiscoveringMutex.

Inductive Priority : Type := Debug | Information.

Inductive Event : Type :=
  | EvLog (prio : Priority) (msg : string)
  | EvLogException (e : Exn)
  | EvLock (m : Mutex)
  | EvUnlock (m : Mutex)
  | EvAdapterProxyNew (path : string) (error : option string)
  | EvDeviceProxyNew (path : string) (error : option string)
  | EvObjectManagerNew (error : option string)
  | EvGetPowered (path : string) (powered : bool)
  | EvSetPowered (path : string) (powered : bool)
  | EvGetDiscovering (path : string) (discovering : bool)
  | EvSetDiscoveryFilter (path transport : string) (error : option string)
  | EvStartDiscovery (path : string)
  | EvStopDiscovery (path : string)
  | EvGetAddress (path : string) (address : option string)
  | EvGetName (path : string) (name : option string)
  | EvGetRssi (path : string) (rssi : Z)
  | EvGetConnected (path : string) (connected : bool)
  | EvSetDefaultTimeout (path : string) (msec : Z)
  | EvCallConnect (path : string) (error : option string)
  | EvSignalConnect (signal : string)
  | EvBroadcast                         (* m_waitCondition.broadcast() *)
  | EvWaitConditionTryWait (usec : Z)   (* m_waitCondition.tryWait(timeout) *)
  | EvConditionTryWait (msec : Z)       (* m_condition.tryWait(m_statusMutex, ms) *)
  | EvObjectAdded (path : string)       (* the event loop dispatches object-added *)
  | EvThreadStart
  | EvMainLoopRunning (running : bool)
  | EvMainLoopQuit
  | EvThreadJoin (error : option string).

(** ** The objects of the D-Bus object manager *)

Record GDBusObject : Type := {
  object_path : string;
  object_interfaces : list string
}.

(** A [GDBusObjectManager] client holds a local cache of the service's
    objects; the handle is modelled by the content of that cache. *)
Definition GDBusObjectManager : Type := list GDBusObject.

(** ** The external service *)

Record Service : Type := {
  sv_debug : bool;                                         (* logger().debug() *)
  sv_adapter_proxy : list Event → string → option string;  (* GError of proxy_new *)
  sv_device_proxy : list Event → string → option string;
  sv_object_manager : list Event → option string * GDBusObjectManager;
  sv_powered : list Event → string → bool;
  sv_discovering : list Event → string → bool;
  sv_set_filter : list Event → string → string → option string;
  sv_address : list Event → string → option string;        (* None: nullptr *)
  sv_name : list Event → string → option string;           (* None: nullptr *)
  sv_rssi : list Event → string → Z;                       (* gint16 *)
  sv_connected : list Event → string → bool;
  sv_connect : list Event → string → option string;
  sv_object_added : list Event → list GDBusObject;         (* announced during a wait *)
  sv_loop_running : list Event → bool;
  sv_join : list Event → option string
}.

(** ** The monad of controller computations *)

Definition M (A : Type) : Type := list Event → Res A * list Event.

Definition ret {A} (a : A) : M A := λ _, (Ok a, []).

Definition bind {A B} (c : M A) (k : A → M B) : M B :=
  λ h, match c h with
       | (Ok a, e1) => let '(r, e2) := k a (h ++ e1) in (r, e1 ++ e2)
       | (Throw x, e1) => (Throw x, e1)
       end.

Definition throw {A} (x : Exn) : M A := λ _, (Throw x, []).

Definition perform (e : Event) : M unit := λ _, (Ok tt, [e]).

(** A query of the service: the oracle answers from the history, and the
    answer is recorded. *)
Definition observe {A} (oracle : list Event → A) (ev : A → Event) : M A :=
  λ h, let a := oracle h in (Ok a, [ev a]).

Definition try_catch {A} (c : M A) (handler : Exn → M A) : M A :=
  λ h, match c h with
       | (Ok a, e1) => (Ok a, e1)
       | (Throw x, e1) => let '(r, e2) := handler x (h ++ e1) in (r, e1 ++ e2)
       end.

(** Runs [cleanup] on every exit path of [c] (scope exit). *)
Definition finally {A} (c : M A) (cleanup : M unit) : M A :=
  λ h, let '(r, e1) := c h in
       let '(_, e2) := cleanup (h ++ e1) in (r, e1 ++ e2).

Declare Scope hci_scope.
Delimit Scope hci_scope with hci.
Notation "x <- c1 ;; c2" := (bind c1 (λ x, c2))
  (at level 100, c1 at next level, right associativity) : hci_scope.
Notation "c1 ;; c2" := (bind c1 (λ _, c2))
  (at level 100, right associativity) : hci_scope.
Local Open Scope hci_scope.

Definition when (b : bool) (c : M unit) : M unit := if b then c else ret tt.

(** [Poco::ScopedLock<FastMutex> guard(m)] for the rest of the scope. *)
Definition ScopedLock {A} (m : Mutex) (scope : M A) : M A :=
  perform (EvLock m) ;; finally scope (perform (EvUnlock m)).

(** ** Poco::Timespan: a number of microseconds *)

Definition Timespan : Type := Z.
Definition MILLISECONDS : Z := 1000.
Definition SECONDS : Z := 1000 * MILLISECONDS.

(** Conversion to a 32-bit [int] (or [gint]). *)
Definition to_int (z : Z) : Z := (z + 2 ^ 31) mod 2 ^ 32 - 2 ^ 31.

(** [totalMilliseconds] is a 64-bit [TimeDiff], [totalSeconds] an [int]. *)
Definition totalMilliseconds (t : Timespan) : Z := Z.quot t MILLISECONDS.
Definition totalSeconds (t : Timespan) : Z := to_int (Z.quot t SECONDS).

Definition CHANGE_POWER_ATTEMPTS : Z := 5.
Definition CHANGE_POWER_DELAY : Timespan := 200 * MILLISECONDS.

(** [std::map::emplace]: an existing key keeps its value. *)
Definition emplace {K V} `{Countable K} (k : K) (v : V) (m : gmap K V) : gmap K V :=
  match m !! k with
  | Some _ => m
  | None => <[k := v]> m
  end.

(** The order of the keys of a [std::map<MACAddress, string>]. *)
Definition entry_le (x y : N * string) : Prop := (x.1 ≤ y.1)%N.

#[global] Instance entry_le_dec : RelDecision entry_le.
Proof. intros x y. unfold entry_le. apply _. Defined.

(** Iteration over a [std::map<MACAddress, string>]: ascending keys. *)
Definition entries (m : gmap N string) : list (N * string) :=
  merge_sort entry_le (map_to_list m).

(** [s.find(needle)]: the first position of [needle] in [s]; [None] is
    [string::npos]. *)
Definition string_find (s needle : string) : option nat := String.index 0 needle s.

(** [g_dbus_object_manager_get_interface(manager, path, iface)] is not null. *)
Definition g_dbus_object_manager_get_interface
    (manager : GDBusObjectManager) (path iface : string) : bool :=
  match List.find (λ o, bool_decide (object_path o = path)) manager with
  | Some o => bool_decide (iface ∈ object_interfaces o)
  | None => false
  end.

Definition PathFilter : Type := string → bool.

(** The loop of [retrievePathsOfBluezObjects] over the list of objects. *)
Fixpoint retrievePathsOfBluezObjects_loop (objectManager : GDBusObjectManager)
    (pathFilter : PathFilter) (objectFilter : string) (l : list GDBusObject)
    : list string :=
  match l with
  | [] => []
  | o :: next =>
      let objectPath := object_path o in
      if pathFilter objectPath then
        retrievePathsOfBluezObjects_loop objectManager pathFilter objectFilter next
      else if negb (g_dbus_object_manager_get_interface objectManager objectPath objectFilter) then
        retrievePathsOfBluezObjects_loop objectManager pathFilter objectFilter next
      else
        objectPath ::
          retrievePathsOfBluezObjects_loop objectManager pathFilter objectFilter next
  end.

Definition retrievePathsOfBluezObjects (objectManager : GDBusObjectManager)
    (pathFilter : PathFilter) (objectFilter : string) : list string :=
  retrievePathsOfBluezObjects_loop objectManager pathFilter objectFilter objectManager.

(** The handle returned to the caller of [connect]. *)
Record DBusHciConnection : Type := {
  conn_name : string;
  conn_device : string;
  conn_timeout : Timespan
}.

(** [MACAddress] is declared outside this file; an address is its 48-bit
    number, and [MACAddress::parse] and [MACAddress::toString] come with
    an instance of this class.  [MACAddress_parse] is [None] on a text
    that [MACAddress::parse] rejects with an exception. *)
Class MACAddressCodec : Type := {
  MACAddress_parse : string → ascii → option N;
  MACAddress_toString : N → ascii → string
}.

Section Controller.

(** The service the controller runs against. *)
Variable bluez : Service.

Context `{MACAddressCodec}.

(** [if (logger().debug()) logger().debug(msg)] *)
Definition logger_debug (msg : string) : M unit :=
  when (sv_debug bluez) (perform (EvLog Debug msg)).

Definition logger_information (msg : string) : M unit :=
  perform (EvLog Information msg).

Definition throwErrorIfAny (error : option string) : M unit :=
  match error with
  | Some message => throw (IOException message)
  | None => ret tt
  end.

Definition createAdapterPath (name : string) : string :=
  "/org/bluez/" +:+ name.

Definition createDevicePath (name : string) (address : N) : string :=
  "/org/bluez/" +:+ name +:+ "/dev_" +:+ MACAddress_toString address "_".

(** A proxy is identified by its object path. *)
Definition retrieveBluezAdapter (path : string) : M string :=
  error <- observe (λ h, sv_adapter_proxy bluez h path) (EvAdapterProxyNew path) ;;
  throwErrorIfAny error ;;
  ret path.

Definition retrieveBluezDevice (path : string) : M string :=
  error <- observe (λ h, sv_device_proxy bluez h path) (EvDeviceProxyNew path) ;;
  throwErrorIfAny error ;;
  ret path.

Definition createBluezObjectManager : M GDBusObjectManager :=
  r <- observe (sv_object_manager bluez) (λ r, EvObjectManagerNew r.1) ;;
  throwErrorIfAny r.1 ;;
  ret r.2.

Definition org_bluez_adapter1_get_powered (adapter : string) : M bool :=
  observe (λ h, sv_powered bluez h adapter) (EvGetPowered adapter).

Definition org_bluez_adapter1_set_powered (adapter : string) (value : bool) : M unit :=
  perform (EvSetPowered adapter value).

Definition org_bluez_adapter1_get_discovering (adapter : string) : M bool :=
  observe (λ h, sv_discovering bluez h adapter) (EvGetDiscovering adapter).

Definition initDiscoveryFilter (adapter trasport : string) : M unit :=
  error <- observe (λ h, sv_set_filter bluez h adapter trasport)
                   (EvSetDiscoveryFilter adapter trasport) ;;
  throwErrorIfAny error.

Definition startDiscovery (adapter trasport : string) : M unit :=
  ScopedLock DiscoveringMutex (
    discovering <- org_bluez_adapter1_get_discovering adapter ;;
    if discovering then ret tt
    else
      initDiscoveryFilter adapter trasport ;;
      perform (EvStartDiscovery adapter)).

Definition stopDiscovery (adapter : string) : M unit :=
  ScopedLock DiscoveringMutex (
    discovering <- org_bluez_adapter1_get_discovering adapter ;;
    if negb discovering then ret tt
    else perform (EvStopDiscovery adapter)).

(** The [for] loop of [waitUntilPoweredChange], by the number of attempts
    left; the result tells whether the loop body returned. *)
Fixpoint waitUntilPoweredChange_loop (attempts : nat) (path : string)
    (powered : bool) : M bool :=
  match attempts with
  | O => ret false
  | S attempts' =>
      adapter <- retrieveBluezAdapter path ;;
      p <- org_bluez_adapter1_get_powered adapter ;;
      if Bool.eqb p powered then ret true
      else
        perform (EvConditionTryWait (totalMilliseconds CHANGE_POWER_DELAY)) ;;
        waitUntilPoweredChange_loop attempts' path powered
  end.

Definition waitUntilPoweredChange (m_name path : string) (powered : bool) : M unit :=
  returned <- waitUntilPoweredChange_loop (Z.to_nat CHANGE_POWER_ATTEMPTS) path powered ;;
  if returned : bool then ret tt
  else throw (TimeoutException ("failed to change power of interface" +:+ m_name)).

(** [m_adapter] is the proxy the constructor made for the adapter path. *)
Definition m_adapter (m_name : string) : string := createAdapterPath m_name.

Definition up (m_name : string) : M unit :=
  logger_debug ("bringing up " +:+ m_name) ;;
  ScopedLock StatusMutex (
    let path := createAdapterPath m_name in
    adapter <- retrieveBluezAdapter path ;;
    startDiscovery (m_adapter m_name) "le" ;;
    powered <- org_bluez_adapter1_get_powered adapter ;;
    if powered then ret tt
    else
      org_bluez_adapter1_set_powered adapter true ;;
      waitUntilPoweredChange m_name path true).

Definition down (m_name : string) : M unit :=
  logger_debug ("switching down " +:+ m_name) ;;
  ScopedLock StatusMutex (
    perform EvBroadcast ;;
    let path := createAdapterPath m_name in
    adapter <- retrieveBluezAdapter path ;;
    powered <- org_bluez_adapter1_get_powered adapter ;;
    if negb powered then ret tt
    else
      org_bluez_adapter1_set_powered adapter false ;;
      waitUntilPoweredChange m_name path false).

Definition reset (m_name : string) : M unit :=
  down m_name ;; up m_name.

(** Modelled from the spec: the macro [BEEEON_CATCH_CHAIN_ACTION] is
    defined outside this file; a failure inside the [try] block is caught
    and logged, and then the action runs. *)
Definition BEEEON_CATCH_CHAIN_ACTION {A} (try : M A) (action : M A) : M A :=
  try_catch try (λ e, perform (EvLogException e) ;; action).

(** The getter gives a pointer, which is null when the property is unset. *)
Definition org_bluez_device1_get_address (device : string) : M (option string) :=
  observe (λ h, sv_address bluez h device) (EvGetAddress device).

(** [MACAddress::parse(::org_bluez_device1_get_address(device.raw()), ':')]
    of lines 244 and 307, which no [try] encloses: the pointer is turned
    into the [std::string] that [parse] takes, which throws on a null
    pointer, and [parse] throws on a text that is no address. *)
Definition device_address (device : string) : M N :=
  address <- org_bluez_device1_get_address device ;;
  match address with
  | None => throw (AddressException None)
  | Some text =>
      match MACAddress_parse text ":" with
      | Some mac => ret mac
      | None => throw (AddressException (Some text))
      end
  end.

Definition org_bluez_device1_get_name (device : string) : M (option string) :=
  observe (λ h, sv_name bluez h device) (EvGetName device).

Definition org_bluez_device1_get_rssi (device : string) : M Z :=
  observe (λ h, sv_rssi bluez h device) (EvGetRssi device).

Definition org_bluez_device1_get_connected (device : string) : M bool :=
  observe (λ h, sv_connected bluez h device) (EvGetConnected device).

(** The lambda [pathFilter] of [processKnownDevices]: [true] skips the path. *)
Definition pathFilter (m_name : string) : PathFilter :=
  λ path,
    match string_find path ("/" +:+ m_name) with
    | None => true
    | Some _ => false
    end.

(** The loop of [processKnownDevices] over the retrieved paths. *)
Fixpoint processKnownDevices_loop (paths : list string) (devices : gmap N string)
    : M (gmap N string) :=
  match paths with
  | [] => ret devices
  | path :: paths' =>
      r <- BEEEON_CATCH_CHAIN_ACTION
             (device <- retrieveBluezDevice path ;; ret (Some device))
             (ret None) ;;
      match r with
      | None => processKnownDevices_loop paths' devices      (* continue *)
      | Some device =>
          mac <- device_address device ;;
          charName <- org_bluez_device1_get_name device ;;
          let name := default "unknown" charName in
          processKnownDevices_loop paths' (emplace mac name devices)
      end
  end.

Definition processKnownDevices (m_name : string) (objectManager : GDBusObjectManager)
    (devices : gmap N string) : M (gmap N string) :=
  processKnownDevices_loop
    (retrievePathsOfBluezObjects objectManager (pathFilter m_name) "org.bluez.Device1")
    devices.

(** The callback; [userData] is the map the callback was registered with. *)
Definition onDBusObjectAdded (objectManager : GDBusObjectManager)
    (object : GDBusObject) (userData : gmap N string) : M (gmap N string) :=
  let path := object_path object in
  if negb (g_dbus_object_manager_get_interface objectManager path "org.bluez.Device1")
  then ret userData
  else
    r <- BEEEON_CATCH_CHAIN_ACTION
           (device <- retrieveBluezDevice path ;; ret (Some device))
           (ret None) ;;
    match r with
    | None => ret userData                                   (* return *)
    | Some device =>
        mac <- device_address device ;;
        charName <- org_bluez_device1_get_name device ;;
        let name := default "unknown" charName in
        ret (emplace mac name userData)
    end.

(** The event loop thread dispatches the objects announced while the
    caller waits; each one has entered the manager's cache.  An exception
    of the callback leaves it into the event loop, and the run ends. *)
Fixpoint dispatchObjectAdded (objectManager : GDBusObjectManager)
    (added : list GDBusObject) (userData : gmap N string) : M (gmap N string) :=
  match added with
  | [] => ret userData
  | object :: added' =>
      perform (EvObjectAdded (object_path object)) ;;
      userData' <- try_catch
                     (onDBusObjectAdded (object :: objectManager) object userData)
                     (λ e, throw (EscapedCallback e)) ;;
      dispatchObjectAdded (object :: objectManager) added' userData'
  end.

(** [m_waitCondition.tryWait(timeout)] with the callback connected. *)
Definition m_waitCondition_tryWait (timeout : Timespan)
    (objectManager : GDBusObjectManager) (userData : gmap N string)
    : M (gmap N string) :=
  added <- observe (sv_object_added bluez) (λ _, EvWaitConditionTryWait timeout) ;;
  dispatchObjectAdded objectManager added userData.

(** Lines 110-126 of [lescan]: the accumulation of [allDevices]. *)
Definition lescan_accumulate (m_name : string) (timeout : Timespan)
    : M (gmap N string) :=
  logger_information ("starting BLE scan for " +:+ pretty (totalSeconds timeout)
                      +:+ " seconds") ;;
  objectManager <- createBluezObjectManager ;;
  allDevices <- processKnownDevices m_name objectManager ∅ ;;
  perform (EvSignalConnect "object-added") ;;
  startDiscovery (m_adapter m_name) "le" ;;
  m_waitCondition_tryWait timeout objectManager allDevices.

(** Lines 128-139 of [lescan]: the loop over [allDevices]. *)
Fixpoint lescan_loop (m_name : string) (allDevices : list (N * string))
    (foundDevices : gmap N string) : M (gmap N string) :=
  match allDevices with
  | [] => ret foundDevices
  | one :: rest =>
      device <- retrieveBluezDevice (createDevicePath m_name one.1) ;;
      rssi <- org_bluez_device1_get_rssi device ;;
      if bool_decide (rssi ≠ 0) then
        logger_debug ("found BLE device " +:+ one.2 +:+ " by address "
                      +:+ MACAddress_toString one.1 ":"
                      +:+ " (" +:+ pretty rssi +:+ ")") ;;
        lescan_loop m_name rest (emplace one.1 one.2 foundDevices)
      else
        lescan_loop m_name rest foundDevices
  end.

Definition lescan_filter (m_name : string) (allDevices : gmap N string)
    : M (gmap N string) :=
  lescan_loop m_name (entries allDevices) ∅.

Definition lescan (m_name : string) (timeout : Timespan) : M (gmap N string) :=
  allDevices <- lescan_accumulate m_name timeout ;;
  foundDevices <- lescan_filter m_name allDevices ;;
  logger_information ("BLE scan has finished, found "
                      +:+ pretty (size foundDevices) +:+ " device(s)") ;;
  ret foundDevices.

Definition connect (m_name : string) (address : N) (timeout : Timespan)
    : M DBusHciConnection :=
  logger_debug ("connecting to device " +:+ MACAddress_toString address ":") ;;
  let path := createDevicePath m_name address in
  device <- retrieveBluezDevice path ;;
  connected <- org_bluez_device1_get_connected device ;;
  (if negb connected then
     perform (EvSetDefaultTimeout device (to_int (totalMilliseconds timeout))) ;;
     error <- observe (λ h, sv_connect bluez h device) (EvCallConnect device) ;;
     throwErrorIfAny error
   else ret tt) ;;
  ret {| conn_name := m_name; conn_device := device; conn_timeout := timeout |}.

(** The constructor: the adapter proxy, then the event loop thread. *)
Definition DBusHciInterface_new (name : string) : M string :=
  retrieveBluezAdapter (createAdapterPath name) ;;
  perform EvThreadStart ;;
  ret name.

(** The destructor. *)
Definition DBusHciInterface_delete (m_name : string) : M unit :=
  stopDiscovery (m_adapter m_name) ;;
  running <- observe (sv_loop_running bluez) EvMainLoopRunning ;;
  when running (perform EvMainLoopQuit) ;;
  try_catch
    (error <- observe (sv_join bluez) EvThreadJoin ;;
     match error with
     | Some message => throw (SystemException message)
     | None => ret tt
     end)
    (λ e, perform (EvLogException e)).

End Controller.

(** ** DBusHciInterfaceManager *)

(** The memory of the process: the controllers constructed so far (a pointer
    to a controller is its index in [heap], the cell holds its [m_name]) and
    the manager's map [m_interfaces]. *)
Record Memory : Type := {
  heap : list string;
  m_interfaces : gmap string nat
}.

Definition empty_memory : Memory := {| heap := []; m_interfaces := ∅ |}.

Section Manager.

Variable bluez : Service.

(** [new DBusHciInterface(name)]: nothing is allocated when the
    constructor throws. *)
Definition new_DBusHciInterface (name : string) (mem : Memory) : M (nat * Memory) :=
  object <- DBusHciInterface_new bluez name ;;
  ret (length (heap mem),
       {| heap := heap mem ++ [object]; m_interfaces := m_interfaces mem |}).

Definition lookup (name : string) (mem : Memory) : M (nat * Memory) :=
  match m_interfaces mem !! name with
  | Some it => ret (it, mem)
  | None =>
      r <- new_DBusHciInterface name mem ;;
      let '(newHci, mem') := r in
      ret (newHci,
           {| heap := heap mem';
              m_interfaces := emplace name newHci (m_interfaces mem') |})
  end.

(** *** Threads calling [lookup]

    [lookup] takes no lock, so its statements interleave with those of
    other threads.  A thread is at the [find] (lines 380-382), at the
    [new] (line 384), at the [emplace] (lines 385-386), or has returned. *)
Inductive LookupPc : Type :=
  | PcFind
  | PcNew
  | PcEmplace (newHci : nat)
  | PcReturned (r : Res nat).

Record Machine : Type := {
  memory : Memory;
  history : list Event
}.

Definition lookup_step (name : string) (pc : LookupPc) (s : Machine)
    : LookupPc * Machine :=
  match pc with
  | PcFind =>
      match m_interfaces (memory s) !! name with
      | Some it => (PcReturned (Ok it), s)
      | None => (PcNew, s)
      end
  | PcNew =>
      match new_DBusHciInterface name (memory s) (history s) with
      | (Ok (newHci, mem'), es) =>
          (PcEmplace newHci, {| memory := mem'; history := history s ++ es |})
      | (Throw e, es) =>
          (PcReturned (Throw e), {| memory := memory s; history := history s ++ es |})
      end
  | PcEmplace newHci =>
      (PcReturned (Ok newHci),
       {| memory := {| heap := heap (memory s);
                       m_interfaces := emplace name newHci (m_interfaces (memory s)) |};
          history := history s |})
  | PcReturned r => (PcReturned r, s)
  end.

(** One thread running alone. *)
Fixpoint run_thread (steps : nat) (name : string) (pc : LookupPc) (s : Machine)
    : LookupPc * Machine :=
  match steps with
  | O => (pc, s)
  | S steps' =>
      let '(pc', s') := lookup_step name pc s in
      run_thread steps' name pc' s'
  end.

(** Two threads under a schedule: [true] steps the first thread. *)
Fixpoint run_threads (schedule : list bool) (name1 name2 : string)
    (pc1 pc2 : LookupPc) (s : Machine) : LookupPc * LookupPc * Machine :=
  match schedule with
  | [] => (pc1, pc2, s)
  | true :: schedule' =>
      let '(pc1', s') := lookup_step name1 pc1 s in
      run_threads schedule' name1 name2 pc1' pc2 s'
  | false :: schedule' =>
      let '(pc2', s') := lookup_step name2 pc2 s in
      run_threads schedule' name1 name2 pc1 pc2' s'
  end.

End Manager.

(** ** Reading a trace *)

(** The power states the run observed, in order. *)
Fixpoint powerReads (es : list Event) : list bool :=
  match es with
  | [] => []
  | EvGetPowered _ powered :: es' => powered :: powerReads es'
  | _ :: es' => powerReads es'
  end.

Definition isGetPowered (e : Event) : bool :=
  match e with EvGetPowered _ _ => true | _ => false end.

Definition isSetPowered (e : Event) : bool :=
  match e with EvSetPowered _ _ => true | _ => false end.

Definition isStopDiscovery (e : Event) : bool :=
  match e with EvStopDiscovery _ => true | _ => false end.

Definition isConnectRequest (e : Event) : bool :=
  match e with
  | EvCallConnect _ _ | EvSetDefaultTimeout _ _ => true
  | _ => false
  end.

(** ** Vocabulary of the statements *)

(** *** Predicates on the events of a run *)

(** The events of a computation all satisfy [P]. *)
Definition emits {A} (P : Event → Prop) (c : M A) : Prop :=
  ∀ h, Forall P (c h).2.

(** Every event of [es] that satisfies [Q] has an event that satisfies [P]
    before it. *)
Definition preceded_by (P Q : Event → Prop) (es : list Event) : Prop :=
  ∀ pre e post, es = pre ++ e :: post → Q e → ∃ e', e' ∈ pre ∧ P e'.

Definition isPowerEvent (e : Event) : Prop :=
  isGetPowered e = true ∨ isSetPowered e = true.

Definition noStop (e : Event) : Prop := isStopDiscovery e = false.

(** *** The answers of the service *)

(** The event [e], emitted after the history [h], holds what the service
    answers after [h]; a debug log is written only when the debug level
    is on. *)
Definition answered (bluez : Service) (h : list Event) (e : Event) : Prop :=
  match e with
  | EvLog Debug _ => sv_debug bluez = true
  | EvAdapterProxyNew path error => error = sv_adapter_proxy bluez h path
  | EvDeviceProxyNew path error => error = sv_device_proxy bluez h path
  | EvObjectManagerNew error => error = (sv_object_manager bluez h).1
  | EvGetPowered path powered => powered = sv_powered bluez h path
  | EvGetDiscovering path discovering => discovering = sv_discovering bluez h path
  | EvSetDiscoveryFilter path transport error =>
      error = sv_set_filter bluez h path transport
  | EvGetAddress path address => address = sv_address bluez h path
  | EvGetName path name => name = sv_name bluez h path
  | EvGetRssi path rssi => rssi = sv_rssi bluez h path
  | EvGetConnected path connected => connected = sv_connected bluez h path
  | EvCallConnect path error => error = sv_connect bluez h path
  | EvMainLoopRunning running => running = sv_loop_running bluez h
  | EvThreadJoin error => error = sv_join bluez h
  | _ => True
  end.

(** Every event of [es], emitted after [h], holds the answer of the
    service at its place. *)
Fixpoint answers (bluez : Service) (h es : list Event) : Prop :=
  match es with
  | [] => True
  | e :: es' => answered bluez h e ∧ answers bluez (h ++ [e]) es'
  end.

(** Every run of [c] records the answers of the service. *)
Definition truthful {A} (bluez : Service) (c : M A) : Prop :=
  ∀ h, answers bluez h (c h).2.

(** *** The events of the polls and of the start-discovery step *)

(** What one poll of [waitUntilPoweredChange] emits when it observes
    [observed]: the proxy, the read, and the delay after a miss. *)
Definition poll_events (path : string) (powered observed : bool) : list Event :=
  [EvAdapterProxyNew path None; EvGetPowered path observed] ++
  (if Bool.eqb observed powered then []
   else [EvConditionTryWait (totalMilliseconds CHANGE_POWER_DELAY)]).

(** The events of the start-discovery step on [adapter], by the answers
    of the service. *)
Definition startDiscovery_events (adapter trasport : string) (discovering : bool)
    (error : option string) : list Event :=
  [EvLock DiscoveringMutex; EvGetDiscovering adapter discovering] ++
  (if discovering then []
   else EvSetDiscoveryFilter adapter trasport error ::
        match error with
        | None => [EvStartDiscovery adapter]
        | Some _ => []
        end) ++
  [EvUnlock DiscoveringMutex].
Arguments startDiscovery_events _ _ _ _ /.

(** *** More readings of a trace *)


(** The device proxies a run asked for, in order, with the error of each. *)
Fixpoint lookups (es : list Event) : list (string * option string) :=
  match es with
  | [] => []
  | EvDeviceProxyNew path error :: es' => (path, error) :: lookups es'
  | _ :: es' => lookups es'
  end.

(** The addresses a run read from device proxies, in order. *)
Fixpoint addressReads (es : list Event) : list (option string) :=
  match es with
  | [] => []
  | EvGetAddress _ address :: es' => address :: addressReads es'
  | _ :: es' => addressReads es'
  end.

(** The address that [MACAddress::parse] makes of what the getter gave:
    [None] when the pointer is null or the text is rejected. *)
Definition address_of `{MACAddressCodec} (address : option string) : option N :=
  text ← address; MACAddress_parse text ":".

(** The devices a run read: the proxy, its address and its name, for every
    read of an address that a read of the name follows. *)
Fixpoint deviceReads (es : list Event) : list (string * string * option string) :=
  match es with
  | [] => []
  | EvGetAddress path (Some address) :: es' =>
      match es' with
      | EvGetName _ name :: es'' => (path, address, name) :: deviceReads es''
      | _ => deviceReads es'
      end
  | _ :: es' => deviceReads es'
  end.

(** Every failed lookup of a device proxy is followed by the log of its
    exception. *)
Fixpoint failuresLogged (es : list Event) : bool :=
  match es with
  | [] => true
  | EvDeviceProxyNew _ (Some msg) :: es' =>
      match es' with
      | EvLogException (IOException msg') :: es'' =>
          bool_decide (msg' = msg) && failuresLogged es''
      | _ => false
      end
  | _ :: es' => failuresLogged es'
  end.

(** *** The seeding pass *)

(** The spec's words: the object path lies under the path of the adapter. *)
Definition spec_under_adapter_path (m_name path : string) : bool :=
  String.prefix ("/org/bluez/" +:+ m_name +:+ "/") path.

(** What [processKnownDevices] and [onDBusObjectAdded] record for a
    device that was read. *)
Definition record_device `{MACAddressCodec} (devices : gmap N string)
    (read : string * string * option string) : gmap N string :=
  match MACAddress_parse read.1.2 ":" with
  | Some mac => emplace mac (default "unknown" read.2) devices
  | None => devices
  end.

(** *** The registry *)

(** The registry and the heap agree: the map sends a name to a pointer
    exactly when that pointer holds a controller of that name. *)
Definition registry_wf (mem : Memory) : Prop :=
  ∀ name p, m_interfaces mem !! name = Some p ↔ heap mem !! p = Some name.

Definition initial_machine : Machine :=
  {| memory := empty_memory; history := [] |}.

(** ** Examples: a codec and some services *)

(** An address codec for the examples: two hexadecimal digits per byte. *)
Definition hex_value (c : ascii) : option N :=
  let n := N_of_ascii c in
  if ((48 <=? n) && (n <=? 57))%N then Some (n - 48)%N
  else if ((65 <=? n) && (n <=? 70))%N then Some (n - 55)%N
  else if ((97 <=? n) && (n <=? 102))%N then Some (n - 87)%N
  else None.

(** Twelve hexadecimal digits, with separators anywhere between them. *)
Fixpoint hex_parse (s : string) (separator : ascii) (digits : nat) (acc : N)
    : option N :=
  match s with
  | EmptyString => if bool_decide (digits = 12%nat) then Some acc else None
  | String c s' =>
      if Ascii.eqb c separator then hex_parse s' separator digits acc
      else
        match hex_value c with
        | Some v => hex_parse s' separator (S digits) (acc * 16 + v)%N
        | None => None
        end
  end.

Definition hex_digit (n : N) : ascii :=
  ascii_of_N (if (n <? 10)%N then 48 + n else 55 + n)%N.

Definition hex_byte (a : N) (i : N) : string :=
  let b := ((a / 2 ^ (8 * i)) mod 256)%N in
  String (hex_digit (b / 16)) (String (hex_digit (b mod 16)) EmptyString).

Definition hex_toString (a : N) (separator : ascii) : string :=
  hex_byte a 5 +:+ String separator (hex_byte a 4) +:+ String separator (hex_byte a 3)
  +:+ String separator (hex_byte a 2) +:+ String separator (hex_byte a 1)
  +:+ String separator (hex_byte a 0).

#[global] Instance hex_codec : MACAddressCodec := {|
  MACAddress_parse := λ s separator, hex_parse s separator 0 0;
  MACAddress_toString := hex_toString
|}.

(** Nothing fails, the adapter is powered and discovering, the registry is
    empty, and every device is connected. *)
Definition quiet_service : Service := {|
  sv_debug := false;
  sv_adapter_proxy := λ _ _, None;
  sv_device_proxy := λ _ _, None;
  sv_object_manager := λ _, (None, []);
  sv_powered := λ _ _, true;
  sv_discovering := λ _ _, true;
  sv_set_filter := λ _ _ _, None;
  sv_address := λ _ _, Some "00:00:00:00:00:00";
  sv_name := λ _ _, None;
  sv_rssi := λ _ _, 0;
  sv_connected := λ _ _, true;
  sv_connect := λ _ _, None;
  sv_object_added := λ _, [];
  sv_loop_running := λ _, true;
  sv_join := λ _, None
|}%string.

(** The adapter is off when [up] reads its power and reports power at the
    third poll after that. *)
Definition slow_service : Service := {|
  sv_debug := true;
  sv_adapter_proxy := λ _ _, None;
  sv_device_proxy := λ _ _, None;
  sv_object_manager := λ _, (None, []);
  sv_powered := λ h _, bool_decide (3 ≤ length (powerReads h))%nat;
  sv_discovering := λ _ _, false;
  sv_set_filter := λ _ _ _, None;
  sv_address := λ _ _, Some "00:00:00:00:00:00";
  sv_name := λ _ _, None;
  sv_rssi := λ _ _, 0;
  sv_connected := λ _ _, false;
  sv_connect := λ _ _, None;
  sv_object_added := λ _, [];
  sv_loop_running := λ _, true;
  sv_join := λ _, None
|}%string.

(** The adapter never powers on. *)
Definition dead_service : Service := {|
  sv_debug := false;
  sv_adapter_proxy := λ _ _, None;
  sv_device_proxy := λ _ _, None;
  sv_object_manager := λ _, (None, []);
  sv_powered := λ _ _, false;
  sv_discovering := λ _ _, false;
  sv_set_filter := λ _ _ _, None;
  sv_address := λ _ _, Some "00:00:00:00:00:00";
  sv_name := λ _ _, None;
  sv_rssi := λ _ _, 0;
  sv_connected := λ _ _, false;
  sv_connect := λ _ _, None;
  sv_object_added := λ _, [];
  sv_loop_running := λ _, true;
  sv_join := λ _, None
|}%string.

Definition hasWaited (h : list Event) : bool :=
  existsb (λ e, match e with EvWaitConditionTryWait _ => true | _ => false end) h.

(** Two devices of hci0 are known: A in range (signal strength -60) and B
    out of range (0). *)
Definition two_devices_service : Service := {|
  sv_debug := true;
  sv_adapter_proxy := λ _ _, None;
  sv_device_proxy := λ _ _, None;
  sv_object_manager := λ _,
    (None,
     [ {| object_path := "/org/bluez/hci0"; object_interfaces := ["org.bluez.Adapter1"] |};
       {| object_path := "/org/bluez/hci0/dev_AA_BB_CC_DD_EE_01";
          object_interfaces := ["org.bluez.Device1"] |};
       {| object_path := "/org/bluez/hci0/dev_AA_BB_CC_DD_EE_02";
          object_interfaces := ["org.bluez.Device1"] |} ]);
  sv_powered := λ _ _, true;
  sv_discovering := λ _ _, false;
  sv_set_filter := λ _ _ _, None;
  sv_address := λ _ path,
    if String.eqb path "/org/bluez/hci0/dev_AA_BB_CC_DD_EE_01"
    then Some "AA:BB:CC:DD:EE:01" else Some "AA:BB:CC:DD:EE:02";
  sv_name := λ _ path,
    if String.eqb path "/org/bluez/hci0/dev_AA_BB_CC_DD_EE_01"
    then Some "A" else None;
  sv_rssi := λ _ path,
    if String.eqb path "/org/bluez/hci0/dev_AA_BB_CC_DD_EE_01" then -60 else 0;
  sv_connected := λ _ _, false;
  sv_connect := λ _ _, None;
  sv_object_added := λ _, [];
  sv_loop_running := λ _, true;
  sv_join := λ _, None
|}%string.

(** One device of hci0 is known when the scan starts, and its object is
    gone by the time the wait of [lescan] is over. *)
Definition vanishing_service : Service := {|
  sv_debug := false;
  sv_adapter_proxy := λ _ _, None;
  sv_device_proxy := λ h _, if hasWaited h then Some "object vanished" else None;
  sv_object_manager := λ _,
    (None,
     [ {| object_path := "/org/bluez/hci0/dev_AA_BB_CC_DD_EE_01";
          object_interfaces := ["org.bluez.Device1"] |} ]);
  sv_powered := λ _ _, true;
  sv_discovering := λ _ _, true;
  sv_set_filter := λ _ _ _, None;
  sv_address := λ _ _, Some "AA:BB:CC:DD:EE:01";
  sv_name := λ _ _, Some "sensor";
  sv_rssi := λ _ _, -60;
  sv_connected := λ _ _, false;
  sv_connect := λ _ _, None;
  sv_object_added := λ _, [];
  sv_loop_running := λ _, true;
  sv_join := λ _, None
|}%string.

(** The registry holds a device of the adapter hci10. *)
Definition neighbour_service : Service := {|
  sv_debug := false;
  sv_adapter_proxy := λ _ _, None;
  sv_device_proxy := λ _ _, None;
  sv_object_manager := λ _,
    (None,
     [ {| object_path := "/org/bluez/hci10/dev_AA_BB_CC_DD_EE_01";
          object_interfaces := ["org.bluez.Device1"] |} ]);
  sv_powered := λ _ _, true;
  sv_discovering := λ _ _, true;
  sv_set_filter := λ _ _ _, None;
  sv_address := λ _ _, Some "AA:BB:CC:DD:EE:01";
  sv_name := λ _ _, Some "sensor";
  sv_rssi := λ _ _, -60;
  sv_connected := λ _ _, false;
  sv_connect := λ _ _, None;
  sv_object_added := λ _, [];
  sv_loop_running := λ _, true;
  sv_join := λ _, None
|}%string.

(** The adapter proxy cannot be made. *)
Definition broken_service : Service := {|
  sv_debug := false;
  sv_adapter_proxy := λ _ _, Some "no such adapter";
  sv_device_proxy := λ _ _, None;
  sv_object_manager := λ _, (None, []);
  sv_powered := λ _ _, false;
  sv_discovering := λ _ _, false;
  sv_set_filter := λ _ _ _, None;
  sv_address := λ _ _, Some "00:00:00:00:00:00";
  sv_name := λ _ _, None;
  sv_rssi := λ _ _, 0;
  sv_connected := λ _ _, false;
  sv_connect := λ _ _, None;
  sv_object_added := λ _, [];
  sv_loop_running := λ _, true;
  sv_join := λ _, None
|}%string.

(** A device of hci0 is known, and its address property is unset. *)
Definition null_address_service : Service := {|
  sv_debug := false;
  sv_adapter_proxy := λ _ _, None;
  sv_device_proxy := λ _ _, None;
  sv_object_manager := λ _,
    (None,
     [ {| object_path := "/org/bluez/hci0/dev_AA_BB_CC_DD_EE_01";
          object_interfaces := ["org.bluez.Device1"] |} ]);
  sv_powered := λ _ _, true;
  sv_discovering := λ _ _, true;
  sv_set_filter := λ _ _ _, None;
  sv_address := λ _ _, None;
  sv_name := λ _ _, Some "sensor";
  sv_rssi := λ _ _, -60;
  sv_connected := λ _ _, false;
  sv_connect := λ _ _, None;
  sv_object_added := λ _, [];
  sv_loop_running := λ _, true;
  sv_join := λ _, None
|}%string.

Definition two_seconds : Timespan := 2 * SECONDS.

(** ** Vocabulary of the further properties *)

(** The set-power requests of a run, in order. *)
Fixpoint setPowerCalls (es : list Event) : list (string * bool) :=
  match es with
  | [] => []
  | EvSetPowered path powered :: es' => (path, powered) :: setPowerCalls es'
  | _ :: es' => setPowerCalls es'
  end.

(** The waits on [m_waitCondition] of a run, in order. *)
Fixpoint waits (es : list Event) : list Z :=
  match es with
  | [] => []
  | EvWaitConditionTryWait usec :: es' => usec :: waits es'
  | _ :: es' => waits es'
  end.

(** The waits on [m_condition] of a run, in order: the milliseconds of each. *)
Fixpoint conditionWaits (es : list Event) : list Z :=
  match es with
  | [] => []
  | EvConditionTryWait msec :: es' => msec :: conditionWaits es'
  | _ :: es' => conditionWaits es'
  end.

(** The calls that [startDiscovery] and [stopDiscovery] make on the adapter. *)
Definition isDiscoveryEvent (e : Event) : bool :=
  match e with
  | EvGetDiscovering _ _ | EvSetDiscoveryFilter _ _ _
  | EvStartDiscovery _ | EvStopDiscovery _ => true
  | _ => false
  end.

(** The calls on a device proxy. *)
Definition isDeviceEvent (e : Event) : bool :=
  match e with
  | EvDeviceProxyNew _ _ | EvGetAddress _ _ | EvGetName _ _ | EvGetRssi _ _
  | EvGetConnected _ _ | EvSetDefaultTimeout _ _ | EvCallConnect _ _ => true
  | _ => false
  end.

(** *** The kinds of events of each operation *)

(** Logs and calls on device proxies: what the loops of a scan emit. *)
Definition isScanEvent (e : Event) : bool :=
  match e with
  | EvLog _ _ | EvLogException _ | EvDeviceProxyNew _ _ | EvGetAddress _ _
  | EvGetName _ _ | EvGetRssi _ _ | EvObjectAdded _ => true
  | _ => false
  end.

Definition isLescanEvent (e : Event) : bool :=
  match e with
  | EvObjectManagerNew _ | EvSignalConnect _
  | EvLock DiscoveringMutex | EvUnlock DiscoveringMutex
  | EvGetDiscovering _ _ | EvSetDiscoveryFilter _ _ _ | EvStartDiscovery _
  | EvWaitConditionTryWait _ => true
  | _ => isScanEvent e
  end.

Definition isPowerOpEvent (e : Event) : bool :=
  match e with
  | EvLog Debug _ | EvLock _ | EvUnlock _ | EvAdapterProxyNew _ _
  | EvGetPowered _ _ | EvSetPowered _ _ | EvConditionTryWait _ | EvBroadcast
  | EvGetDiscovering _ _ | EvSetDiscoveryFilter _ _ _ | EvStartDiscovery _ => true
  | _ => false
  end.

Definition isConnectEvent (e : Event) : bool :=
  match e with
  | EvLog Debug _ | EvDeviceProxyNew _ _ | EvGetConnected _ _
  | EvSetDefaultTimeout _ _ | EvCallConnect _ _ => true
  | _ => false
  end.

(** The exceptions a computation can throw all satisfy [P]. *)
Definition throws_only {A} (P : Exn → Prop) (c : M A) : Prop :=
  ∀ h x, (c h).1 = Throw x → P x.

Definition isIOException (x : Exn) : Prop := ∃ msg, x = IOException msg.

Definition isIOOrTimeout (x : Exn) : Prop :=
  (∃ msg, x = IOException msg) ∨ (∃ msg, x = TimeoutException msg).

Definition isAddressException (x : Exn) : Prop := ∃ address, x = AddressException address.

Definition isEscapedAddressException (x : Exn) : Prop :=
  ∃ address, x = EscapedCallback (AddressException address).

Definition isScanException (x : Exn) : Prop :=
  isIOException x ∨ isAddressException x ∨ isEscapedAddressException x.

(** *** The mutexes a thread holds

    A [FastMutex] is not recursive.  Reading a trace from the mutexes held
    at its start: a lock needs [can_lock], an unlock needs the mutex held; a
    read or a change of the power state and a wait on [m_condition] (which
    is given [m_statusMutex]) need the status mutex, and every call of the
    discovery state needs the discovering mutex.  [None] is a violation. *)
Record Held : Type := {
  held_status : bool;
  held_discovering : bool
}.

Definition holds (s : Held) (m : Mutex) : bool :=
  match m with
  | StatusMutex => held_status s
  | DiscoveringMutex => held_discovering s
  end.

Definition set_held (m : Mutex) (b : bool) (s : Held) : Held :=
  match m with
  | StatusMutex => {| held_status := b; held_discovering := held_discovering s |}
  | DiscoveringMutex => {| held_status := held_status s; held_discovering := b |}
  end.

(** A mutex can be taken when it is free; [m_statusMutex] moreover only
    while [m_discoveringMutex] is free, so that the two are always taken
    in one order. *)
Definition can_lock (s : Held) (m : Mutex) : bool :=
  negb (holds s m) &&
  match m with
  | StatusMutex => negb (held_discovering s)
  | DiscoveringMutex => true
  end.

Definition lock_step (s : Held) (e : Event) : option Held :=
  match e with
  | EvLock m => if can_lock s m then Some (set_held m true s) else None
  | EvUnlock m => if holds s m then Some (set_held m false s) else None
  | EvGetPowered _ _ | EvSetPowered _ _ | EvConditionTryWait _ =>
      if held_status s then Some s else None
  | EvGetDiscovering _ _ | EvSetDiscoveryFilter _ _ _
  | EvStartDiscovery _ | EvStopDiscovery _ =>
      if held_discovering s then Some s else None
  | _ => Some s
  end.

Fixpoint lock_run (es : list Event) (s : Held) : option Held :=
  match es with
  | [] => Some s
  | e :: es' =>
      match lock_step s e with
      | Some s' => lock_run es' s'
      | None => None
      end
  end.

Definition no_mutex : Held := {| held_status := false; held_discovering := false |}.

(** From the mutexes [s], every run of [c] respects the mutexes and ends
    with the same mutexes held. *)
Definition locks_ok {A} (s : Held) (c : M A) : Prop :=
  ∀ h, lock_run (c h).2 s = Some s.

(** *** Threads in [lookup]

    Every entry of the registry points to a controller of its name. *)
Definition registry_sound (mem : Memory) : Prop :=
  ∀ name p, m_interfaces mem !! name = Some p → heap mem !! p = Some name.

(** The pointer a thread holds points to a controller of the name it
    looks up. *)
Definition pc_ok (name : string) (pc : LookupPc) (mem : Memory) : Prop :=
  match pc with
  | PcEmplace p | PcReturned (Ok p) => heap mem !! p = Some name
  | _ => True
  end.

(** The constructions a thread may still make. *)
Definition pending (pc : LookupPc) : nat :=
  match pc with
  | PcFind | PcNew => 1
  | _ => 0
  end.

(** ** Running computations *)

Lemma run_bind {A B} (c : M A) (k : A → M B) (h : list Event) :
  bind c k h =
    match c h with
    | (Ok a, e1) => let '(r, e2) := k a (h ++ e1) in (r, e1 ++ e2)
    | (Throw x, e1) => (Throw x, e1)
    end.
Proof. reflexivity. Qed.

Lemma run_perform {B} (e : Event) (k : unit → M B) (h : list Event) :
  bind (perform e) k h = let '(r, es) := k tt (h ++ [e]) in (r, e :: es).
Proof. reflexivity. Qed.

Lemma run_observe {A B} (oracle : list Event → A) (ev : A → Event)
    (k : A → M B) (h : list Event) :
  bind (observe oracle ev) k h =
    let '(r, es) := k (oracle h) (h ++ [ev (oracle h)]) in (r, ev (oracle h) :: es).
Proof. reflexivity. Qed.

Lemma run_ret {A B} (a : A) (k : A → M B) (h : list Event) :
  bind (ret a) k h = k a h.
Proof.
  unfold bind, ret. rewrite app_nil_r. by destruct (k a h).
Qed.

Lemma run_bind_assoc {A B C} (c : M A) (k1 : A → M B) (k2 : B → M C)
    (h : list Event) :
  bind (bind c k1) k2 h = bind c (λ a, bind (k1 a) k2) h.
Proof.
  unfold bind. destruct (c h) as [[a|x] e1]; [|done].
  destruct (k1 a (h ++ e1)) as [[b|x] e2]; [|done].
  rewrite <- (assoc_L (++)). destruct (k2 b (h ++ e1 ++ e2)) as [r e3].
  by rewrite (assoc_L (++)).
Qed.

Section RunPrimitives.

Variable bluez : Service.
Context {B : Type}.

Lemma run_retrieveBluezAdapter (path : string) (k : string → M B) (h : list Event) :
  bind (retrieveBluezAdapter bluez path) k h =
    match sv_adapter_proxy bluez h path with
    | Some msg => (Throw (IOException msg), [EvAdapterProxyNew path (Some msg)])
    | None =>
        let '(r, es) := k path (h ++ [EvAdapterProxyNew path None]) in
        (r, EvAdapterProxyNew path None :: es)
    end.
Proof.
  unfold retrieveBluezAdapter. rewrite run_bind_assoc, run_observe.
  destruct (sv_adapter_proxy bluez h path) as [msg|]; [done|].
  simpl. by rewrite run_bind_assoc, !run_ret.
Qed.

Lemma run_retrieveBluezDevice (path : string) (k : string → M B) (h : list Event) :
  bind (retrieveBluezDevice bluez path) k h =
    match sv_device_proxy bluez h path with
    | Some msg => (Throw (IOException msg), [EvDeviceProxyNew path (Some msg)])
    | None =>
        let '(r, es) := k path (h ++ [EvDeviceProxyNew path None]) in
        (r, EvDeviceProxyNew path None :: es)
    end.
Proof.
  unfold retrieveBluezDevice. rewrite run_bind_assoc, run_observe.
  destruct (sv_device_proxy bluez h path) as [msg|]; [done|].
  simpl. by rewrite run_bind_assoc, !run_ret.
Qed.

End RunPrimitives.

Section Emits.

Context {A B : Type} (P : Event → Prop).

Lemma emits_ret (a : A) : emits P (ret a).
Proof. intros h. constructor. Qed.

Lemma emits_throw (x : Exn) : emits P (throw (A := A) x).
Proof. intros h. constructor. Qed.

Lemma emits_perform (e : Event) : P e → emits P (perform e).
Proof. intros He h. by repeat constructor. Qed.

Lemma emits_observe (oracle : list Event → A) (ev : A → Event) :
  (∀ a, P (ev a)) → emits P (observe oracle ev).
Proof. intros He h. by repeat constructor. Qed.

Lemma emits_bind (c : M A) (k : A → M B) :
  emits P c → (∀ a, emits P (k a)) → emits P (bind c k).
Proof.
  intros Hc Hk h. unfold bind.
  specialize (Hc h). destruct (c h) as [[a|x] e1]; simpl in *; [|done].
  specialize (Hk a (h ++ e1)). destruct (k a (h ++ e1)) as [r e2]; simpl in *.
  by apply Forall_app.
Qed.

Lemma emits_try_catch (c : M A) (handler : Exn → M A) :
  emits P c → (∀ x, emits P (handler x)) → emits P (try_catch c handler).
Proof.
  intros Hc Hk h. unfold try_catch.
  specialize (Hc h). destruct (c h) as [[a|x] e1]; simpl in *; [done|].
  specialize (Hk x (h ++ e1)). destruct (handler x (h ++ e1)) as [r e2]; simpl in *.
  by apply Forall_app.
Qed.

Lemma emits_finally (c : M A) (cleanup : M unit) :
  emits P c → emits P cleanup → emits P (finally c cleanup).
Proof.
  intros Hc Hk h. unfold finally.
  specialize (Hc h). destruct (c h) as [r e1]; simpl in *.
  specialize (Hk (h ++ e1)). destruct (cleanup (h ++ e1)) as [r' e2]; simpl in *.
  by apply Forall_app.
Qed.

End Emits.

Lemma emits_when (P : Event → Prop) (b : bool) (c : M unit) :
  emits P c → emits P (when b c).
Proof. intros Hc. destruct b; [done | apply emits_ret]. Qed.

Lemma emits_ScopedLock {A} (P : Event → Prop) (m : Mutex) (scope : M A) :
  P (EvLock m) → P (EvUnlock m) → emits P scope → emits P (ScopedLock m scope).
Proof.
  intros Hl Hu Hs. apply emits_bind; [by apply emits_perform|]. intros _.
  apply emits_finally; [done | by apply emits_perform].
Qed.

(** ** The answers of the service *)

Lemma answers_app (bluez : Service) (h a b : list Event) :
  answers bluez h (a ++ b) ↔ answers bluez h a ∧ answers bluez (h ++ a) b.
Proof.
  revert h. induction a as [|e a IH]; intros h; simpl.
  - rewrite app_nil_r. tauto.
  - rewrite IH, <- (assoc_L (++)). simpl. tauto.
Qed.

(** An event of a truthful trace holds the answer at its place. *)
Lemma answers_at (bluez : Service) (h es pre post : list Event) (e : Event) :
  answers bluez h es → es = pre ++ e :: post → answered bluez (h ++ pre) e.
Proof.
  intros Hes ->. apply answers_app in Hes as [_ Hes]. by destruct Hes.
Qed.

Section Truthful.

Context {A B : Type} (bluez : Service).

Lemma truthful_ret (a : A) : truthful bluez (ret a).
Proof. by intros h. Qed.

Lemma truthful_throw (x : Exn) : truthful bluez (throw (A := A) x).
Proof. by intros h. Qed.

Lemma truthful_observe (oracle : list Event → A) (ev : A → Event) :
  (∀ h, answered bluez h (ev (oracle h))) → truthful bluez (observe oracle ev).
Proof. intros He h. unfold observe. simpl. by split. Qed.

Lemma truthful_bind (c : M A) (k : A → M B) :
  truthful bluez c → (∀ a, truthful bluez (k a)) → truthful bluez (bind c k).
Proof.
  intros Hc Hk h. unfold bind.
  specialize (Hc h). destruct (c h) as [[a|x] e1]; simpl in *; [|done].
  specialize (Hk a (h ++ e1)). destruct (k a (h ++ e1)) as [r e2]; simpl in *.
  by apply answers_app.
Qed.

Lemma truthful_try_catch (c : M A) (handler : Exn → M A) :
  truthful bluez c → (∀ x, truthful bluez (handler x)) →
  truthful bluez (try_catch c handler).
Proof.
  intros Hc Hk h. unfold try_catch.
  specialize (Hc h). destruct (c h) as [[a|x] e1]; simpl in *; [done|].
  specialize (Hk x (h ++ e1)). destruct (handler x (h ++ e1)) as [r e2]; simpl in *.
  by apply answers_app.
Qed.

Lemma truthful_finally (c : M A) (cleanup : M unit) :
  truthful bluez c → truthful bluez cleanup → truthful bluez (finally c cleanup).
Proof.
  intros Hc Hk h. unfold finally.
  specialize (Hc h). destruct (c h) as [r e1]; simpl in *.
  specialize (Hk (h ++ e1)). destruct (cleanup (h ++ e1)) as [r' e2]; simpl in *.
  by apply answers_app.
Qed.

End Truthful.

Lemma truthful_perform (bluez : Service) (e : Event) :
  (∀ h, answered bluez h e) → truthful bluez (perform e).
Proof. intros He h. unfold perform. simpl. by split. Qed.

Lemma truthful_when (bluez : Service) (b : bool) (c : M unit) :
  truthful bluez c → truthful bluez (when b c).
Proof. intros Hc. destruct b; [done | apply truthful_ret]. Qed.

Lemma truthful_ScopedLock {A} (bluez : Service) (m : Mutex) (scope : M A) :
  truthful bluez scope → truthful bluez (ScopedLock m scope).
Proof.
  intros Hs. apply truthful_bind; [by apply truthful_perform|]. intros _.
  apply truthful_finally; [done | by apply truthful_perform].
Qed.

Lemma truthful_logger_debug (bluez : Service) (msg : string) :
  truthful bluez (logger_debug bluez msg).
Proof.
  unfold logger_debug. destruct (sv_debug bluez) eqn:Hd; simpl.
  - by apply truthful_perform.
  - apply truthful_ret.
Qed.

Ltac truthful_step :=
  first
    [ apply truthful_ret
    | apply truthful_throw
    | apply truthful_logger_debug
    | apply truthful_perform; done
    | apply truthful_observe; done
    | apply truthful_when
    | apply truthful_ScopedLock
    | apply truthful_finally
    | apply truthful_try_catch; [| intros ?]
    | apply truthful_bind; [| intros ?]
    | match goal with
      | |- truthful _ (if ?b then _ else _) => destruct b
      | |- truthful _ (match ?x with _ => _ end) => destruct x
      end ].

(** A computation starts with the events of its first part. *)
Lemma bind_events_prefix {A B} (c : M A) (k : A → M B) (h : list Event) :
  ∃ rest, (bind c k h).2 = (c h).2 ++ rest.
Proof.
  unfold bind. destruct (c h) as [[a|x] e1]; simpl.
  - destruct (k a (h ++ e1)) as [r e2]. by exists e2.
  - exists []. by rewrite app_nil_r.
Qed.

Lemma finally_events_prefix {A} (c : M A) (cleanup : M unit) (h : list Event) :
  ∃ rest, (finally c cleanup h).2 = (c h).2 ++ rest.
Proof.
  unfold finally. destruct (c h) as [r e1]; simpl.
  destruct (cleanup (h ++ e1)) as [r' e2]. by exists e2.
Qed.

(** Membership in a list written with [::] and [++]. *)
Ltac in_list :=
  simpl; repeat (rewrite elem_of_app || rewrite elem_of_cons); intuition congruence.

(** ** Order of events *)

Lemma app_eq_app_Forall {X} (Q : X → Prop) (a b pre post : list X) (e : X) :
  a ++ b = pre ++ e :: post → Forall (λ x, ¬ Q x) a → Q e →
  ∃ pre', pre = a ++ pre'.
Proof.
  revert pre. induction a as [|x a IH]; intros pre Heq Ha He.
  - by exists pre.
  - apply Forall_cons in Ha as [Hx Ha]. destruct pre as [|y pre]; simpl in *.
    + injection Heq as -> _. done.
    + injection Heq as -> Heq. destruct (IH pre Heq Ha He) as [pre' ->].
      by exists pre'.
Qed.

Lemma preceded_by_prefix (P Q : Event → Prop) (a b : list Event) (e' : Event) :
  Forall (λ x, ¬ Q x) a → e' ∈ a → P e' → preceded_by P Q (a ++ b).
Proof.
  intros Ha Hin HP pre e post Heq He.
  destruct (app_eq_app_Forall Q a b pre post e Heq Ha He) as [pre' ->].
  exists e'. split; [|done]. apply elem_of_app. by left.
Qed.

Lemma preceded_by_none (P Q : Event → Prop) (es : list Event) :
  Forall (λ x, ¬ Q x) es → preceded_by P Q es.
Proof.
  intros Hes pre e post -> He.
  apply Forall_app in Hes as [_ Hes]. apply Forall_cons in Hes as [Hne _]. done.
Qed.

(** ** The bounded wait for a power change *)

Lemma powerReads_app (a b : list Event) :
  powerReads (a ++ b) = powerReads a ++ powerReads b.
Proof.
  induction a as [|e a IH]; [done|]. destruct e; simpl; by rewrite ?IH.
Qed.

Lemma powerReads_polls (path : string) (powered : bool) (reads : list bool) :
  powerReads (concat (poll_events path powered <$> reads)) = reads.
Proof.
  induction reads as [|b reads IH]; [done|].
  rewrite fmap_cons, concat_cons, powerReads_app, IH.
  unfold poll_events. simpl. by destruct (Bool.eqb b powered).
Qed.

Section PowerWait.

Variable bluez : Service.

Lemma waitUntilPoweredChange_loop_run (n : nat) (path : string) (powered : bool)
    (h : list Event) :
  ∃ (misses : nat) (tail : list Event),
    (waitUntilPoweredChange_loop bluez n path powered h).2 =
      concat (poll_events path powered <$> replicate misses (negb powered)) ++ tail ∧
    match (waitUntilPoweredChange_loop bluez n path powered h).1 with
    | Ok true =>
        (misses < n)%nat ∧
        tail = poll_events path powered powered
    | Ok false => misses = n ∧ tail = []
    | Throw x =>
        (misses < n)%nat ∧
        ∃ msg, x = IOException msg ∧ tail = [EvAdapterProxyNew path (Some msg)]
    end.
Proof.
  revert h. induction n as [|n IH]; intros h.
  - exists O, []. by simpl.
  - simpl. rewrite run_retrieveBluezAdapter.
    unfold org_bluez_adapter1_get_powered.
    destruct (sv_adapter_proxy bluez h path) as [msg|] eqn:Hproxy; simpl.
    + exists O, [EvAdapterProxyNew path (Some msg)]. simpl.
      split; [done|]. split; [lia|]. by exists msg.
    + rewrite run_observe.
      set (h1 := h ++ [EvAdapterProxyNew path None]).
      destruct (sv_powered bluez h1 path) eqn:Hp, powered; simpl.
      * exists O, (poll_events path true true). simpl. split; [done|]. split; [lia|done].
      * rewrite run_perform.
        destruct (IH ((h1 ++ [EvGetPowered path true]) ++
                      [EvConditionTryWait (totalMilliseconds CHANGE_POWER_DELAY)]))
          as (misses & tail & Hes & Hr).
        destruct (waitUntilPoweredChange_loop bluez n path false _) as [r es].
        simpl in *. exists (S misses), tail. subst es. split; [done|].
        destruct r as [[]|x]; [| |destruct Hr as [? ?]; split; [lia|done]].
        -- destruct Hr; split; [lia|done].
        -- destruct Hr; split; [lia|done].
      * rewrite run_perform.
        destruct (IH ((h1 ++ [EvGetPowered path false]) ++
                      [EvConditionTryWait (totalMilliseconds CHANGE_POWER_DELAY)]))
          as (misses & tail & Hes & Hr).
        destruct (waitUntilPoweredChange_loop bluez n path true _) as [r es].
        simpl in *. exists (S misses), tail. subst es. split; [done|].
        destruct r as [[]|x]; [| |destruct Hr as [? ?]; split; [lia|done]].
        -- destruct Hr; split; [lia|done].
        -- destruct Hr; split; [lia|done].
      * exists O, (poll_events path false false). simpl. split; [done|]. split; [lia|done].
Qed.

End PowerWait.

Lemma negb_neq (b : bool) : b ≠ negb b.
Proof. by destruct b. Qed.

Lemma poll_events_hit (path : string) (powered : bool) :
  poll_events path powered powered =
    [EvAdapterProxyNew path None; EvGetPowered path powered].
Proof. unfold poll_events. by destruct powered. Qed.

(** The polls of [waitUntilPoweredChange], by the power states it read. *)
Lemma waitUntilPoweredChange_polls_facts (bluez : Service) (m_name path : string)
    (powered : bool) (h : list Event) :
  let r := (waitUntilPoweredChange bluez m_name path powered h).1 in
  let es := (waitUntilPoweredChange bluez m_name path powered h).2 in
  let reads := powerReads es in
  (length reads ≤ 5)%nat ∧
  totalMilliseconds CHANGE_POWER_DELAY = 200 ∧
  (∃ tail, es = concat (poll_events path powered <$> reads) ++ tail ∧
     (tail = [] ∨
      ∃ msg, tail = [EvAdapterProxyNew path (Some msg)] ∧ r = Throw (IOException msg))) ∧
  (∀ k, reads !! k = Some powered → length reads = S k ∧ r = Ok tt) ∧
  (r = Ok tt → last reads = Some powered) ∧
  (r = Throw (TimeoutException ("failed to change power of interface" +:+ m_name))
   ↔ reads = replicate 5 (negb powered)) ∧
  (∀ msg, r = Throw (TimeoutException msg) →
     msg = "failed to change power of interface" +:+ m_name).
Proof.
  unfold waitUntilPoweredChange. rewrite run_bind.
  change (Z.to_nat CHANGE_POWER_ATTEMPTS) with 5%nat.
  destruct (waitUntilPoweredChange_loop_run bluez 5 path powered h)
    as (misses & tail & Hes & Hr).
  destruct (waitUntilPoweredChange_loop bluez 5 path powered h) as [r es].
  simpl in Hes, Hr. subst es.
  destruct r as [[]|x]; simpl.
  - (* the loop body returned *)
    destruct Hr as [Hlt ->]. rewrite app_nil_r.
    rewrite powerReads_app, powerReads_polls, poll_events_hit. simpl.
    split_and!.
    + rewrite length_app, length_replicate. simpl. lia.
    + done.
    + exists []. split; [|by left].
      rewrite app_nil_r, fmap_app, concat_app. simpl.
      by rewrite Bool.eqb_reflx.
    + intros k Hk. destruct (decide (k < misses)%nat) as [Hlt'|Hge].
      * rewrite lookup_app_l, lookup_replicate in Hk by (rewrite length_replicate; lia).
        destruct Hk as [Hk _]. by apply negb_neq in Hk.
      * apply lookup_lt_Some in Hk as Hlen.
        rewrite length_app, length_replicate in Hlen |- *. simpl in *.
        split; [lia | done].
    + intros _. by rewrite last_snoc.
    + split; [done|].
      intros Heq. apply (f_equal last) in Heq. rewrite last_snoc in Heq.
      simpl in Heq. injection Heq as Heq. by apply negb_neq in Heq.
    + intros msg [=].
  - (* the budget is exhausted *)
    destruct Hr as [-> ->]. rewrite !app_nil_r, powerReads_polls.
    split_and!.
    + by rewrite length_replicate.
    + done.
    + exists []. split; [by rewrite app_nil_r | by left].
    + intros k Hk. apply lookup_replicate in Hk as [Hk _]. by apply negb_neq in Hk.
    + intros [=].
    + done.
    + by intros msg [= <-].
  - (* the proxy could not be made *)
    destruct Hr as (Hlt & msg & -> & ->).
    rewrite powerReads_app, powerReads_polls. simpl. rewrite app_nil_r.
    split_and!.
    + rewrite length_replicate. lia.
    + done.
    + exists [EvAdapterProxyNew path (Some msg)]. split; [done|]. right. by exists msg.
    + intros k Hk. apply lookup_replicate in Hk as [Hk _]. by apply negb_neq in Hk.
    + intros [=].
    + split; [intros [=]|].
      intros Heq. apply (f_equal length) in Heq. rewrite length_replicate in Heq. simpl in Heq. lia.
    + intros msg' [=].
Qed.

Lemma truthful_retrieveBluezAdapter (bluez : Service) (path : string) :
  truthful bluez (retrieveBluezAdapter bluez path).
Proof. unfold retrieveBluezAdapter, throwErrorIfAny. by repeat truthful_step. Qed.

Lemma truthful_waitUntilPoweredChange (bluez : Service) (m_name path : string)
    (powered : bool) :
  truthful bluez (waitUntilPoweredChange bluez m_name path powered).
Proof.
  unfold waitUntilPoweredChange. truthful_step; [|by repeat truthful_step].
  induction (Z.to_nat CHANGE_POWER_ATTEMPTS) as [|n IH]; simpl.
  - truthful_step.
  - unfold org_bluez_adapter1_get_powered.
    repeat first [exact IH | apply truthful_retrieveBluezAdapter | truthful_step].
Qed.

(** C4. [waitUntilPoweredChange] makes at most 5 polls of the power state,
    with a 200 ms wait after every poll that missed; a poll that observes
    the requested state is the last one and the call returns (so a match on
    poll k+1 means exactly k+1 polls); and the call throws the
    [TimeoutException] that names the adapter exactly when 5 polls were
    made and all of them missed.  Every proxy and every power state in the
    trace is what the service answered at that moment, and the call ends
    in one of three ways: it returns, it throws the [TimeoutException], or
    it throws the failure of the proxy that the service has just refused,
    which is then the last event. *)
Theorem waitUntilPoweredChange_polls (bluez : Service) (m_name path : string)
    (powered : bool) (h : list Event) :
  let r := (waitUntilPoweredChange bluez m_name path powered h).1 in
  let es := (waitUntilPoweredChange bluez m_name path powered h).2 in
  let reads := powerReads es in
  (length reads ≤ 5)%nat ∧
  totalMilliseconds CHANGE_POWER_DELAY = 200 ∧
  (∃ tail, es = concat (poll_events path powered <$> reads) ++ tail ∧
     (tail = [] ∨
      ∃ msg, tail = [EvAdapterProxyNew path (Some msg)] ∧ r = Throw (IOException msg))) ∧
  (∀ k, reads !! k = Some powered → length reads = S k ∧ r = Ok tt) ∧
  (r = Ok tt → last reads = Some powered) ∧
  (r = Throw (TimeoutException ("failed to change power of interface" +:+ m_name))
   ↔ reads = replicate 5 (negb powered)) ∧
  (∀ msg, r = Throw (TimeoutException msg) →
     msg = "failed to change power of interface" +:+ m_name) ∧
  answers bluez h es ∧
  (r = Ok tt ∨
   (∃ msg, r = Throw (TimeoutException msg)) ∨
   (∃ msg, r = Throw (IOException msg) ∧
           last es = Some (EvAdapterProxyNew path (Some msg)))).
Proof.
  intros r es reads.
  destruct (waitUntilPoweredChange_polls_facts bluez m_name path powered h)
    as (H1 & H2 & H3 & H4 & H5 & H6 & H7).
  split_and!; [exact H1|exact H2|exact H3|exact H4|exact H5|exact H6|exact H7| |].
  - apply truthful_waitUntilPoweredChange.
  - subst r es. unfold waitUntilPoweredChange. rewrite run_bind.
    change (Z.to_nat CHANGE_POWER_ATTEMPTS) with 5%nat.
    destruct (waitUntilPoweredChange_loop_run bluez 5 path powered h)
      as (misses & tail & Hes & Hr).
    destruct (waitUntilPoweredChange_loop bluez 5 path powered h) as [r es].
    simpl in Hes, Hr. subst es.
    destruct r as [[]|x]; simpl.
    + by left.
    + right. left. by eexists.
    + destruct Hr as (_ & msg & -> & ->). right. right. exists msg.
      split; [done|]. by rewrite ?app_nil_r, last_app.
Qed.

(** ** Power control: [up] and [down] *)

Section PowerControl.

Variable bluez : Service.

Lemma run_ScopedLock {A B} (m : Mutex) (scope : M A) (k : A → M B) (h : list Event) :
  bind (ScopedLock m scope) k h =
    match scope (h ++ [EvLock m]) with
    | (Ok a, es) =>
        let '(r, es') := k a (h ++ EvLock m :: es ++ [EvUnlock m]) in
        (r, EvLock m :: es ++ [EvUnlock m] ++ es')
    | (Throw x, es) => (Throw x, EvLock m :: es ++ [EvUnlock m])
    end.
Proof.
  unfold ScopedLock. rewrite run_bind_assoc, run_perform.
  unfold bind, finally, perform.
  destruct (scope (h ++ [EvLock m])) as [[a|x] es]; [|done].
  rewrite <- !(assoc_L (++)). simpl.
  destruct (k a (h ++ EvLock m :: es ++ [EvUnlock m])) as [r es'].
  by rewrite <- !(assoc_L (++)).
Qed.

Lemma ScopedLock_run {A} (m : Mutex) (scope : M A) (h : list Event) :
  ScopedLock m scope h =
    let '(r, es) := scope (h ++ [EvLock m]) in (r, EvLock m :: es ++ [EvUnlock m]).
Proof.
  unfold ScopedLock. rewrite run_perform. unfold finally, perform.
  by destruct (scope (h ++ [EvLock m])) as [r es].
Qed.

Lemma run_startDiscovery {B} (adapter trasport : string) (k : unit → M B)
    (h : list Event) :
  let h1 := h ++ [EvLock DiscoveringMutex] in
  let discovering := sv_discovering bluez h1 adapter in
  let error :=
    sv_set_filter bluez (h1 ++ [EvGetDiscovering adapter false]) adapter trasport in
  let es := startDiscovery_events adapter trasport discovering error in
  bind (startDiscovery bluez adapter trasport) k h =
    match discovering, error with
    | false, Some msg => (Throw (IOException msg), es)
    | _, _ => let '(r, es') := k tt (h ++ es) in (r, es ++ es')
    end.
Proof.
  intros h1 discovering error es. unfold startDiscovery.
  rewrite run_ScopedLock. fold h1.
  unfold org_bluez_adapter1_get_discovering, initDiscoveryFilter.
  rewrite run_observe. fold discovering. subst es.
  unfold startDiscovery_events.
  destruct discovering eqn:Hd; simpl.
  - by destruct error.
  - rewrite run_bind_assoc, run_observe. fold error.
    destruct error as [msg|]; simpl; [done|].
    by destruct (k tt _).
Qed.


Lemma run_logger_debug {B} (msg : string) (k : unit → M B) (h : list Event) :
  ∃ log,
    (log = [] ∨ log = [EvLog Debug msg]) ∧
    bind (logger_debug bluez msg) k h =
      let '(r, es) := k tt (h ++ log) in (r, log ++ es).
Proof.
  unfold logger_debug, when. destruct (sv_debug bluez).
  - exists [EvLog Debug msg]. split; [by right|]. by rewrite run_perform.
  - exists []. split; [by left|]. rewrite run_ret, app_nil_r. by destruct (k tt h).
Qed.

(** The shape of every execution of [up]: the events between the lock and
    the unlock of the status mutex, by the path taken. *)
Lemma up_run (m_name : string) (h : list Event) :
  let adapter := createAdapterPath m_name in
  ∃ log body,
    (log = [] ∨ log = [EvLog Debug ("bringing up " +:+ m_name)]) ∧
    (up bluez m_name h).2 = log ++ [EvLock StatusMutex] ++ body ++ [EvUnlock StatusMutex] ∧
    ((∃ msg,
        (up bluez m_name h).1 = Throw (IOException msg) ∧
        body = [EvAdapterProxyNew adapter (Some msg)])
     ∨
     (∃ discovering error,
        let sd := EvAdapterProxyNew adapter None ::
                  startDiscovery_events adapter "le" discovering error in
        (discovering = false ∧
         ∃ msg, error = Some msg ∧
           (up bluez m_name h).1 = Throw (IOException msg) ∧ body = sd)
        ∨
        ((discovering = true ∨ error = None) ∧
         (((up bluez m_name h).1 = Ok tt ∧ body = sd ++ [EvGetPowered adapter true])
          ∨
          ∃ h' es,
            (up bluez m_name h).1 =
              (waitUntilPoweredChange bluez m_name adapter true h').1 ∧
            es = (waitUntilPoweredChange bluez m_name adapter true h').2 ∧
            body = sd ++ [EvGetPowered adapter false; EvSetPowered adapter true] ++ es)))).
Proof.
  intros adapter. unfold up.
  match goal with
  | |- context [bind (logger_debug bluez ?msg) ?k ?h0] =>
      destruct (run_logger_debug msg k h0) as (log & Hlog & ->)
  end.
  exists log. set (h0 := h ++ log). clearbody h0.
  rewrite ScopedLock_run. cbv zeta. fold adapter.
  rewrite run_retrieveBluezAdapter.
  destruct (sv_adapter_proxy bluez (h0 ++ [EvLock StatusMutex]) adapter) as [msg|].
  { eexists. split; [done|]. split; [reflexivity|]. left. by exists msg. }
  unfold m_adapter. fold adapter. rewrite run_startDiscovery.
  set (h1 := (h0 ++ [EvLock StatusMutex]) ++ [EvAdapterProxyNew adapter None]).
  clearbody h1.
  set (d := sv_discovering bluez (h1 ++ [EvLock DiscoveringMutex]) adapter).
  set (err := sv_set_filter bluez _ adapter "le").
  clearbody d err.
  assert (Hrun : ∀ h2 sd,
    let '(r, es') :=
      (powered <- org_bluez_adapter1_get_powered bluez adapter ;;
       if powered then ret tt
       else
         org_bluez_adapter1_set_powered adapter true ;;
         waitUntilPoweredChange bluez m_name adapter true) h2 in
    (r = Ok tt ∧ sd ++ es' = sd ++ [EvGetPowered adapter true])
    ∨ ∃ h' es,
        r = (waitUntilPoweredChange bluez m_name adapter true h').1 ∧
        es = (waitUntilPoweredChange bluez m_name adapter true h').2 ∧
        sd ++ es' = sd ++ [EvGetPowered adapter false; EvSetPowered adapter true] ++ es).
  { intros h2 sd. unfold org_bluez_adapter1_get_powered, org_bluez_adapter1_set_powered.
    rewrite run_observe.
    destruct (sv_powered bluez h2 adapter); simpl.
    - by left.
    - rewrite run_perform.
      destruct (waitUntilPoweredChange bluez m_name adapter true
                  ((h2 ++ [EvGetPowered adapter false]) ++
                   [EvSetPowered adapter true])) as [r es] eqn:Hw.
      right. eexists. exists es. rewrite Hw. done. }
  destruct d, err as [msg|]; simpl.
  - specialize (Hrun (h1 ++ startDiscovery_events adapter "le" true (Some msg))
                     (EvAdapterProxyNew adapter None ::
                      startDiscovery_events adapter "le" true (Some msg))).
    destruct (bind _ _ _) as [r es']. simpl.
    exists ((EvAdapterProxyNew adapter None ::
             startDiscovery_events adapter "le" true (Some msg)) ++ es').
    split; [done|]. split; [done|].
    right. exists true, (Some msg). right. split; [by left|]. exact Hrun.
  - specialize (Hrun (h1 ++ startDiscovery_events adapter "le" true None)
                     (EvAdapterProxyNew adapter None ::
                      startDiscovery_events adapter "le" true None)).
    destruct (bind _ _ _) as [r es']. simpl.
    exists ((EvAdapterProxyNew adapter None ::
             startDiscovery_events adapter "le" true None) ++ es').
    split; [done|]. split; [done|].
    right. exists true, None. right. split; [by left|]. exact Hrun.
  - exists (EvAdapterProxyNew adapter None ::
            startDiscovery_events adapter "le" false (Some msg)).
    split; [done|]. split; [done|].
    right. exists false, (Some msg). left. split; [done|]. by exists msg.
  - specialize (Hrun (h1 ++ startDiscovery_events adapter "le" false None)
                     (EvAdapterProxyNew adapter None ::
                      startDiscovery_events adapter "le" false None)).
    destruct (bind _ _ _) as [r es']. simpl.
    exists ((EvAdapterProxyNew adapter None ::
             startDiscovery_events adapter "le" false None) ++ es').
    split; [done|]. split; [done|].
    right. exists false, None. right. split; [by right|]. exact Hrun.
Qed.


(** C8. When [up] finds the adapter already powered (the first read of
    the power state in the call, which the call itself makes, says so),
    it returns normally and the call issues no set-power request. *)
Theorem up_powered_is_noop (m_name : string) (h : list Event) :
  head (powerReads (up bluez m_name h).2) = Some true →
  (up bluez m_name h).1 = Ok tt ∧
  EvGetPowered (createAdapterPath m_name) true ∈ (up bluez m_name h).2 ∧
  Forall (λ e, isSetPowered e = false) (up bluez m_name h).2.
Proof.
  destruct (up_run m_name h) as (log & body & Hlog & Hes & Hcases).
  rewrite Hes. clear Hes. intros Hread.
  assert (Hlog' : powerReads log = [] ∧ Forall (λ e, isSetPowered e = false) log).
  { destruct Hlog as [-> | ->]; split; by repeat constructor. }
  destruct Hlog' as [Hlr Hls]. rewrite powerReads_app, Hlr in Hread. simpl in Hread.
  destruct Hcases
    as [(msg & Hr & ->)
       | (d & err & [(-> & msg & -> & Hr & ->)
                    | (Hd & [(Hr & ->) | (h' & es & Hr & Hw & ->)])])].
  - by simpl in Hread.
  - by simpl in Hread.
  - split; [done|]. split.
    + in_list.
    + apply Forall_app. split; [done|].
      destruct d, err; by repeat constructor.
  - exfalso. destruct d, err; simpl in Hread; congruence.
Qed.


Lemma truthful_startDiscovery (adapter trasport : string) :
  truthful bluez (startDiscovery bluez adapter trasport).
Proof.
  unfold startDiscovery, org_bluez_adapter1_get_discovering, initDiscoveryFilter,
    throwErrorIfAny.
  by repeat truthful_step.
Qed.



(** C5. In every execution of [down], whatever its outcome, the broadcast
    on the wait condition is the first thing done under the status lock
    (only the debug log and the lock come before it), and so it comes
    before every read of the power state and before every set-power
    request of that execution. *)
Theorem down_broadcasts_before_power (m_name : string) (h : list Event) :
  let es := (down bluez m_name h).2 in
  (∃ log rest,
     (log = [] ∨ log = [EvLog Debug ("switching down " +:+ m_name)]) ∧
     es = log ++ [EvLock StatusMutex; EvBroadcast] ++ rest) ∧
  EvBroadcast ∈ es ∧
  preceded_by (λ e, e = EvBroadcast) isPowerEvent es.
Proof.
  set (Q := λ x : Event, ¬ isPowerEvent x).
  assert (HQ : ∀ e, isGetPowered e = false → isSetPowered e = false → Q e).
  { intros e H1 H2 [H|H]; congruence. }
  assert (∃ log rest,
            (log = [] ∨ log = [EvLog Debug ("switching down " +:+ m_name)]) ∧
            (down bluez m_name h).2 = log ++ [EvLock StatusMutex; EvBroadcast] ++ rest)
    as (log & rest & Hlog & Hes).
  { unfold down.
    match goal with
    | |- context [bind (logger_debug bluez ?msg) ?k ?h0] =>
        destruct (run_logger_debug msg k h0) as (log & Hlog & ->)
    end.
    exists log. rewrite ScopedLock_run, run_perform.
    match goal with
    | |- context [bind ?c ?k ?h'] => destruct (bind c k h') as [r es]
    end.
    simpl. by eexists. }
  cbv zeta. rewrite Hes. split; [by exists log, rest|].
  assert (Ha : Forall Q (log ++ [EvLock StatusMutex; EvBroadcast])).
  { apply Forall_app. split.
    - destruct Hlog as [-> | ->]; repeat constructor; by apply HQ.
    - repeat constructor; by apply HQ. }
  assert (Hin : EvBroadcast ∈ log ++ [EvLock StatusMutex; EvBroadcast]) by in_list.
  replace (log ++ [EvLock StatusMutex; EvBroadcast] ++ rest)
    with ((log ++ [EvLock StatusMutex; EvBroadcast]) ++ rest)
    by (by rewrite <- (assoc_L (++))).
  split.
  - apply elem_of_app. by left.
  - by eapply preceded_by_prefix.
Qed.

End PowerControl.

(** ** Discovery and connection *)

Ltac emits_step :=
  first
    [ apply emits_ret
    | apply emits_throw
    | apply emits_perform; done
    | apply emits_observe; done
    | apply emits_when
    | apply emits_ScopedLock; [done | done |]
    | apply emits_finally
    | apply emits_try_catch; [| intros ?]
    | apply emits_bind; [| intros ?]
    | match goal with
      | |- emits _ (if ?b then _ else _) => destruct b
      | |- emits _ (match ?x with _ => _ end) => destruct x
      end ].

Section Discovery.

Variable bluez : Service.
Context `{MACAddressCodec}.


(** *** No operation but the destructor requests the end of discovery *)

Lemma noStop_logger_debug (msg : string) : emits noStop (logger_debug bluez msg).
Proof. unfold logger_debug. by repeat emits_step. Qed.

Lemma noStop_throwErrorIfAny (error : option string) :
  emits noStop (throwErrorIfAny error).
Proof. unfold throwErrorIfAny. by repeat emits_step. Qed.

Lemma noStop_retrieveBluezAdapter (path : string) :
  emits noStop (retrieveBluezAdapter bluez path).
Proof.
  unfold retrieveBluezAdapter.
  repeat first [apply noStop_throwErrorIfAny | emits_step].
Qed.

Lemma noStop_retrieveBluezDevice (path : string) :
  emits noStop (retrieveBluezDevice bluez path).
Proof.
  unfold retrieveBluezDevice.
  repeat first [apply noStop_throwErrorIfAny | emits_step].
Qed.

Lemma noStop_startDiscovery (adapter trasport : string) :
  emits noStop (startDiscovery bluez adapter trasport).
Proof.
  unfold startDiscovery, org_bluez_adapter1_get_discovering, initDiscoveryFilter.
  repeat first [apply noStop_throwErrorIfAny | emits_step].
Qed.

Lemma noStop_waitUntilPoweredChange (m_name path : string) (powered : bool) :
  emits noStop (waitUntilPoweredChange bluez m_name path powered).
Proof.
  unfold waitUntilPoweredChange. emits_step; [|by repeat emits_step].
  induction (Z.to_nat CHANGE_POWER_ATTEMPTS) as [|n IH]; simpl.
  - emits_step.
  - unfold org_bluez_adapter1_get_powered.
    repeat first [apply noStop_retrieveBluezAdapter | exact IH | emits_step].
Qed.

Lemma noStop_up (m_name : string) : emits noStop (up bluez m_name).
Proof.
  unfold up, org_bluez_adapter1_get_powered, org_bluez_adapter1_set_powered.
  repeat first [ apply noStop_logger_debug | apply noStop_retrieveBluezAdapter
               | apply noStop_startDiscovery | apply noStop_waitUntilPoweredChange
               | emits_step ].
Qed.

Lemma noStop_down (m_name : string) : emits noStop (down bluez m_name).
Proof.
  unfold down, org_bluez_adapter1_get_powered, org_bluez_adapter1_set_powered.
  repeat first [ apply noStop_logger_debug | apply noStop_retrieveBluezAdapter
               | apply noStop_waitUntilPoweredChange
               | emits_step ].
Qed.

Lemma noStop_connect (m_name : string) (address : N) (timeout : Timespan) :
  emits noStop (connect bluez m_name address timeout).
Proof.
  unfold connect, org_bluez_device1_get_connected.
  repeat first [ apply noStop_logger_debug | apply noStop_retrieveBluezDevice
               | apply noStop_throwErrorIfAny | emits_step ].
Qed.

Lemma noStop_processKnownDevices_loop (paths : list string) (devices : gmap N string) :
  emits noStop (processKnownDevices_loop bluez paths devices).
Proof.
  revert devices. induction paths as [|path paths IH]; intros devices; simpl.
  - emits_step.
  - unfold BEEEON_CATCH_CHAIN_ACTION, org_bluez_device1_get_address,
      org_bluez_device1_get_name.
    repeat first [ apply noStop_retrieveBluezDevice | apply IH | emits_step ].
Qed.

Lemma noStop_onDBusObjectAdded (objectManager : GDBusObjectManager)
    (object : GDBusObject) (userData : gmap N string) :
  emits noStop (onDBusObjectAdded bluez objectManager object userData).
Proof.
  unfold onDBusObjectAdded, BEEEON_CATCH_CHAIN_ACTION,
    org_bluez_device1_get_address, org_bluez_device1_get_name.
  repeat first [ apply noStop_retrieveBluezDevice | emits_step ].
Qed.

Lemma noStop_dispatchObjectAdded (objectManager : GDBusObjectManager)
    (added : list GDBusObject) (userData : gmap N string) :
  emits noStop (dispatchObjectAdded bluez objectManager added userData).
Proof.
  revert objectManager userData.
  induction added as [|object added IH]; intros objectManager userData; simpl.
  - emits_step.
  - repeat first [ apply noStop_onDBusObjectAdded | apply IH | emits_step ].
Qed.

Lemma noStop_lescan_loop (m_name : string) (allDevices : list (N * string))
    (foundDevices : gmap N string) :
  emits noStop (lescan_loop bluez m_name allDevices foundDevices).
Proof.
  revert foundDevices.
  induction allDevices as [|one rest IH]; intros foundDevices; simpl.
  - emits_step.
  - unfold org_bluez_device1_get_rssi.
    repeat first [ apply noStop_retrieveBluezDevice | apply noStop_logger_debug
                 | apply IH | emits_step ].
Qed.

Lemma noStop_lescan (m_name : string) (timeout : Timespan) :
  emits noStop (lescan bluez m_name timeout).
Proof.
  unfold lescan, lescan_accumulate, lescan_filter,
    logger_information, createBluezObjectManager, processKnownDevices,
    m_waitCondition_tryWait.
  repeat first [ apply noStop_throwErrorIfAny | apply noStop_processKnownDevices_loop
               | apply noStop_startDiscovery | apply noStop_dispatchObjectAdded
               | apply noStop_lescan_loop | emits_step ].
Qed.

(** C6. No execution of [lescan] requests the end of discovery, whatever
    its outcome, and neither does any execution of [up] or of [connect];
    the destructor requests it, exactly when the service reports that
    discovery is running. *)
Theorem lescan_never_stops_discovery (m_name : string) (timeout : Timespan)
    (h : list Event) :
  Forall (λ e, isStopDiscovery e = false) (lescan bluez m_name timeout h).2 ∧
  Forall (λ e, isStopDiscovery e = false) (up bluez m_name h).2 ∧
  (∀ address t,
     Forall (λ e, isStopDiscovery e = false) (connect bluez m_name address t h).2) ∧
  (EvStopDiscovery (m_adapter m_name) ∈ (DBusHciInterface_delete bluez m_name h).2 ↔
   sv_discovering bluez (h ++ [EvLock DiscoveringMutex]) (m_adapter m_name) = true).
Proof.
  split_and!.
  - apply noStop_lescan.
  - apply noStop_up.
  - intros address t. apply noStop_connect.
  - unfold DBusHciInterface_delete, stopDiscovery, org_bluez_adapter1_get_discovering.
    rewrite run_ScopedLock, run_observe.
    destruct (sv_discovering bluez (h ++ [EvLock DiscoveringMutex]) (m_adapter m_name));
      simpl; rewrite run_observe;
      match goal with
      | |- context [sv_loop_running bluez ?h0] => destruct (sv_loop_running bluez h0)
      end; simpl; unfold try_catch, bind, observe, perform, throw, ret; simpl;
      match goal with
      | |- context [sv_join bluez ?h0] => destruct (sv_join bluez h0)
      end; simpl;
      repeat (rewrite elem_of_cons || rewrite elem_of_nil); intuition congruence.
Qed.

End Discovery.

(** ** The filtering pass of [lescan] *)


Lemma emplace_lookup_same {V} (k : N) (v : V) (m : gmap N V) :
  m !! k = None → emplace k v m !! k = Some v.
Proof. intros Hk. unfold emplace. rewrite Hk. apply lookup_insert_eq. Qed.

Lemma emplace_lookup_ne {V} (k k' : N) (v : V) (m : gmap N V) :
  k ≠ k' → emplace k v m !! k' = m !! k'.
Proof.
  intros Hne. unfold emplace. destruct (m !! k); [done|]. by apply lookup_insert_ne.
Qed.

Lemma emplace_lookup_keep {V} (k k' : N) (v v' : V) (m : gmap N V) :
  m !! k' = Some v' → emplace k v m !! k' = Some v'.
Proof.
  intros Hk'. unfold emplace. destruct (m !! k) eqn:Hk; [done|].
  rewrite lookup_insert_ne; [done|]. intros ->. congruence.
Qed.



Section Filtering.

Variable bluez : Service.
Context `{MACAddressCodec}.



End Filtering.

(** ** The seeding pass of [lescan] *)

(** A path under the path of the adapter contains ["/" + m_name]. *)
Lemma prefix_append_inv (p s : string) :
  String.prefix p s = true → ∃ r, s = p +:+ r.
Proof.
  revert s. induction p as [|c p IH]; intros s Hp.
  - by exists s.
  - destruct s as [|c' s]; [done|]. simpl in Hp.
    destruct (ascii_dec c c') as [->|]; [|done].
    destruct (IH s Hp) as [r ->]. by exists r.
Qed.

Lemma substring_append_skip (a s : string) (m : nat) :
  String.substring (String.length a) m (a +:+ s) = String.substring 0 m s.
Proof. induction a as [|c a IH]; [done|]. simpl. exact IH. Qed.

Lemma substring_append_prefix (a r : string) :
  String.substring 0 (String.length a) (a +:+ r) = a.
Proof.
  induction a as [|c a IH]; simpl.
  - by destruct r.
  - by rewrite IH.
Qed.

Lemma string_append_assoc (a b c : string) : (a +:+ b) +:+ c = a +:+ b +:+ c.
Proof.
  induction a as [|x a IH]; [done|].
  change (String x ((a +:+ b) +:+ c) = String x (a +:+ b +:+ c)). by f_equal.
Qed.

Lemma under_adapter_path_contains (m_name path : string) :
  spec_under_adapter_path m_name path = true →
  string_find path ("/" +:+ m_name) ≠ None.
Proof.
  unfold spec_under_adapter_path, string_find. intros Hp Hnone.
  apply prefix_append_inv in Hp as [r ->].
  apply (String.index_correct3 0 10) in Hnone; [|done|lia].
  apply Hnone. simpl.
  change (String "/" (String.substring 0 (String.length m_name) ((m_name +:+ "/") +:+ r))
          = String "/" m_name).
  f_equal. rewrite string_append_assoc. apply substring_append_prefix.
Qed.

Section Seeding.

Variable bluez : Service.
Context `{MACAddressCodec}.

Lemma run_catch_retrieveBluezDevice {B} (path : string)
    (k : option string → M B) (h : list Event) :
  bind (BEEEON_CATCH_CHAIN_ACTION
          (device <- retrieveBluezDevice bluez path ;; ret (Some device))
          (ret None)) k h =
    match sv_device_proxy bluez h path with
    | Some msg =>
        let pre := [EvDeviceProxyNew path (Some msg); EvLogException (IOException msg)] in
        let '(r, es) := k None (h ++ pre) in (r, pre ++ es)
    | None =>
        let pre := [EvDeviceProxyNew path None] in
        let '(r, es) := k (Some path) (h ++ pre) in (r, pre ++ es)
    end.
Proof.
  unfold BEEEON_CATCH_CHAIN_ACTION, bind at 1, try_catch.
  rewrite run_retrieveBluezDevice.
  destruct (sv_device_proxy bluez h path) as [msg|]; simpl.
  - done.
  - by destruct (k (Some path) _).
Qed.

(** The expression of lines 244 and 307 under a continuation. *)
Lemma run_device_address {B} (device : string) (k : N → M B) (h : list Event) :
  bind (device_address bluez device) k h =
    match address_of (sv_address bluez h device) with
    | Some mac =>
        let '(r, es) := k mac (h ++ [EvGetAddress device (sv_address bluez h device)]) in
        (r, EvGetAddress device (sv_address bluez h device) :: es)
    | None =>
        (Throw (AddressException (sv_address bluez h device)),
         [EvGetAddress device (sv_address bluez h device)])
    end.
Proof.
  unfold device_address, org_bluez_device1_get_address, address_of.
  rewrite run_bind_assoc, run_observe.
  destruct (sv_address bluez h device) as [text|]; simpl; [|done].
  destruct (MACAddress_parse text ":") as [mac|]; simpl; [|done].
  by rewrite run_ret.
Qed.

Lemma addressReads_app (a b : list Event) :
  addressReads (a ++ b) = addressReads a ++ addressReads b.
Proof.
  induction a as [|e a IH]; [done|]. destruct e; simpl; by rewrite ?IH.
Qed.

(** The two ways the loop of the seeding pass ends: it returns, with all
    the addresses it read accepted, or it throws at the first address that
    is null or rejected. *)
Lemma processKnownDevices_loop_run (paths : list string) :
  ∀ (devices : gmap N string) (h : list Event),
    let r := (processKnownDevices_loop bluez paths devices h).1 in
    let es := (processKnownDevices_loop bluez paths devices h).2 in
    (r = Ok (foldl record_device devices (deviceReads es)) ∧
     (lookups es).*1 = paths ∧
     (deviceReads es).*1.*1 = (filter (λ l, l.2 = None) (lookups es)).*1 ∧
     Forall (λ a, is_Some (address_of a)) (addressReads es))
    ∨
    (∃ path address,
       r = Throw (AddressException address) ∧
       address_of address = None ∧
       last es = Some (EvGetAddress path address) ∧
       last (addressReads es) = Some address ∧
       (lookups es).*1 `prefix_of` paths ∧
       last (lookups es) = Some (path, None)).
Proof.
  induction paths as [|path paths IH]; intros devices h.
  { left. by repeat split. }
  cbv zeta.
  destruct (processKnownDevices_loop bluez (path :: paths) devices h) as [r0 es0] eqn:Hrun.
  cbn [fst snd]. simpl in Hrun. rewrite run_catch_retrieveBluezDevice in Hrun.
  destruct (sv_device_proxy bluez h path) as [msg|]; cbv zeta in Hrun.
  - specialize (IH devices
      (h ++ [EvDeviceProxyNew path (Some msg); EvLogException (IOException msg)])).
    destruct (processKnownDevices_loop bluez paths devices _) as [r es].
    injection Hrun as <- <-. cbn [fst snd] in IH. simpl.
    destruct IH as [(Hr & Hl & Hd & Ha) | (p & a & Hr & Ha & Hlast & Hal & Hl & Hll)].
    + left. split_and!; [done|by f_equal| |done].
      rewrite ?filter_cons_False by (simpl; congruence). done.
    + right. exists p, a. split_and!; [done|done| |done| |].
      * rewrite !last_cons, Hlast. done.
      * by apply prefix_cons.
      * by rewrite last_cons, Hll.
  - rewrite run_device_address in Hrun.
    destruct (address_of (sv_address bluez _ path)) as [mac|] eqn:Hmac.
    + unfold org_bluez_device1_get_name in Hrun. rewrite run_observe in Hrun.
      match type of Hrun with
      | context [processKnownDevices_loop bluez paths ?d ?h0] =>
          specialize (IH d h0);
          destruct (processKnownDevices_loop bluez paths d h0) as [r es]
      end.
      injection Hrun as <- <-. cbn [fst snd] in IH.
      unfold address_of in Hmac.
      destruct (sv_address bluez _ path) as [text|] eqn:Haddr; [|done].
      simpl in Hmac. simpl.
      destruct IH as [(Hr & Hl & Hd & Ha) | (p & a & Hr & Ha & Hlast & Hal & Hl & Hll)].
      * left. split_and!.
        -- rewrite Hr. do 2 f_equal. unfold record_device. simpl. by rewrite Hmac.
        -- by f_equal.
        -- rewrite ?filter_cons_True by done. simpl. by f_equal.
        -- constructor; [|done]. unfold address_of. simpl. by rewrite Hmac.
      * right. exists p, a. split_and!; [done|done| | | |].
        -- rewrite !last_cons, Hlast. done.
        -- by rewrite last_cons, Hal.
        -- by apply prefix_cons.
        -- by rewrite last_cons, Hll.
    + injection Hrun as <- <-. right.
      exists path, (sv_address bluez (h ++ [EvDeviceProxyNew path None]) path).
      split_and!; [done|done|done|done| |done].
      simpl. apply prefix_cons, prefix_nil.
Qed.

Lemma retrievePathsOfBluezObjects_loop_spec (objectManager l : GDBusObjectManager)
    (pathFilter : PathFilter) (objectFilter path : string) :
  path ∈ retrievePathsOfBluezObjects_loop objectManager pathFilter objectFilter l ↔
  (∃ o, o ∈ l ∧ object_path o = path) ∧
  pathFilter path = false ∧
  g_dbus_object_manager_get_interface objectManager path objectFilter = true.
Proof.
  induction l as [|o l IH]; simpl.
  - split; [by intros ?%elem_of_nil|]. intros [(o & Ho & _) _]. by apply elem_of_nil in Ho.
  - destruct (pathFilter (object_path o)) eqn:Hf;
      [|destruct (g_dbus_object_manager_get_interface objectManager (object_path o)
                    objectFilter) eqn:Hi; simpl].
    + rewrite IH. split.
      * intros [(o' & Ho' & Hp) Hrest]. split; [|done]. exists o'. split; [by right|done].
      * intros [(o' & Ho' & Hp) [Hpf Hrest]]. split; [|done].
        apply elem_of_cons in Ho' as [->|Ho']; [congruence|]. by exists o'.
    + rewrite elem_of_cons, IH. split.
      * intros [->|[(o' & Ho' & Hp) Hrest]].
        -- split; [|done]. exists o. split; [by left|done].
        -- split; [|done]. exists o'. split; [by right|done].
      * intros [(o' & Ho' & Hp) [Hpf Hrest]].
        apply elem_of_cons in Ho' as [->|Ho']; [by left|].
        right. split; [|done]. by exists o'.
    + rewrite IH. split.
      * intros [(o' & Ho' & Hp) Hrest]. split; [|done]. exists o'. split; [by right|done].
      * intros [(o' & Ho' & Hp) [Hpf Hrest]]. split; [|done].
        apply elem_of_cons in Ho' as [->|Ho']; [congruence|]. by exists o'.
Qed.

Lemma foldl_record_device_is_Some (reads : list (string * string * option string))
    (devices : gmap N string) (a : N) :
  is_Some (foldl record_device devices reads !! a) ↔
  is_Some (devices !! a) ∨
  ∃ read, read ∈ reads ∧ MACAddress_parse read.1.2 ":" = Some a.
Proof.
  revert devices. induction reads as [|read reads IH]; intros devices; simpl.
  - split; [by left|]. intros [?|(read & Hin & _)]; [done|]. by apply elem_of_nil in Hin.
  - rewrite IH. unfold record_device at 1.
    set (name := default "unknown" read.2).
    destruct (MACAddress_parse read.1.2 ":") as [mac|] eqn:Hmac.
    + split.
      * intros [Hd|(read' & Hin & Ha)].
        -- destruct (decide (mac = a)) as [<-|Hne].
           ++ right. exists read. split; [by left|done].
           ++ left. by rewrite emplace_lookup_ne in Hd.
        -- right. exists read'. split; [by right|done].
      * intros [[n Hn]|(read' & Hin & Ha)].
        -- left. exists n. by apply emplace_lookup_keep.
        -- apply elem_of_cons in Hin as [->|Hin].
           ++ left. rewrite Hmac in Ha. injection Ha as ->.
              destruct (devices !! a) as [n|] eqn:Hm.
              ** exists n. by apply emplace_lookup_keep.
              ** exists name. by apply emplace_lookup_same.
           ++ right. by exists read'.
    + split.
      * intros [Hd|(read' & Hin & Ha)]; [by left|].
        right. exists read'. split; [by right|done].
      * intros [Hd|(read' & Hin & Ha)]; [by left|].
        apply elem_of_cons in Hin as [->|Hin]; [congruence|].
        right. by exists read'.
Qed.

Lemma truthful_retrieveBluezDevice (path : string) :
  truthful bluez (retrieveBluezDevice bluez path).
Proof. unfold retrieveBluezDevice, throwErrorIfAny. by repeat truthful_step. Qed.

Lemma truthful_device_address (device : string) :
  truthful bluez (device_address bluez device).
Proof.
  unfold device_address, org_bluez_device1_get_address. by repeat truthful_step.
Qed.

Lemma truthful_processKnownDevices_loop (paths : list string) (devices : gmap N string) :
  truthful bluez (processKnownDevices_loop bluez paths devices).
Proof.
  revert devices. induction paths as [|path paths IH]; intros devices; simpl.
  - truthful_step.
  - unfold BEEEON_CATCH_CHAIN_ACTION, org_bluez_device1_get_name.
    repeat first [ apply truthful_retrieveBluezDevice | apply truthful_device_address
                 | apply IH | truthful_step ].
Qed.

(** C7 (amended). The seeding pass looks up, in the order of the
    registry, the enumerated objects whose path contains ["/" + m_name]
    anywhere (as every path under the path of the adapter does) and that
    expose the device interface, and reads the address of each one whose
    lookup succeeded.  When an address is null or is rejected by the
    parser, the pass throws there, outside any [try], having looked up
    only the objects up to that one.  Otherwise it has looked up exactly
    those objects and read the address and the name of exactly those whose
    lookup succeeded, and it returns the given map with each of them
    recorded by [emplace] (an address that is already there keeps its
    name); so an address is in the result if and only if it was there
    before or is the address of such an object.  Every answer in the trace
    is what the service gave. *)
Theorem processKnownDevices_selects_by_substring (m_name : string)
    (objectManager : GDBusObjectManager) (devices : gmap N string)
    (h : list Event) :
  let selected :=
    retrievePathsOfBluezObjects objectManager (pathFilter m_name) "org.bluez.Device1" in
  let r := (processKnownDevices bluez m_name objectManager devices h).1 in
  let es := (processKnownDevices bluez m_name objectManager devices h).2 in
  (∀ path,
     path ∈ selected ↔
     (∃ o, o ∈ objectManager ∧ object_path o = path) ∧
     string_find path ("/" +:+ m_name) ≠ None ∧
     g_dbus_object_manager_get_interface objectManager path "org.bluez.Device1" = true) ∧
  (∀ path, spec_under_adapter_path m_name path = true →
           string_find path ("/" +:+ m_name) ≠ None) ∧
  answers bluez h es ∧
  ((r = Ok (foldl record_device devices (deviceReads es)) ∧
    (lookups es).*1 = selected ∧
    (deviceReads es).*1.*1 = (filter (λ l, l.2 = None) (lookups es)).*1 ∧
    Forall (λ a, is_Some (address_of a)) (addressReads es))
   ∨
   (∃ path address,
      r = Throw (AddressException address) ∧
      address_of address = None ∧
      last es = Some (EvGetAddress path address) ∧
      last (addressReads es) = Some address ∧
      (lookups es).*1 `prefix_of` selected ∧
      last (lookups es) = Some (path, None))) ∧
  (∀ a, is_Some (foldl record_device devices (deviceReads es) !! a) ↔
        is_Some (devices !! a) ∨
        ∃ read, read ∈ deviceReads es ∧ MACAddress_parse read.1.2 ":" = Some a).
Proof.
  intros selected r es. split_and!.
  - intros path. unfold selected, retrievePathsOfBluezObjects.
    rewrite retrievePathsOfBluezObjects_loop_spec. unfold pathFilter.
    destruct (string_find path ("/" +:+ m_name)); intuition congruence.
  - apply under_adapter_path_contains.
  - apply truthful_processKnownDevices_loop.
  - apply (processKnownDevices_loop_run selected devices h).
  - intros a. apply foldl_record_device_is_Some.
Qed.

End Seeding.

(** ** The scenarios of the specification *)

Example hex_codec_roundtrip :
  MACAddress_parse "AA:BB:CC:DD:EE:01" ":" = Some 187723572702721%N ∧
  MACAddress_parse "AA:BB:CC" ":" = None ∧
  MACAddress_toString 187723572702721%N "_" = "AA_BB_CC_DD_EE_01"%string.
Proof. by vm_compute. Qed.

(** The scenario of the spec: power is reported after the third poll. *)
Example up_third_poll :
  (up slow_service "hci0" []).1 = Ok tt ∧
  powerReads (up slow_service "hci0" []).2 = [false; false; false; true].
Proof. by vm_compute. Qed.

Example up_timeout :
  (up dead_service "hci0" []).1
    = Throw (TimeoutException "failed to change power of interfacehci0") ∧
  powerReads (up dead_service "hci0" []).2 = [false; false; false; false; false; false].
Proof. by vm_compute. Qed.

(** [up] fails before the start-discovery step when the adapter proxy
    cannot be made. *)
Example up_without_adapter :
  up broken_service "hci0" []
    = (Throw (IOException "no such adapter"),
       [EvLock StatusMutex; EvAdapterProxyNew "/org/bluez/hci0" (Some "no such adapter"%string);
        EvUnlock StatusMutex]).
Proof. by vm_compute. Qed.

(** The scenario of the spec: A (signal strength not 0) and B (0). *)
Example lescan_two_devices :
  (lescan two_devices_service "hci0" two_seconds []).1
    = Ok {[ 187723572702721%N := "A"%string ]}.
Proof. by vm_compute. Qed.

(** A known device whose address property is unset: the seeding pass
    throws at the read of the address, and so does [lescan]; nothing is
    logged and the scan does not start. *)
Example lescan_null_address :
  lescan null_address_service "hci0" two_seconds [] =
    (Throw (AddressException None),
     [EvLog Information "starting BLE scan for 2 seconds";
      EvObjectManagerNew None;
      EvDeviceProxyNew "/org/bluez/hci0/dev_AA_BB_CC_DD_EE_01" None;
      EvGetAddress "/org/bluez/hci0/dev_AA_BB_CC_DD_EE_01" None]).
Proof. by vm_compute. Qed.

(** ** Lookup failures during a scan *)

Section LookupFailures.

Variable bluez : Service.
Context `{MACAddressCodec}.

(** The seeding pass goes on whatever lookups fail, and logs each
    failure: it never throws the failure of a lookup. *)
Lemma processKnownDevices_catches_lookup_failures (m_name : string)
    (objectManager : GDBusObjectManager) (devices : gmap N string) (h : list Event) :
  (∀ msg, (processKnownDevices bluez m_name objectManager devices h).1
          ≠ Throw (IOException msg)) ∧
  failuresLogged (processKnownDevices bluez m_name objectManager devices h).2 = true.
Proof.
  unfold processKnownDevices.
  generalize (retrievePathsOfBluezObjects objectManager (pathFilter m_name)
                "org.bluez.Device1") as paths.
  intros paths. split.
  - intros msg Hr.
    destruct (processKnownDevices_loop_run bluez paths devices h)
      as [(Hok & _) | (p & a & Hthrow & _)]; congruence.
  - revert devices h. induction paths as [|path paths IH]; intros devices h; [done|].
    simpl. rewrite run_catch_retrieveBluezDevice.
    destruct (sv_device_proxy bluez h path) as [msg|]; cbv zeta.
    + specialize (IH devices
        (h ++ [EvDeviceProxyNew path (Some msg); EvLogException (IOException msg)])).
      destruct (processKnownDevices_loop bluez paths devices _) as [r es].
      simpl in *. rewrite IH. by rewrite bool_decide_eq_true_2.
    + rewrite run_device_address.
      destruct (address_of (sv_address bluez _ path)); [|done].
      unfold org_bluez_device1_get_name. rewrite run_observe.
      match goal with
      | |- context [processKnownDevices_loop bluez paths ?d ?h0] =>
          specialize (IH d h0);
          destruct (processKnownDevices_loop bluez paths d h0) as [r es]
      end.
      done.
Qed.

Lemma onDBusObjectAdded_catches_lookup_failures (objectManager : GDBusObjectManager)
    (object : GDBusObject) (userData : gmap N string) (h : list Event) :
  (∀ msg, (onDBusObjectAdded bluez objectManager object userData h).1
          ≠ Throw (IOException msg)) ∧
  failuresLogged (onDBusObjectAdded bluez objectManager object userData h).2 = true.
Proof.
  unfold onDBusObjectAdded.
  destruct (negb (g_dbus_object_manager_get_interface objectManager
                    (object_path object) "org.bluez.Device1")).
  { split; [done | done]. }
  rewrite run_catch_retrieveBluezDevice.
  destruct (sv_device_proxy bluez h (object_path object)) as [msg|]; cbv zeta.
  - simpl. split; [done|]. by rewrite bool_decide_eq_true_2.
  - rewrite run_device_address.
    destruct (address_of (sv_address bluez _ (object_path object))); [|done].
    unfold org_bluez_device1_get_name. rewrite run_observe. simpl. done.
Qed.

Lemma failuresLogged_app (a b : list Event) :
  failuresLogged a = true → failuresLogged b = true → failuresLogged (a ++ b) = true.
Proof.
  remember (length a) as n eqn:Hn. revert a Hn b.
  induction n as [n IH] using lt_wf_ind. intros a Hn b Ha Hb.
  destruct a as [|e a]; [done|]. simpl in Hn.
  destruct e; simpl in *; try (by apply (IH (length a)); [lia|..]).
  destruct error as [msg|]; [|by apply (IH (length a)); [lia|..]].
  destruct a as [|e' a]; [done|].
  destruct e'; try done. destruct e; try done.
  apply andb_true_iff in Ha as [Hm Ha]. simpl. rewrite Hm. simpl in *.
  by apply (IH (length a)); [lia|..].
Qed.

(** The handling of the notifications goes on whatever lookups fail. *)
Lemma dispatchObjectAdded_catches_lookup_failures (added : list GDBusObject) :
  ∀ (objectManager : GDBusObjectManager) (userData : gmap N string) (h : list Event),
    (∀ msg, (dispatchObjectAdded bluez objectManager added userData h).1
            ≠ Throw (IOException msg)) ∧
    failuresLogged (dispatchObjectAdded bluez objectManager added userData h).2 = true.
Proof.
  induction added as [|object added IH]; intros objectManager userData h.
  { split; [done | done]. }
  simpl. rewrite run_perform, run_bind.
  destruct (onDBusObjectAdded_catches_lookup_failures (object :: objectManager)
              object userData (h ++ [EvObjectAdded (object_path object)]))
    as [Hr Hl].
  unfold try_catch.
  destruct (onDBusObjectAdded bluez (object :: objectManager) object userData _)
    as [[userData'|x] e1]; simpl in Hr, Hl.
  - destruct (IH (object :: objectManager) userData'
                ((h ++ [EvObjectAdded (object_path object)]) ++ e1))
      as [Hr' Hl'].
    destruct (dispatchObjectAdded bluez (object :: objectManager) added userData' _)
      as [r e2]. simpl in *. split; [done|].
    by apply failuresLogged_app.
  - simpl. split; [done|]. by rewrite app_nil_r.
Qed.

End LookupFailures.

(** C1 (the code does not do this).  A device is known when the scan
    starts and its object is gone when the wait is over: the seeding pass
    has recorded it, the lookup of its proxy in the filtering pass fails,
    and [lescan] throws that failure to its caller; nothing logs it. *)
Theorem lescan_throws_late_lookup_failure :
  (lescan_accumulate vanishing_service "hci0" two_seconds []).1
    = Ok {[ 187723572702721%N := "sensor"%string ]} ∧
  (lescan vanishing_service "hci0" two_seconds []).1
    = Throw (IOException "object vanished") ∧
  last (lescan vanishing_service "hci0" two_seconds []).2
    = Some (EvDeviceProxyNew "/org/bluez/hci0/dev_AA_BB_CC_DD_EE_01"
              (Some "object vanished"%string)) ∧
  failuresLogged (lescan vanishing_service "hci0" two_seconds []).2 = false.
Proof. by vm_compute. Qed.

(** C7 (as stated, refuted). The registry holds a device of the adapter
    hci10; its path is not under the path of hci1, and the seeding pass of
    hci1 records it. *)
Lemma processKnownDevices_records_other_adapter :
  let objectManager := (sv_object_manager neighbour_service []).2 in
  let path := "/org/bluez/hci10/dev_AA_BB_CC_DD_EE_01"%string in
  (∃ o, o ∈ objectManager ∧ object_path o = path ∧
        "org.bluez.Device1"%string ∈ object_interfaces o) ∧
  path = createDevicePath "hci10" 187723572702721%N ∧
  spec_under_adapter_path "hci1" path = false ∧
  (processKnownDevices neighbour_service "hci1" objectManager ∅ []).1
    = Ok {[ 187723572702721%N := "sensor"%string ]}.
Proof.
  split; [|by vm_compute].
  eexists. split; [by left|]. split; [done|]. by left.
Qed.

(** ** The registry of controllers *)

Section Registry.

Variable bluez : Service.

Lemma lookup_run (name : string) (mem : Memory) (h : list Event) :
  lookup bluez name mem h =
    match m_interfaces mem !! name with
    | Some it => (Ok (it, mem), [])
    | None =>
        match sv_adapter_proxy bluez h (createAdapterPath name) with
        | Some msg =>
            (Throw (IOException msg),
             [EvAdapterProxyNew (createAdapterPath name) (Some msg)])
        | None =>
            (Ok (length (heap mem),
                 {| heap := heap mem ++ [name];
                    m_interfaces := <[name := length (heap mem)]> (m_interfaces mem) |}),
             [EvAdapterProxyNew (createAdapterPath name) None; EvThreadStart])
        end
    end.
Proof.
  unfold lookup. destruct (m_interfaces mem !! name) as [it|] eqn:Hit; [done|].
  unfold new_DBusHciInterface, DBusHciInterface_new.
  rewrite !run_bind_assoc, run_retrieveBluezAdapter.
  destruct (sv_adapter_proxy bluez h (createAdapterPath name)) as [msg|]; [done|].
  simpl. unfold emplace. simpl. by rewrite Hit.
Qed.

(** A thread that runs alone does what [lookup] does. *)
Lemma run_thread_lookup (name : string) (mem : Memory) (h : list Event) :
  run_thread bluez 3 name PcFind {| memory := mem; history := h |} =
    match lookup bluez name mem h with
    | (Ok (it, mem'), es) =>
        (PcReturned (Ok it), {| memory := mem'; history := h ++ es |})
    | (Throw e, es) =>
        (PcReturned (Throw e), {| memory := mem; history := h ++ es |})
    end.
Proof.
  rewrite lookup_run. simpl.
  destruct (m_interfaces mem !! name) as [it|] eqn:Hit; simpl.
  - by rewrite app_nil_r.
  - unfold new_DBusHciInterface, DBusHciInterface_new.
    rewrite !run_bind_assoc, run_retrieveBluezAdapter.
    destruct (sv_adapter_proxy bluez h (createAdapterPath name)) as [msg|]; [done|].
    simpl. unfold emplace. simpl. by rewrite Hit.
Qed.

Lemma registry_wf_empty : registry_wf empty_memory.
Proof.
  intros name p. simpl. rewrite lookup_empty, lookup_nil. done.
Qed.

Lemma registry_wf_new (name : string) (mem : Memory) :
  registry_wf mem → m_interfaces mem !! name = None →
  registry_wf {| heap := heap mem ++ [name];
                 m_interfaces := <[name := length (heap mem)]> (m_interfaces mem) |}.
Proof.
  intros Hwf Hnone n p. unfold registry_wf in Hwf. simpl.
  destruct (decide (n = name)) as [->|Hne].
  - rewrite lookup_insert_eq. split.
    + intros [= <-]. rewrite lookup_app_r by lia. by rewrite Nat.sub_diag.
    + intros Hp. destruct (decide (p < length (heap mem))%nat) as [Hlt|Hge].
      * rewrite lookup_app_l in Hp by done. apply Hwf in Hp. congruence.
      * apply lookup_lt_Some in Hp as Hlen. rewrite length_app in Hlen. simpl in Hlen.
        f_equal. lia.
  - rewrite lookup_insert_ne by done. rewrite (Hwf n p). split.
    + intros Hp. rewrite lookup_app_l; [done|]. by eapply lookup_lt_Some.
    + intros Hp. destruct (decide (p < length (heap mem))%nat) as [Hlt|Hge].
      * by rewrite lookup_app_l in Hp.
      * rewrite lookup_app_r in Hp by lia.
        destruct (p - length (heap mem))%nat; simpl in Hp; [congruence|].
        by rewrite lookup_nil in Hp.
Qed.

(** C2 (amended). On a registry that agrees with the heap, a call of
    [lookup] that runs alone returns the cached controller of the name
    and constructs nothing when there is one; otherwise it runs the
    constructor once and, when that succeeds, caches the new controller
    and returns it, and when that throws, it throws the error and caches
    nothing.  After a return the registry still agrees with the heap, the
    returned pointer is the only controller of that name, and the next
    [lookup] of the name returns the same pointer and constructs
    nothing. *)
Theorem lookup_sequential (name : string) (mem : Memory) (h : list Event) :
  registry_wf mem →
  match lookup bluez name mem h with
  | (Ok (it, mem'), es) =>
      registry_wf mem' ∧
      m_interfaces mem' !! name = Some it ∧
      heap mem' !! it = Some name ∧
      (∀ p, heap mem' !! p = Some name → p = it) ∧
      match m_interfaces mem !! name with
      | Some cached => it = cached ∧ mem' = mem ∧ es = []
      | None =>
          heap mem' = heap mem ++ [name] ∧
          es = [EvAdapterProxyNew (createAdapterPath name) None; EvThreadStart]
      end ∧
      lookup bluez name mem' (h ++ es) = (Ok (it, mem'), [])
  | (Throw e, es) =>
      m_interfaces mem !! name = None ∧
      ∃ msg, e = IOException msg ∧
             es = [EvAdapterProxyNew (createAdapterPath name) (Some msg)]
  end.
Proof.
  intros Hwf. rewrite lookup_run.
  destruct (m_interfaces mem !! name) as [it|] eqn:Hit.
  - split_and!; try done.
    + by apply Hwf.
    + intros p Hp. apply Hwf in Hp. congruence.
    + by rewrite lookup_run, Hit.
  - destruct (sv_adapter_proxy bluez h (createAdapterPath name)) as [msg|].
    { split; [done|]. by exists msg. }
    pose proof (registry_wf_new name mem Hwf Hit) as Hwf'.
    assert (Hnew : <[name := length (heap mem)]> (m_interfaces mem) !! name
                   = Some (length (heap mem))) by apply lookup_insert_eq.
    split_and!; try done.
    + by apply Hwf'.
    + intros p Hp. apply Hwf' in Hp. simpl in Hp. congruence.
    + rewrite lookup_run. simpl. by rewrite Hnew.
Qed.

End Registry.

(** C2 (as stated, refuted). Two threads look up the same name; each runs
    its [find] before the other has run its [emplace]: both construct a
    controller, and they return different ones. *)
Lemma lookup_race :
  run_threads quiet_service [true; false; true; true; false; false]
    "hci0" "hci0" PcFind PcFind initial_machine
  = (PcReturned (Ok 0%nat), PcReturned (Ok 1%nat),
     {| memory := {| heap := ["hci0"; "hci0"]%string;
                     m_interfaces := {[ "hci0"%string := 0%nat ]} |};
        history := [EvAdapterProxyNew "/org/bluez/hci0" None; EvThreadStart;
                    EvAdapterProxyNew "/org/bluez/hci0" None; EvThreadStart] |}).
Proof. by vm_compute. Qed.

(** ** The theorems at concrete inputs *)

(** C2 (amended), on the empty registry: the first [lookup] of hci0. *)
Lemma lookup_sequential_witness :
  registry_wf empty_memory ∧
  match lookup quiet_service "hci0" empty_memory [] with
  | (Ok (it, mem'), es) =>
      registry_wf mem' ∧
      m_interfaces mem' !! "hci0"%string = Some it ∧
      heap mem' !! it = Some "hci0"%string ∧
      (∀ p, heap mem' !! p = Some "hci0"%string → p = it) ∧
      match m_interfaces empty_memory !! "hci0"%string with
      | Some cached => it = cached ∧ mem' = empty_memory ∧ es = []
      | None =>
          heap mem' = heap empty_memory ++ ["hci0"%string] ∧
          es = [EvAdapterProxyNew (createAdapterPath "hci0") None; EvThreadStart]
      end ∧
      lookup quiet_service "hci0" mem' ([] ++ es) = (Ok (it, mem'), [])
  | (Throw e, es) =>
      m_interfaces empty_memory !! "hci0"%string = None ∧
      ∃ msg, e = IOException msg ∧
             es = [EvAdapterProxyNew (createAdapterPath "hci0") (Some msg)]
  end.
Proof.
  assert (Hwf : registry_wf empty_memory).
  { intros name p. simpl. rewrite lookup_empty, lookup_nil. done. }
  split; [exact Hwf|].
  exact (lookup_sequential quiet_service "hci0" empty_memory [] Hwf).
Defined.


(** C4, on the adapter that never powers on. *)
Lemma waitUntilPoweredChange_polls_witness :
  let r := (waitUntilPoweredChange dead_service "hci0" "/org/bluez/hci0" true []).1 in
  let es := (waitUntilPoweredChange dead_service "hci0" "/org/bluez/hci0" true []).2 in
  let reads := powerReads es in
  (length reads ≤ 5)%nat ∧
  totalMilliseconds CHANGE_POWER_DELAY = 200 ∧
  (∃ tail, es = concat (poll_events "/org/bluez/hci0" true <$> reads) ++ tail ∧
     (tail = [] ∨
      ∃ msg, tail = [EvAdapterProxyNew "/org/bluez/hci0" (Some msg)] ∧
             r = Throw (IOException msg))) ∧
  (∀ k, reads !! k = Some true → length reads = S k ∧ r = Ok tt) ∧
  (r = Ok tt → last reads = Some true) ∧
  (r = Throw (TimeoutException ("failed to change power of interface" +:+ "hci0"))
   ↔ reads = replicate 5 (negb true)) ∧
  (∀ msg, r = Throw (TimeoutException msg) →
     msg = "failed to change power of interface" +:+ "hci0") ∧
  answers dead_service [] es ∧
  (r = Ok tt ∨
   (∃ msg, r = Throw (TimeoutException msg)) ∨
   (∃ msg, r = Throw (IOException msg) ∧
           last es = Some (EvAdapterProxyNew "/org/bluez/hci0" (Some msg)))).
Proof.
  exact (waitUntilPoweredChange_polls dead_service "hci0" "/org/bluez/hci0" true []).
Defined.

(** C5, on an adapter that is switched off. *)
Lemma down_broadcasts_before_power_witness :
  let es := (down slow_service "hci0" []).2 in
  (∃ log rest,
     (log = [] ∨ log = [EvLog Debug ("switching down " +:+ "hci0")]) ∧
     es = log ++ [EvLock StatusMutex; EvBroadcast] ++ rest) ∧
  EvBroadcast ∈ es ∧ preceded_by (λ e, e = EvBroadcast) isPowerEvent es.
Proof. exact (down_broadcasts_before_power slow_service "hci0" []). Defined.

(** C6, on the scan with two devices. *)
Lemma lescan_never_stops_discovery_witness :
  Forall (λ e, isStopDiscovery e = false)
    (lescan two_devices_service "hci0" two_seconds []).2 ∧
  Forall (λ e, isStopDiscovery e = false) (up two_devices_service "hci0" []).2 ∧
  (∀ address t,
     Forall (λ e, isStopDiscovery e = false)
       (connect two_devices_service "hci0" address t []).2) ∧
  (EvStopDiscovery (m_adapter "hci0")
     ∈ (DBusHciInterface_delete two_devices_service "hci0" []).2 ↔
   sv_discovering two_devices_service ([] ++ [EvLock DiscoveringMutex]) (m_adapter "hci0")
     = true).
Proof. exact (lescan_never_stops_discovery two_devices_service "hci0" two_seconds []). Defined.

(** C7 (amended), on the registry with the adapter hci0 and two devices. *)
Lemma processKnownDevices_selects_by_substring_witness :
  let objectManager := (sv_object_manager two_devices_service []).2 in
  let selected :=
    retrievePathsOfBluezObjects objectManager (pathFilter "hci0") "org.bluez.Device1" in
  let r := (processKnownDevices two_devices_service "hci0" objectManager ∅ []).1 in
  let es := (processKnownDevices two_devices_service "hci0" objectManager ∅ []).2 in
  (∀ path,
     path ∈ selected ↔
     (∃ o, o ∈ objectManager ∧ object_path o = path) ∧
     string_find path ("/" +:+ "hci0") ≠ None ∧
     g_dbus_object_manager_get_interface objectManager path "org.bluez.Device1" = true) ∧
  (∀ path, spec_under_adapter_path "hci0" path = true →
           string_find path ("/" +:+ "hci0") ≠ None) ∧
  answers two_devices_service [] es ∧
  ((r = Ok (foldl record_device ∅ (deviceReads es)) ∧
    (lookups es).*1 = selected ∧
    (deviceReads es).*1.*1 = (filter (λ l, l.2 = None) (lookups es)).*1 ∧
    Forall (λ a, is_Some (address_of a)) (addressReads es))
   ∨
   (∃ path address,
      r = Throw (AddressException address) ∧
      address_of address = None ∧
      last es = Some (EvGetAddress path address) ∧
      last (addressReads es) = Some address ∧
      (lookups es).*1 `prefix_of` selected ∧
      last (lookups es) = Some (path, None))) ∧
  (∀ a, is_Some (foldl record_device ∅ (deviceReads es) !! a) ↔
        is_Some ((∅ : gmap N string) !! a) ∨
        ∃ read, read ∈ deviceReads es ∧ MACAddress_parse read.1.2 ":" = Some a).
Proof.
  exact (processKnownDevices_selects_by_substring two_devices_service "hci0"
           (sv_object_manager two_devices_service []).2 ∅ []).
Defined.

(** C8, on an adapter that is powered. *)
Lemma up_powered_is_noop_witness :
  head (powerReads (up quiet_service "hci0" []).2) = Some true ∧
  (up quiet_service "hci0" []).1 = Ok tt ∧
  EvGetPowered (createAdapterPath "hci0") true ∈ (up quiet_service "hci0" []).2 ∧
  Forall (λ e, isSetPowered e = false) (up quiet_service "hci0" []).2.
Proof.
  split; [reflexivity|].
  apply (up_powered_is_noop quiet_service "hci0" []). reflexivity.
Defined.



(** * Further properties of the controller *)

(** ** The power protocol of [up] and [down] *)

Lemma setPowerCalls_app (a b : list Event) :
  setPowerCalls (a ++ b) = setPowerCalls a ++ setPowerCalls b.
Proof.
  induction a as [|e a IH]; [done|]. destruct e; simpl; by rewrite ?IH.
Qed.

Lemma setPowerCalls_polls (path : string) (powered : bool) (reads : list bool) :
  setPowerCalls (concat (poll_events path powered <$> reads)) = [].
Proof.
  induction reads as [|b reads IH]; [done|].
  rewrite fmap_cons, concat_cons, setPowerCalls_app, IH.
  unfold poll_events. simpl. by destruct (Bool.eqb b powered).
Qed.

Section PowerProtocol.

Variable bluez : Service.

(** The outcomes of the bounded wait. *)
Lemma waitUntilPoweredChange_run (m_name path : string) (powered : bool)
    (h : list Event) :
  ∃ (misses : nat) (tail : list Event),
    (waitUntilPoweredChange bluez m_name path powered h).2 =
      concat (poll_events path powered <$> replicate misses (negb powered)) ++ tail ∧
    (((waitUntilPoweredChange bluez m_name path powered h).1 = Ok tt ∧
      (misses < 5)%nat ∧ tail = poll_events path powered powered)
     ∨
     ((waitUntilPoweredChange bluez m_name path powered h).1 =
        Throw (TimeoutException ("failed to change power of interface" +:+ m_name)) ∧
      misses = 5%nat ∧ tail = [])
     ∨
     (∃ msg,
        (waitUntilPoweredChange bluez m_name path powered h).1 = Throw (IOException msg) ∧
        (misses < 5)%nat ∧ tail = [EvAdapterProxyNew path (Some msg)])).
Proof.
  unfold waitUntilPoweredChange. rewrite run_bind.
  change (Z.to_nat CHANGE_POWER_ATTEMPTS) with 5%nat.
  destruct (waitUntilPoweredChange_loop_run bluez 5 path powered h)
    as (misses & tail & Hes & Hr).
  destruct (waitUntilPoweredChange_loop bluez 5 path powered h) as [r es].
  simpl in Hes, Hr. subst es. exists misses, tail.
  destruct r as [[]|x]; simpl.
  - destruct Hr as [Hlt ->]. rewrite app_nil_r. split; [done|]. by left.
  - destruct Hr as [-> ->]. rewrite !app_nil_r. split; [done|]. right. by left.
  - destruct Hr as (Hlt & msg & -> & ->). split; [done|]. right. right. by exists msg.
Qed.

(** What a wait for [powered] adds to the reads of the power state. *)
Lemma waitUntilPoweredChange_reads (m_name path : string) (powered : bool)
    (h : list Event) :
  let r := (waitUntilPoweredChange bluez m_name path powered h).1 in
  let es := (waitUntilPoweredChange bluez m_name path powered h).2 in
  setPowerCalls es = [] ∧
  ∃ misses : nat,
    (r = Ok tt ∧ (misses < 5)%nat ∧
     powerReads es = replicate misses (negb powered) ++ [powered])
    ∨
    (r = Throw (TimeoutException ("failed to change power of interface" +:+ m_name)) ∧
     powerReads es = replicate 5 (negb powered))
    ∨
    (∃ msg, r = Throw (IOException msg) ∧ (misses < 5)%nat ∧
            powerReads es = replicate misses (negb powered)).
Proof.
  intros r es. subst r es.
  destruct (waitUntilPoweredChange_run m_name path powered h)
    as (misses & tail & -> & Hcases).
  rewrite setPowerCalls_app, setPowerCalls_polls, powerReads_app, powerReads_polls.
  destruct Hcases as [(-> & Hlt & ->) | [(-> & -> & ->) | (msg & -> & Hlt & ->)]].
  - rewrite poll_events_hit. simpl. split; [done|]. exists misses. by left.
  - simpl. split; [done|]. exists 5%nat. right. left. by rewrite ?app_nil_r.
  - simpl. split; [done|]. exists misses. right. right. exists msg.
    by rewrite ?app_nil_r.
Qed.

(** The shape of every execution of [down]: the events between the broadcast
    and the unlock of the status mutex, by the path taken. *)
Lemma down_run (m_name : string) (h : list Event) :
  let adapter := createAdapterPath m_name in
  ∃ log body,
    (log = [] ∨ log = [EvLog Debug ("switching down " +:+ m_name)]) ∧
    (down bluez m_name h).2 =
      log ++ [EvLock StatusMutex; EvBroadcast] ++ body ++ [EvUnlock StatusMutex] ∧
    ((∃ msg,
        (down bluez m_name h).1 = Throw (IOException msg) ∧
        body = [EvAdapterProxyNew adapter (Some msg)])
     ∨
     ((down bluez m_name h).1 = Ok tt ∧
      body = [EvAdapterProxyNew adapter None; EvGetPowered adapter false])
     ∨
     (∃ h',
        (down bluez m_name h).1 =
          (waitUntilPoweredChange bluez m_name adapter false h').1 ∧
        body = [EvAdapterProxyNew adapter None; EvGetPowered adapter true;
                EvSetPowered adapter false] ++
               (waitUntilPoweredChange bluez m_name adapter false h').2)).
Proof.
  intros adapter. unfold down.
  match goal with
  | |- context [bind (logger_debug bluez ?msg) ?k ?h0] =>
      destruct (run_logger_debug bluez msg k h0) as (log & Hlog & ->)
  end.
  exists log. set (h0 := h ++ log). clearbody h0.
  rewrite ScopedLock_run, run_perform. cbv zeta. fold adapter.
  rewrite run_retrieveBluezAdapter.
  destruct (sv_adapter_proxy bluez _ adapter) as [msg|].
  { exists [EvAdapterProxyNew adapter (Some msg)]. split; [done|]. split; [done|].
    left. by exists msg. }
  unfold org_bluez_adapter1_get_powered, org_bluez_adapter1_set_powered.
  rewrite run_observe.
  destruct (sv_powered bluez _ adapter); simpl.
  - rewrite run_perform.
    match goal with
    | |- context [waitUntilPoweredChange bluez m_name adapter false ?h'] =>
        exists ([EvAdapterProxyNew adapter None; EvGetPowered adapter true;
                 EvSetPowered adapter false] ++
                (waitUntilPoweredChange bluez m_name adapter false h').2);
        split; [done|];
        destruct (waitUntilPoweredChange bluez m_name adapter false h') as [r es] eqn:Hw;
        simpl; split; [done|]; right; right; exists h'; by rewrite Hw
    end.
  - exists [EvAdapterProxyNew adapter None; EvGetPowered adapter false].
    split; [done|]. split; [done|]. right. by left.
Qed.

Lemma startDiscovery_events_no_power (adapter trasport : string) (discovering : bool)
    (error : option string) :
  powerReads (startDiscovery_events adapter trasport discovering error) = [] ∧
  setPowerCalls (startDiscovery_events adapter trasport discovering error) = [].
Proof. by destruct discovering, error. Qed.

Lemma up_power_facts (m_name : string) (h : list Event) :
  let adapter := createAdapterPath m_name in
  let r := (up bluez m_name h).1 in
  let es := (up bluez m_name h).2 in
  (setPowerCalls es = [] ∨ setPowerCalls es = [(adapter, true)]) ∧
  (length (powerReads es) ≤ 6)%nat ∧
  (r = Ok tt → last (powerReads es) = Some true) ∧
  (∀ msg, r = Throw (TimeoutException msg) →
     msg = "failed to change power of interface" +:+ m_name ∧
     powerReads es = replicate 6 false ∧
     setPowerCalls es = [(adapter, true)]).
Proof.
  intros adapter r es. subst r es.
  destruct (up_run bluez m_name h) as (log & body & Hlog & -> & Hcases).
  fold adapter in Hcases.
  assert (Hl : powerReads log = [] ∧ setPowerCalls log = []).
  { by destruct Hlog as [-> | ->]. }
  destruct Hl as [Hlr Hls].
  rewrite !powerReads_app, !setPowerCalls_app, Hlr, Hls. simpl.
  rewrite !app_nil_r.
  destruct Hcases
    as [(msg & -> & ->)
       | (d & err & [(-> & msg & -> & -> & ->)
                    | (Hd & [(-> & ->) | (h' & es & -> & -> & ->)])])].
  - simpl. split_and!; [by left | lia | done | done].
  - simpl. split_and!; [by left | lia | done | done].
  - destruct (startDiscovery_events_no_power adapter "le" d err) as [Hr Hs].
    change (EvAdapterProxyNew adapter None :: startDiscovery_events adapter "le" d err)
      with ([EvAdapterProxyNew adapter None] ++ startDiscovery_events adapter "le" d err).
    rewrite !powerReads_app, !setPowerCalls_app, Hr, Hs. simpl.
    split_and!; [by left | lia | done | done].
  - destruct (startDiscovery_events_no_power adapter "le" d err) as [Hr Hs].
    change (EvAdapterProxyNew adapter None :: startDiscovery_events adapter "le" d err)
      with ([EvAdapterProxyNew adapter None] ++ startDiscovery_events adapter "le" d err).
    rewrite !powerReads_app, !setPowerCalls_app, Hr, Hs. simpl.
    destruct (waitUntilPoweredChange_reads m_name adapter true h') as [-> [misses Hw]].
    split; [by right|].
    destruct Hw as [(-> & Hlt & ->) | [(-> & ->) | (msg & -> & Hlt & ->)]].
    + split_and!; [|by intros _; rewrite app_comm_cons, last_snoc|done].
      simpl. rewrite length_app, length_replicate. simpl. lia.
    + split_and!; [simpl; lia|done|]. by intros msg [= <-].
    + split_and!; [|done|done]. simpl. rewrite length_replicate. lia.
Qed.

(** X1. [up] sends at most one set-power request, for power on and on the
    path of its adapter; it reads the power state at most 6 times; when it
    returns normally the last state it read is on; and the
    [TimeoutException] it throws names the adapter and comes after one
    request and 6 reads that all said off. *)
Theorem up_power_protocol (m_name : string) (h : list Event) :
  let adapter := createAdapterPath m_name in
  let r := (up bluez m_name h).1 in
  let es := (up bluez m_name h).2 in
  (setPowerCalls es = [] ∨ setPowerCalls es = [(adapter, true)]) ∧
  (length (powerReads es) ≤ 6)%nat ∧
  (r = Ok tt → last (powerReads es) = Some true) ∧
  (∀ msg, r = Throw (TimeoutException msg) →
     msg = "failed to change power of interface" +:+ m_name ∧
     powerReads es = replicate 6 false ∧
     setPowerCalls es = [(adapter, true)]).
Proof.
  intros adapter r es.
  destruct (up_power_facts m_name h) as (H1 & Hrest).
  split; [exact H1 | exact Hrest].
Qed.

Lemma down_power_facts (m_name : string) (h : list Event) :
  let adapter := createAdapterPath m_name in
  let r := (down bluez m_name h).1 in
  let es := (down bluez m_name h).2 in
  (head (powerReads es) = Some false → r = Ok tt ∧ setPowerCalls es = []) ∧
  (setPowerCalls es = [] ∨ setPowerCalls es = [(adapter, false)]) ∧
  (length (powerReads es) ≤ 6)%nat ∧
  (r = Ok tt → last (powerReads es) = Some false) ∧
  (∀ msg, r = Throw (TimeoutException msg) →
     msg = "failed to change power of interface" +:+ m_name ∧
     powerReads es = replicate 6 true ∧
     setPowerCalls es = [(adapter, false)]).
Proof.
  intros adapter r es. subst r es.
  destruct (down_run m_name h) as (log & body & Hlog & -> & Hcases).
  fold adapter in Hcases.
  assert (Hl : powerReads log = [] ∧ setPowerCalls log = []).
  { by destruct Hlog as [-> | ->]. }
  destruct Hl as [Hlr Hls].
  rewrite !powerReads_app, !setPowerCalls_app, Hlr, Hls. simpl.
  rewrite !app_nil_r.
  destruct Hcases as [(msg & -> & ->) | [(-> & ->) | (h' & -> & ->)]].
  - simpl. split_and!; [done | by left | lia | done | done].
  - simpl. split_and!; [done | by left | lia | done | done].
  - simpl. rewrite ?powerReads_app, ?setPowerCalls_app. simpl.
    destruct (waitUntilPoweredChange_reads m_name adapter false h') as [-> [misses Hw]].
    split; [done|]. split; [by right|].
    destruct Hw as [(-> & Hlt & ->) | [(-> & ->) | (msg & -> & Hlt & ->)]].
    + split_and!; [|by intros _; rewrite app_comm_cons, last_snoc|done].
      simpl. rewrite length_app, length_replicate. simpl. lia.
    + split_and!; [simpl; lia|done|]. by intros msg [= <-].
    + split_and!; [|done|done]. simpl. rewrite length_replicate. lia.
Qed.


(** X3. [reset] is [down] and then [up]: when [down] throws, [reset] throws
    the same exception and [up] is not attempted; otherwise [up] runs on the
    history that [down] left.  So the set-power requests of [reset] are, in
    this order and each at most once, power off and power on, and when
    [reset] returns normally the last power state it read is on. *)
Theorem reset_power_protocol (m_name : string) (h : list Event) :
  let adapter := createAdapterPath m_name in
  let r := (reset bluez m_name h).1 in
  let es := (reset bluez m_name h).2 in
  (∀ x, (down bluez m_name h).1 = Throw x →
        r = Throw x ∧ es = (down bluez m_name h).2) ∧
  ((down bluez m_name h).1 = Ok tt →
     r = (up bluez m_name (h ++ (down bluez m_name h).2)).1 ∧
     es = (down bluez m_name h).2 ++ (up bluez m_name (h ++ (down bluez m_name h).2)).2) ∧
  setPowerCalls es `sublist_of` [(adapter, false); (adapter, true)] ∧
  (r = Ok tt → last (powerReads es) = Some true).
Proof.
  intros adapter r es. subst r es. unfold reset. rewrite run_bind.
  destruct (down_power_facts m_name h) as (_ & Hdown & _).
  fold adapter in Hdown.
  destruct (down bluez m_name h) as [[[]|x] e1]; simpl in *.
  - destruct (up_power_facts m_name (h ++ e1)) as (Hup & _ & Hlast & _).
    fold adapter in Hup.
    destruct (up bluez m_name (h ++ e1)) as [r e2]. simpl in *.
    split_and!; [done|done| |].
    + rewrite setPowerCalls_app.
      destruct Hdown as [-> | ->], Hup as [-> | ->]; simpl.
      * apply sublist_nil_l.
      * apply sublist_cons, sublist_skip, sublist_nil_l.
      * apply sublist_skip, sublist_nil_l.
      * done.
    + intros Hr. rewrite powerReads_app. apply last_app_Some. left. by apply Hlast.
  - split_and!; [by intros ? [= <-] | done | | done].
    destruct Hdown as [-> | ->].
    + apply sublist_nil_l.
    + apply sublist_skip, sublist_nil_l.
Qed.

End PowerProtocol.

(** ** The exceptions of each operation *)

Section ThrowsOnly.

Context {A B : Type} (P : Exn → Prop).

Lemma throws_only_ret (a : A) : throws_only P (ret a).
Proof. by intros h x. Qed.

Lemma throws_only_throw (x : Exn) : P x → throws_only P (throw (A := A) x).
Proof. intros Hx h y [= <-]. done. Qed.

Lemma throws_only_observe (oracle : list Event → A) (ev : A → Event) :
  throws_only P (observe oracle ev).
Proof. by intros h x. Qed.

Lemma throws_only_bind (c : M A) (k : A → M B) :
  throws_only P c → (∀ a, throws_only P (k a)) → throws_only P (bind c k).
Proof.
  intros Hc Hk h x. unfold bind. specialize (Hc h).
  destruct (c h) as [[a|y] e1]; simpl in *.
  - specialize (Hk a (h ++ e1)). destruct (k a (h ++ e1)) as [r e2]. exact (Hk x).
  - intros [= <-]. by apply Hc.
Qed.

Lemma throws_only_try_catch (c : M A) (handler : Exn → M A) :
  (∀ y, throws_only P (handler y)) → throws_only P (try_catch c handler).
Proof.
  intros Hk h x. unfold try_catch.
  destruct (c h) as [[a|y] e1]; simpl; [done|].
  specialize (Hk y (h ++ e1)). destruct (handler y (h ++ e1)) as [r e2]. exact (Hk x).
Qed.

Lemma throws_only_try_catch_from (Q : Exn → Prop) (c : M A) (handler : Exn → M A) :
  throws_only Q c → (∀ y, Q y → throws_only P (handler y)) →
  throws_only P (try_catch c handler).
Proof.
  intros Hc Hk h x. unfold try_catch. specialize (Hc h).
  destruct (c h) as [[a|y] e1]; simpl in *; [done|].
  specialize (Hk y (Hc y eq_refl) (h ++ e1)).
  destruct (handler y (h ++ e1)) as [r e2]. exact (Hk x).
Qed.

Lemma throws_only_finally (c : M A) (cleanup : M unit) :
  throws_only P c → throws_only P (finally c cleanup).
Proof.
  intros Hc h x. unfold finally. specialize (Hc h).
  destruct (c h) as [r e1]. destruct (cleanup (h ++ e1)) as [r' e2]. exact (Hc x).
Qed.

End ThrowsOnly.

Lemma throws_only_perform (P : Exn → Prop) (e : Event) : throws_only P (perform e).
Proof. by intros h x. Qed.

Lemma throws_only_when (P : Exn → Prop) (b : bool) (c : M unit) :
  throws_only P c → throws_only P (when b c).
Proof. intros Hc. destruct b; [done | apply throws_only_ret]. Qed.

Lemma throws_only_ScopedLock {A} (P : Exn → Prop) (m : Mutex) (scope : M A) :
  throws_only P scope → throws_only P (ScopedLock m scope).
Proof.
  intros Hs. apply throws_only_bind; [apply throws_only_perform|]. intros _.
  by apply throws_only_finally.
Qed.

Ltac throws_step :=
  first
    [ apply throws_only_ret
    | apply throws_only_perform
    | apply throws_only_observe
    | apply throws_only_when
    | apply throws_only_ScopedLock
    | apply throws_only_finally
    | apply throws_only_try_catch; intros ?
    | apply throws_only_bind; [| intros ?]
    | match goal with
      | |- throws_only _ (if ?b then _ else _) => destruct b
      | |- throws_only _ (match ?x with _ => _ end) => destruct x
      end ].

Section Exceptions.

Variable bluez : Service.
Context `{MACAddressCodec}.

Lemma io_throwErrorIfAny (error : option string) :
  throws_only isIOException (throwErrorIfAny error).
Proof.
  destruct error as [msg|]; [|apply throws_only_ret].
  apply throws_only_throw. by exists msg.
Qed.

Lemma io_retrieveBluezAdapter (path : string) :
  throws_only isIOException (retrieveBluezAdapter bluez path).
Proof.
  unfold retrieveBluezAdapter. repeat first [apply io_throwErrorIfAny | throws_step].
Qed.

Lemma io_retrieveBluezDevice (path : string) :
  throws_only isIOException (retrieveBluezDevice bluez path).
Proof.
  unfold retrieveBluezDevice. repeat first [apply io_throwErrorIfAny | throws_step].
Qed.

Lemma io_startDiscovery (adapter trasport : string) :
  throws_only isIOException (startDiscovery bluez adapter trasport).
Proof.
  unfold startDiscovery, org_bluez_adapter1_get_discovering, initDiscoveryFilter.
  repeat first [apply io_throwErrorIfAny | throws_step].
Qed.

Lemma throws_only_weaken {A} (P Q : Exn → Prop) (c : M A) :
  (∀ x, P x → Q x) → throws_only P c → throws_only Q c.
Proof. intros HPQ Hc h x Hx. by apply HPQ, (Hc h). Qed.

Lemma io_or_timeout_waitUntilPoweredChange (m_name path : string) (powered : bool) :
  throws_only isIOOrTimeout (waitUntilPoweredChange bluez m_name path powered).
Proof.
  unfold waitUntilPoweredChange. throws_step.
  - induction (Z.to_nat CHANGE_POWER_ATTEMPTS) as [|n IH]; simpl.
    + throws_step.
    + unfold org_bluez_adapter1_get_powered.
      repeat first
        [ exact IH
        | apply (throws_only_weaken isIOException); [by left|];
          apply io_retrieveBluezAdapter
        | throws_step ].
  - destruct a; [throws_step|]. apply throws_only_throw. right. by eexists.
Qed.

Lemma none_stopDiscovery (adapter : string) :
  throws_only (λ _, False) (stopDiscovery bluez adapter).
Proof.
  unfold stopDiscovery, org_bluez_adapter1_get_discovering. repeat throws_step.
Qed.

Lemma address_device_address (device : string) :
  throws_only isAddressException (device_address bluez device).
Proof.
  unfold device_address, org_bluez_device1_get_address.
  repeat first [apply throws_only_throw; by eexists | throws_step].
Qed.

Lemma address_processKnownDevices_loop (paths : list string) (devices : gmap N string) :
  throws_only isAddressException (processKnownDevices_loop bluez paths devices).
Proof.
  revert devices. induction paths as [|path paths IH]; intros devices; simpl.
  - throws_step.
  - unfold BEEEON_CATCH_CHAIN_ACTION, org_bluez_device1_get_name.
    repeat first [apply address_device_address | apply IH | throws_step].
Qed.

Lemma address_onDBusObjectAdded (objectManager : GDBusObjectManager)
    (object : GDBusObject) (userData : gmap N string) :
  throws_only isAddressException (onDBusObjectAdded bluez objectManager object userData).
Proof.
  unfold onDBusObjectAdded, BEEEON_CATCH_CHAIN_ACTION, org_bluez_device1_get_name.
  repeat first [apply address_device_address | throws_step].
Qed.

Lemma escaped_dispatchObjectAdded (objectManager : GDBusObjectManager)
    (added : list GDBusObject) (userData : gmap N string) :
  throws_only isEscapedAddressException
    (dispatchObjectAdded bluez objectManager added userData).
Proof.
  revert objectManager userData.
  induction added as [|object added IH]; intros objectManager userData; simpl.
  - throws_step.
  - apply throws_only_bind; [apply throws_only_perform | intros _].
    apply throws_only_bind; [|intros userData'; apply IH].
    apply (throws_only_try_catch_from _ isAddressException);
      [apply address_onDBusObjectAdded|].
    intros y [address ->]. apply throws_only_throw. by exists address.
Qed.

Lemma io_lescan_loop (m_name : string) (allDevices : list (N * string))
    (foundDevices : gmap N string) :
  throws_only isIOException (lescan_loop bluez m_name allDevices foundDevices).
Proof.
  revert foundDevices.
  induction allDevices as [|one rest IH]; intros foundDevices; simpl.
  - throws_step.
  - unfold org_bluez_device1_get_rssi, logger_debug.
    repeat first [apply io_retrieveBluezDevice | apply IH | throws_step].
Qed.

(** X4. Which of the exceptions raised in this file leave each operation:
    [up], [down] and [reset] only an [IOException] or a
    [TimeoutException]; [connect] and the constructor only an
    [IOException]; the destructor and [stopDiscovery] none.  The seeding
    pass and the callback never let the [IOException] of a lookup out, but
    they throw the exception of a null or rejected address, which no
    [try] encloses; so [lescan] throws an [IOException] or that exception
    of the seeding pass, or the run ends with that exception leaving the
    callback. *)
Theorem exceptions_of_operations (m_name : string) :
  throws_only isIOOrTimeout (up bluez m_name) ∧
  throws_only isIOOrTimeout (down bluez m_name) ∧
  throws_only isIOOrTimeout (reset bluez m_name) ∧
  (∀ timeout, throws_only isScanException (lescan bluez m_name timeout)) ∧
  (∀ address timeout, throws_only isIOException (connect bluez m_name address timeout)) ∧
  throws_only isIOException (DBusHciInterface_new bluez m_name) ∧
  throws_only (λ _, False) (DBusHciInterface_delete bluez m_name) ∧
  throws_only (λ _, False) (stopDiscovery bluez (m_adapter m_name)) ∧
  (∀ objectManager devices,
     throws_only isAddressException
       (processKnownDevices bluez m_name objectManager devices)) ∧
  (∀ objectManager object userData,
     throws_only isAddressException
       (onDBusObjectAdded bluez objectManager object userData)) ∧
  (∀ timeout objectManager userData,
     throws_only isEscapedAddressException
       (m_waitCondition_tryWait bluez timeout objectManager userData)).
Proof.
  assert (Hio : ∀ x, isIOException x → isIOOrTimeout x) by (intros x Hx; by left).
  assert (Hup : throws_only isIOOrTimeout (up bluez m_name)).
  { unfold up, logger_debug, org_bluez_adapter1_get_powered,
      org_bluez_adapter1_set_powered.
    repeat first
      [ apply io_or_timeout_waitUntilPoweredChange
      | apply (throws_only_weaken isIOException); [exact Hio|];
        first [apply io_retrieveBluezAdapter | apply io_startDiscovery]
      | throws_step ]. }
  assert (Hdown : throws_only isIOOrTimeout (down bluez m_name)).
  { unfold down, logger_debug, org_bluez_adapter1_get_powered,
      org_bluez_adapter1_set_powered.
    repeat first
      [ apply io_or_timeout_waitUntilPoweredChange
      | apply (throws_only_weaken isIOException); [exact Hio|];
        apply io_retrieveBluezAdapter
      | throws_step ]. }
  split_and!; [done|done|..].
  - unfold reset. by apply throws_only_bind.
  - intros timeout.
    unfold lescan, lescan_accumulate, lescan_filter, logger_information,
      createBluezObjectManager, processKnownDevices, m_waitCondition_tryWait.
    repeat first
      [ apply (throws_only_weaken isIOException); [by left|];
        first [apply io_throwErrorIfAny | apply io_startDiscovery | apply io_lescan_loop]
      | apply (throws_only_weaken isAddressException); [by (right; left)|];
        apply address_processKnownDevices_loop
      | apply (throws_only_weaken isEscapedAddressException); [by (right; right)|];
        apply escaped_dispatchObjectAdded
      | throws_step ].
  - intros address timeout.
    unfold connect, logger_debug, org_bluez_device1_get_connected.
    repeat first [apply io_throwErrorIfAny | apply io_retrieveBluezDevice | throws_step].
  - unfold DBusHciInterface_new.
    repeat first [apply io_retrieveBluezAdapter | throws_step].
  - unfold DBusHciInterface_delete.
    repeat first [apply none_stopDiscovery | throws_step].
  - apply none_stopDiscovery.
  - intros objectManager devices. apply address_processKnownDevices_loop.
  - intros objectManager object userData. apply address_onDBusObjectAdded.
  - intros timeout objectManager userData. unfold m_waitCondition_tryWait.
    repeat first [apply escaped_dispatchObjectAdded | throws_step].
Qed.

End Exceptions.

(** ** The kinds of events of each operation *)

Lemma emits_weaken {A} (P Q : Event → Prop) (c : M A) :
  (∀ e, P e → Q e) → emits P c → emits Q c.
Proof. intros HPQ Hc h. eapply Forall_impl; [apply Hc | done]. Qed.

Section Alphabets.

Variable bluez : Service.
Context `{MACAddressCodec}.

Lemma scan_retrieveBluezDevice (path : string) :
  emits (λ e, isScanEvent e = true) (retrieveBluezDevice bluez path).
Proof.
  unfold retrieveBluezDevice, throwErrorIfAny. by repeat emits_step.
Qed.

Lemma scan_processKnownDevices_loop (paths : list string) (devices : gmap N string) :
  emits (λ e, isScanEvent e = true) (processKnownDevices_loop bluez paths devices).
Proof.
  revert devices. induction paths as [|path paths IH]; intros devices; simpl.
  - emits_step.
  - unfold BEEEON_CATCH_CHAIN_ACTION, org_bluez_device1_get_address,
      org_bluez_device1_get_name.
    repeat first [apply scan_retrieveBluezDevice | apply IH | emits_step].
Qed.

Lemma scan_onDBusObjectAdded (objectManager : GDBusObjectManager)
    (object : GDBusObject) (userData : gmap N string) :
  emits (λ e, isScanEvent e = true)
    (onDBusObjectAdded bluez objectManager object userData).
Proof.
  unfold onDBusObjectAdded, BEEEON_CATCH_CHAIN_ACTION, org_bluez_device1_get_address,
    org_bluez_device1_get_name.
  repeat first [apply scan_retrieveBluezDevice | emits_step].
Qed.

Lemma scan_dispatchObjectAdded (objectManager : GDBusObjectManager)
    (added : list GDBusObject) (userData : gmap N string) :
  emits (λ e, isScanEvent e = true)
    (dispatchObjectAdded bluez objectManager added userData).
Proof.
  revert objectManager userData.
  induction added as [|object added IH]; intros objectManager userData; simpl.
  - emits_step.
  - repeat first [apply scan_onDBusObjectAdded | apply IH | emits_step].
Qed.

Lemma scan_lescan_loop (m_name : string) (allDevices : list (N * string))
    (foundDevices : gmap N string) :
  emits (λ e, isScanEvent e = true) (lescan_loop bluez m_name allDevices foundDevices).
Proof.
  revert foundDevices.
  induction allDevices as [|one rest IH]; intros foundDevices; simpl.
  - emits_step.
  - unfold org_bluez_device1_get_rssi, logger_debug.
    repeat first [apply scan_retrieveBluezDevice | apply IH | emits_step].
Qed.

Lemma scan_is_lescan (e : Event) : isScanEvent e = true → isLescanEvent e = true.
Proof. by destruct e as [| | m | m | | | | | | | | | | | | | | | | | | | | | | | |]; try destruct m. Qed.

Lemma alphabet_startDiscovery (P : Event → Prop) (adapter trasport : string) :
  P (EvLock DiscoveringMutex) → P (EvUnlock DiscoveringMutex) →
  (∀ d, P (EvGetDiscovering adapter d)) →
  (∀ err, P (EvSetDiscoveryFilter adapter trasport err)) →
  P (EvStartDiscovery adapter) →
  emits P (startDiscovery bluez adapter trasport).
Proof.
  intros. unfold startDiscovery, org_bluez_adapter1_get_discovering,
    initDiscoveryFilter, throwErrorIfAny.
  by repeat emits_step.
Qed.

Lemma alphabet_lescan (m_name : string) (timeout : Timespan) :
  emits (λ e, isLescanEvent e = true) (lescan bluez m_name timeout).
Proof.
  unfold lescan, lescan_accumulate, lescan_filter, logger_information,
    createBluezObjectManager, processKnownDevices, m_waitCondition_tryWait,
    throwErrorIfAny.
  repeat first
    [ apply alphabet_startDiscovery; done
    | apply (emits_weaken _ _ _ scan_is_lescan);
      first [ apply scan_processKnownDevices_loop | apply scan_dispatchObjectAdded
            | apply scan_lescan_loop ]
    | emits_step ].
Qed.

Lemma alphabet_waitUntilPoweredChange (m_name path : string) (powered : bool) :
  emits (λ e, isPowerOpEvent e = true) (waitUntilPoweredChange bluez m_name path powered).
Proof.
  unfold waitUntilPoweredChange. emits_step; [|by repeat emits_step].
  induction (Z.to_nat CHANGE_POWER_ATTEMPTS) as [|n IH]; simpl.
  - emits_step.
  - unfold retrieveBluezAdapter, throwErrorIfAny, org_bluez_adapter1_get_powered.
    repeat first [exact IH | emits_step].
Qed.

Lemma alphabet_up (m_name : string) :
  emits (λ e, isPowerOpEvent e = true) (up bluez m_name).
Proof.
  unfold up, logger_debug, retrieveBluezAdapter, throwErrorIfAny,
    org_bluez_adapter1_get_powered, org_bluez_adapter1_set_powered.
  repeat first
    [ apply alphabet_waitUntilPoweredChange
    | apply alphabet_startDiscovery; done
    | emits_step ].
Qed.

Lemma alphabet_down (m_name : string) :
  emits (λ e, isPowerOpEvent e = true ∧ isDiscoveryEvent e = false) (down bluez m_name).
Proof.
  unfold down, logger_debug, org_bluez_adapter1_get_powered,
    org_bluez_adapter1_set_powered.
  repeat first
    [ apply (emits_weaken (λ e, isPowerOpEvent e = true ∧ isDiscoveryEvent e = false));
      [done|];
      unfold waitUntilPoweredChange; emits_step; [|by repeat emits_step];
      induction (Z.to_nat CHANGE_POWER_ATTEMPTS) as [|n IH]; simpl;
      [ emits_step
      | unfold retrieveBluezAdapter, throwErrorIfAny, org_bluez_adapter1_get_powered;
        repeat first [exact IH | emits_step] ]
    | unfold retrieveBluezAdapter, throwErrorIfAny; emits_step ].
Qed.

(** X5. What each operation touches.  [lescan] only logs, makes the object
    manager and device proxies, reads devices, connects the callback, runs
    the start-discovery step and waits: it never reads or changes the power
    state, so it scans without checking that the adapter is powered.  [up],
    [down] and [reset] never touch a device proxy or the object manager,
    and [down] makes no call on the discovery state.  [connect] touches
    only the device proxy: never the power or the discovery state. *)
Theorem operations_touch_only (m_name : string) (h : list Event) :
  (∀ timeout,
     Forall (λ e, isLescanEvent e = true) (lescan bluez m_name timeout h).2 ∧
     Forall (λ e, ¬ isPowerEvent e) (lescan bluez m_name timeout h).2) ∧
  Forall (λ e, isPowerOpEvent e = true ∧ isDeviceEvent e = false)
    (up bluez m_name h).2 ∧
  Forall (λ e, isPowerOpEvent e = true ∧ isDeviceEvent e = false ∧
               isDiscoveryEvent e = false) (down bluez m_name h).2 ∧
  Forall (λ e, isPowerOpEvent e = true ∧ isDeviceEvent e = false)
    (reset bluez m_name h).2 ∧
  (∀ address timeout,
     Forall (λ e, isConnectEvent e = true ∧ ¬ isPowerEvent e ∧
                  isDiscoveryEvent e = false)
       (connect bluez m_name address timeout h).2).
Proof.
  assert (Hpd : ∀ e, isPowerOpEvent e = true →
                     isPowerOpEvent e = true ∧ isDeviceEvent e = false).
  { intros e He. split; [done|]. by destruct e. }
  split_and!.
  - intros timeout. split; [apply alphabet_lescan|].
    eapply Forall_impl; [apply alphabet_lescan|].
    intros e He [Hp|Hp]; by destruct e.
  - eapply Forall_impl; [apply alphabet_up | exact Hpd].
  - eapply Forall_impl; [apply alphabet_down|].
    intros e [He Hd]. split; [done|]. split; [|done]. by destruct e.
  - unfold reset.
    eapply Forall_impl; [|exact Hpd].
    apply emits_bind; [|intros _; apply alphabet_up].
    eapply emits_weaken; [|apply alphabet_down]. by intros e [He _].
  - intros address timeout.
    eapply Forall_impl.
    + assert (Hc : emits (λ e, isConnectEvent e = true)
                     (connect bluez m_name address timeout)).
      { unfold connect, logger_debug, retrieveBluezDevice, throwErrorIfAny,
          org_bluez_device1_get_connected.
        by repeat emits_step. }
      apply Hc.
    + intros e He. split; [done|]. split; [|by destruct e].
      intros [Hp|Hp]; by destruct e.
Qed.

End Alphabets.

(** ** The mutexes *)

Lemma lock_run_app (a b : list Event) (s : Held) :
  lock_run (a ++ b) s = lock_run a s ≫= lock_run b.
Proof.
  revert s. induction a as [|e a IH]; intros s; simpl; [done|].
  destruct (lock_step s e) as [s'|]; simpl; [apply IH | done].
Qed.

Section Locks.

Context {A B : Type}.
Variable s : Held.

Lemma locks_ok_ret (a : A) : locks_ok s (ret a).
Proof. by intros h. Qed.

Lemma locks_ok_throw (x : Exn) : locks_ok s (throw x : M A).
Proof. by intros h. Qed.

Lemma locks_ok_observe (oracle : list Event → A) (ev : A → Event) :
  (∀ a, lock_step s (ev a) = Some s) → locks_ok s (observe oracle ev).
Proof. intros Hev h. unfold observe. simpl. by rewrite Hev. Qed.

Lemma locks_ok_bind (c : M A) (k : A → M B) :
  locks_ok s c → (∀ a, locks_ok s (k a)) → locks_ok s (bind c k).
Proof.
  intros Hc Hk h. unfold bind. specialize (Hc h).
  destruct (c h) as [[a|x] e1]; simpl in *; [|done].
  specialize (Hk a (h ++ e1)). destruct (k a (h ++ e1)) as [r e2]; simpl in *.
  by rewrite lock_run_app, Hc.
Qed.

Lemma locks_ok_try_catch (c : M A) (handler : Exn → M A) :
  locks_ok s c → (∀ x, locks_ok s (handler x)) → locks_ok s (try_catch c handler).
Proof.
  intros Hc Hk h. unfold try_catch. specialize (Hc h).
  destruct (c h) as [[a|x] e1]; simpl in *; [done|].
  specialize (Hk x (h ++ e1)). destruct (handler x (h ++ e1)) as [r e2]; simpl in *.
  by rewrite lock_run_app, Hc.
Qed.

(** The guard takes a free mutex, the scope runs with it held, and every
    exit of the scope gives it back. *)
Lemma locks_ok_ScopedLock (m : Mutex) (scope : M A) :
  can_lock s m = true → locks_ok (set_held m true s) scope →
  locks_ok s (ScopedLock m scope).
Proof.
  intros Hfree Hscope h. rewrite ScopedLock_run.
  specialize (Hscope (h ++ [EvLock m])).
  destruct (scope (h ++ [EvLock m])) as [r es]; simpl in *.
  rewrite Hfree, lock_run_app, Hscope. simpl.
  by destruct s as [[|] [|]], m.
Qed.

End Locks.

Lemma locks_ok_perform (s : Held) (e : Event) :
  lock_step s e = Some s → locks_ok s (perform e).
Proof. intros He h. unfold perform. simpl. by rewrite He. Qed.

Lemma locks_ok_when (s : Held) (b : bool) (c : M unit) :
  locks_ok s c → locks_ok s (when b c).
Proof. intros Hc. destruct b; [done | apply locks_ok_ret]. Qed.

Ltac locks_step :=
  first
    [ apply locks_ok_ret
    | apply locks_ok_throw
    | apply locks_ok_perform; done
    | apply locks_ok_observe; done
    | apply locks_ok_when
    | apply locks_ok_ScopedLock; [done | simpl]
    | apply locks_ok_try_catch; [| intros ?]
    | apply locks_ok_bind; [| intros ?]
    | match goal with
      | |- locks_ok _ (if ?b then _ else _) => destruct b
      | |- locks_ok _ (match ?x with _ => _ end) => destruct x
      end ].

Section LockDiscipline.

Variable bluez : Service.
Context `{MACAddressCodec}.

Lemma locks_ok_retrieveBluezDevice (s : Held) (path : string) :
  locks_ok s (retrieveBluezDevice bluez path).
Proof. unfold retrieveBluezDevice, throwErrorIfAny. by repeat locks_step. Qed.

Lemma locks_ok_retrieveBluezAdapter (s : Held) (path : string) :
  locks_ok s (retrieveBluezAdapter bluez path).
Proof. unfold retrieveBluezAdapter, throwErrorIfAny. by repeat locks_step. Qed.

Lemma locks_ok_startDiscovery (s : Held) (adapter trasport : string) :
  held_discovering s = false → locks_ok s (startDiscovery bluez adapter trasport).
Proof.
  intros Hfree. unfold startDiscovery, org_bluez_adapter1_get_discovering,
    initDiscoveryFilter, throwErrorIfAny.
  apply locks_ok_ScopedLock; [unfold can_lock; simpl; by rewrite Hfree | simpl].
  by repeat locks_step.
Qed.

Lemma locks_ok_stopDiscovery (s : Held) (adapter : string) :
  held_discovering s = false → locks_ok s (stopDiscovery bluez adapter).
Proof.
  intros Hfree. unfold stopDiscovery, org_bluez_adapter1_get_discovering.
  apply locks_ok_ScopedLock; [unfold can_lock; simpl; by rewrite Hfree | simpl].
  by repeat locks_step.
Qed.

Lemma locks_ok_waitUntilPoweredChange (s : Held) (m_name path : string) (powered : bool) :
  held_status s = true → locks_ok s (waitUntilPoweredChange bluez m_name path powered).
Proof.
  intros Hheld. unfold waitUntilPoweredChange.
  locks_step; [|by repeat locks_step].
  induction (Z.to_nat CHANGE_POWER_ATTEMPTS) as [|n IH]; simpl.
  - locks_step.
  - unfold org_bluez_adapter1_get_powered.
    repeat first
      [ exact IH | apply locks_ok_retrieveBluezAdapter
      | apply locks_ok_observe; intros ?; simpl; by rewrite Hheld
      | apply locks_ok_perform; simpl; by rewrite Hheld
      | locks_step ].
Qed.

Lemma locks_ok_up (m_name : string) : locks_ok no_mutex (up bluez m_name).
Proof.
  unfold up, logger_debug, org_bluez_adapter1_get_powered,
    org_bluez_adapter1_set_powered.
  repeat first
    [ apply locks_ok_retrieveBluezAdapter
    | apply locks_ok_startDiscovery; done
    | apply locks_ok_waitUntilPoweredChange; done
    | locks_step ].
Qed.

Lemma locks_ok_down (m_name : string) : locks_ok no_mutex (down bluez m_name).
Proof.
  unfold down, logger_debug, org_bluez_adapter1_get_powered,
    org_bluez_adapter1_set_powered.
  repeat first
    [ apply locks_ok_retrieveBluezAdapter
    | apply locks_ok_waitUntilPoweredChange; done
    | locks_step ].
Qed.

Lemma locks_ok_processKnownDevices_loop (s : Held) (paths : list string)
    (devices : gmap N string) :
  locks_ok s (processKnownDevices_loop bluez paths devices).
Proof.
  revert devices. induction paths as [|path paths IH]; intros devices; simpl.
  - locks_step.
  - unfold BEEEON_CATCH_CHAIN_ACTION, org_bluez_device1_get_address,
      org_bluez_device1_get_name.
    repeat first [apply locks_ok_retrieveBluezDevice | apply IH | locks_step].
Qed.

Lemma locks_ok_dispatchObjectAdded (s : Held) (objectManager : GDBusObjectManager)
    (added : list GDBusObject) (userData : gmap N string) :
  locks_ok s (dispatchObjectAdded bluez objectManager added userData).
Proof.
  revert objectManager userData.
  induction added as [|object added IH]; intros objectManager userData; simpl.
  - locks_step.
  - unfold onDBusObjectAdded, BEEEON_CATCH_CHAIN_ACTION,
      org_bluez_device1_get_address, org_bluez_device1_get_name.
    repeat first [apply locks_ok_retrieveBluezDevice | apply IH | locks_step].
Qed.

Lemma locks_ok_lescan_loop (s : Held) (m_name : string)
    (allDevices : list (N * string)) (foundDevices : gmap N string) :
  locks_ok s (lescan_loop bluez m_name allDevices foundDevices).
Proof.
  revert foundDevices.
  induction allDevices as [|one rest IH]; intros foundDevices; simpl.
  - locks_step.
  - unfold org_bluez_device1_get_rssi, logger_debug.
    repeat first [apply locks_ok_retrieveBluezDevice | apply IH | locks_step].
Qed.

(** X6. The mutexes.  Called with no mutex held, every operation takes
    each mutex only while it is free (a [FastMutex] is not recursive) and
    [m_statusMutex] never while it holds [m_discoveringMutex], reads and changes the power state and waits on [m_condition] only
    under [m_statusMutex], calls the discovery state only under
    [m_discoveringMutex], and has given back both mutexes when it returns
    or throws. *)
Theorem operations_respect_mutexes (m_name : string) (h : list Event) :
  lock_run (up bluez m_name h).2 no_mutex = Some no_mutex ∧
  lock_run (down bluez m_name h).2 no_mutex = Some no_mutex ∧
  lock_run (reset bluez m_name h).2 no_mutex = Some no_mutex ∧
  (∀ timeout, lock_run (lescan bluez m_name timeout h).2 no_mutex = Some no_mutex) ∧
  (∀ address timeout,
     lock_run (connect bluez m_name address timeout h).2 no_mutex = Some no_mutex) ∧
  lock_run (DBusHciInterface_new bluez m_name h).2 no_mutex = Some no_mutex ∧
  lock_run (DBusHciInterface_delete bluez m_name h).2 no_mutex = Some no_mutex.
Proof.
  split_and!.
  - apply locks_ok_up.
  - apply locks_ok_down.
  - apply (locks_ok_bind no_mutex); [apply locks_ok_down | intros _; apply locks_ok_up].
  - intros timeout.
    assert (Hl : locks_ok no_mutex (lescan bluez m_name timeout)); [|apply Hl].
    unfold lescan, lescan_accumulate, lescan_filter, logger_information,
      createBluezObjectManager, processKnownDevices, m_waitCondition_tryWait,
      throwErrorIfAny.
    repeat first
      [ apply locks_ok_startDiscovery; done
      | apply locks_ok_processKnownDevices_loop
      | apply locks_ok_dispatchObjectAdded
      | apply locks_ok_lescan_loop
      | locks_step ].
  - intros address timeout.
    assert (Hl : locks_ok no_mutex (connect bluez m_name address timeout)); [|apply Hl].
    unfold connect, logger_debug, org_bluez_device1_get_connected, throwErrorIfAny.
    repeat first [apply locks_ok_retrieveBluezDevice | locks_step].
  - assert (Hl : locks_ok no_mutex (DBusHciInterface_new bluez m_name)); [|apply Hl].
    unfold DBusHciInterface_new.
    repeat first [apply locks_ok_retrieveBluezAdapter | locks_step].
  - assert (Hl : locks_ok no_mutex (DBusHciInterface_delete bluez m_name)); [|apply Hl].
    unfold DBusHciInterface_delete.
    repeat first [apply locks_ok_stopDiscovery; done | locks_step].
Qed.

End LockDiscipline.

(** ** The order of a scan *)

Lemma waits_app (a b : list Event) : waits (a ++ b) = waits a ++ waits b.
Proof.
  induction a as [|e a IH]; [done|]. destruct e; simpl; by rewrite ?IH.
Qed.

Lemma waits_scan (es : list Event) :
  Forall (λ e, isScanEvent e = true) es → waits es = [].
Proof.
  induction 1 as [|e es He _ IH]; [done|]. by destruct e.
Qed.

(** Side conditions on the events of a list written with [::] and [++]. *)
Ltac scan_side :=
  repeat first [ assumption | apply Forall_app; split | apply Forall_cons; split
               | apply Forall_nil ];
  first [ done | by eauto | intros [? ?]; congruence ].

Section ScanOrder.

Variable bluez : Service.
Context `{MACAddressCodec}.

Lemma wait_then_scan {B} (timeout : Timespan) (objectManager : GDBusObjectManager)
    (userData : gmap N string) (k : gmap N string → M B) (h : list Event) :
  (∀ a, emits (λ e, isScanEvent e = true) (k a)) →
  ∃ rest,
    Forall (λ e, isScanEvent e = true) rest ∧
    (bind (m_waitCondition_tryWait bluez timeout objectManager userData) k h).2
      = EvWaitConditionTryWait timeout :: rest.
Proof.
  intros Hk. unfold m_waitCondition_tryWait. rewrite run_bind_assoc, run_observe.
  match goal with
  | |- context [bind (dispatchObjectAdded bluez ?om ?added ?ud) k ?h0] =>
      pose proof (emits_bind _ _ k (scan_dispatchObjectAdded bluez om added ud) Hk h0)
        as Hrest;
      destruct (bind (dispatchObjectAdded bluez om added ud) k h0) as [r rest]
  end.
  by exists rest.
Qed.

Lemma lescan_shape (m_name : string) (timeout : Timespan) (h : list Event) :
  let adapter := createAdapterPath m_name in
  let r := (lescan bluez m_name timeout h).1 in
  let es := (lescan bluez m_name timeout h).2 in
  ∃ s seed,
    let log := EvLog Information s in
    Forall (λ e, isScanEvent e = true) seed ∧
    ((∃ msg, r = Throw (IOException msg) ∧ es = [log; EvObjectManagerNew (Some msg)]) ∨
     (∃ msg, r = Throw (IOException msg) ∧
        es = ([log; EvObjectManagerNew None] ++ seed ++ [EvSignalConnect "object-added"])
             ++ startDiscovery_events adapter "le" false (Some msg)) ∨
     (∃ d err rest,
        Forall (λ e, isScanEvent e = true) rest ∧
        es = ([log; EvObjectManagerNew None] ++ seed ++ [EvSignalConnect "object-added"])
             ++ startDiscovery_events adapter "le" d err
             ++ [EvWaitConditionTryWait timeout] ++ rest) ∨
     (∃ address, r = Throw (AddressException address) ∧
        es = [log; EvObjectManagerNew None] ++ seed)).
Proof.
  intros adapter r es. subst r es.
  destruct (lescan bluez m_name timeout h) as [r es] eqn:Hl. cbn [fst snd].
  unfold lescan, lescan_accumulate, logger_information, createBluezObjectManager in Hl.
  rewrite !run_bind_assoc, run_perform in Hl.
  rewrite !run_bind_assoc, run_observe in Hl.
  match type of Hl with
  | context [sv_object_manager bluez ?h0] =>
      destruct (sv_object_manager bluez h0) as [[msg|] objectManager]
  end; simpl in Hl.
  - injection Hl as <- <-.
    exists ("starting BLE scan for " +:+ pretty (totalSeconds timeout) +:+ " seconds"), [].
    split; [by constructor|]. left. by exists msg.
  - rewrite !run_bind_assoc, !run_ret in Hl.
    rewrite !run_bind_assoc, run_bind in Hl.
    unfold processKnownDevices in Hl.
    match type of Hl with
    | context [processKnownDevices_loop bluez ?paths ?devices ?h0] =>
        pose proof (scan_processKnownDevices_loop bluez paths devices h0) as Hseed;
        destruct (processKnownDevices_loop_run bluez paths devices h0)
          as [(Hok & _) | (p & address & Hok & _)];
        destruct (processKnownDevices_loop bluez paths devices h0) as [r1 seed]
    end; cbn [fst snd] in Hseed, Hok; subst r1.
    2: { injection Hl as <- <-.
         exists ("starting BLE scan for " +:+ pretty (totalSeconds timeout)
                 +:+ " seconds"), seed.
         split; [done|]. do 3 right. by exists address. }
    rewrite !run_bind_assoc, run_perform in Hl.
    rewrite !run_bind_assoc, run_startDiscovery in Hl.
    fold adapter in Hl.
    match type of Hl with
    | context [startDiscovery_events _ _ ?d ?err] =>
        set (discovering := d) in Hl; set (error := err) in Hl
    end.
    assert (Hwait : ∀ h0 userData,
      ∃ rest,
        Forall (λ e, isScanEvent e = true) rest ∧
        (bind (m_waitCondition_tryWait bluez timeout objectManager userData)
           (λ allDevices,
              foundDevices <- lescan_filter bluez m_name allDevices ;;
              perform (EvLog Information
                         ("BLE scan has finished, found "
                          +:+ pretty (size foundDevices) +:+ " device(s)")) ;;
              ret foundDevices) h0).2
          = EvWaitConditionTryWait timeout :: rest).
    { intros h0 userData. apply wait_then_scan. intros a.
      unfold lescan_filter. repeat first [apply scan_lescan_loop | emits_step]. }
    exists ("starting BLE scan for " +:+ pretty (totalSeconds timeout) +:+ " seconds"),
      seed.
    split; [done|]. right.
    destruct discovering eqn:Hd, error as [msg|] eqn:He;
      [ | | left; injection Hl as <- <-; exists msg; split; [done|];
            simpl; rewrite <- ?(assoc_L (++)); reflexivity | ];
      right; left;
      match type of Hl with
      | context [bind ?c ?k ?h0] =>
          destruct (Hwait h0 (foldl record_device ∅ (deviceReads seed)))
            as (rest & Hrest & Hes);
          destruct (bind c k h0) as [r2 es2]
      end;
      cbn [fst snd] in Hes; subst es2; injection Hl as <- <-;
      [ exists true, (Some msg), rest | exists true, None, rest
      | exists false, None, rest ];
      (split; [exact Hrest|]);
      simpl; rewrite <- ?(assoc_L (++)); reflexivity.
Qed.

(** X7. The order of a scan.  [lescan] waits on [m_waitCondition] at most
    once, with the timeout it was given, and exactly once when it returns;
    when it did not wait, it threw: the [IOException] of the object
    manager or of the discovery filter, or the exception of a null or
    rejected address in the seeding pass.  The callback of
    ["object-added"] is connected before the first call on the discovery
    state, the discovery state is read before the wait begins, and the
    object manager was made before the first call on a device proxy. *)
Theorem lescan_order (m_name : string) (timeout : Timespan) (h : list Event) :
  let adapter := createAdapterPath m_name in
  let r := (lescan bluez m_name timeout h).1 in
  let es := (lescan bluez m_name timeout h).2 in
  (waits es = [] ∨ waits es = [timeout]) ∧
  (∀ foundDevices, r = Ok foundDevices → waits es = [timeout]) ∧
  (waits es = [] →
     ∃ x, r = Throw x ∧ (isIOException x ∨ isAddressException x)) ∧
  preceded_by (λ e, e = EvSignalConnect "object-added")
              (λ e, isDiscoveryEvent e = true) es ∧
  preceded_by (λ e, ∃ d, e = EvGetDiscovering adapter d)
              (λ e, ∃ t, e = EvWaitConditionTryWait t) es ∧
  preceded_by (λ e, e = EvObjectManagerNew None)
              (λ e, isDeviceEvent e = true) es.
Proof.
  intros adapter r es.
  destruct (lescan_shape m_name timeout h) as (s & seed & Hseed & Hshape).
  fold adapter r es in Hshape. cbv zeta in Hshape.
  assert (Hnd : ∀ l, Forall (λ e, isScanEvent e = true) l →
                     Forall (λ e, ¬ isDiscoveryEvent e = true) l).
  { intros l Hl. eapply Forall_impl; [exact Hl|]. intros e He. by destruct e. }
  assert (Hnw : ∀ l, Forall (λ e, isScanEvent e = true) l →
                     Forall (λ e, ¬ ∃ t, e = EvWaitConditionTryWait t) l).
  { intros l Hl. eapply Forall_impl; [exact Hl|]. intros e He [t ->]. done. }
  assert (Hsd : ∀ d err,
    waits (startDiscovery_events adapter "le" d err) = [] ∧
    Forall (λ e, ¬ ∃ t, e = EvWaitConditionTryWait t)
      (startDiscovery_events adapter "le" d err) ∧
    Forall (λ e, ¬ isDeviceEvent e = true) (startDiscovery_events adapter "le" d err) ∧
    EvGetDiscovering adapter d ∈ startDiscovery_events adapter "le" d err).
  { intros d err. split_and!.
    - by destruct d, err.
    - destruct d, err; simpl; repeat constructor; by intros [t Ht].
    - destruct d, err; simpl; by repeat constructor.
    - destruct d, err; in_list. }
  destruct Hshape
    as [(msg & Hr & Hes)
       | [(msg & Hr & Hes)
         | [(d & err & rest & Hrest & Hes) | (address & Hr & Hes)]]].
  - rewrite Hes, Hr. split_and!.
    + left. done.
    + done.
    + intros _. eexists. split; [done|]. left. by exists msg.
    + apply preceded_by_none. scan_side.
    + apply preceded_by_none. scan_side.
    + apply preceded_by_none. scan_side.
  - destruct (Hsd false (Some msg)) as (Hw & Hnowait & _ & _).
    assert (Hwaits : waits es = []).
    { rewrite Hes, !waits_app, Hw, (waits_scan seed Hseed). done. }
    rewrite Hr. split_and!.
    + by left.
    + done.
    + intros _. eexists. split; [done|]. left. by exists msg.
    + rewrite Hes. eapply preceded_by_prefix; [| |reflexivity]; [|in_list].
      scan_side.
    + apply preceded_by_none. rewrite Hes. scan_side.
    + rewrite Hes, <- (assoc_L (++)).
      eapply (preceded_by_prefix _ _ [EvLog Information s; EvObjectManagerNew None]);
        [| |reflexivity]; [|in_list].
      scan_side.
  - destruct (Hsd d err) as (Hw & Hnowait & _ & Hin).
    assert (Hwaits : waits es = [timeout]).
    { rewrite Hes, !waits_app, Hw, (waits_scan seed Hseed), (waits_scan rest Hrest).
      done. }
    split_and!.
    + by right.
    + done.
    + intros Hnone. congruence.
    + rewrite Hes. eapply preceded_by_prefix; [| |reflexivity]; [|in_list].
      scan_side.
    + rewrite Hes, (assoc_L (++)).
      eapply preceded_by_prefix with (e' := EvGetDiscovering adapter d).
      * scan_side.
      * apply elem_of_app. by right.
      * by exists d.
    + rewrite Hes, <- (assoc_L (++)).
      eapply (preceded_by_prefix _ _ [EvLog Information s; EvObjectManagerNew None]);
        [| |reflexivity]; [|in_list].
      scan_side.
  - assert (Hwaits : waits es = []).
    { rewrite Hes, !waits_app, (waits_scan seed Hseed). done. }
    rewrite Hr. split_and!.
    + by left.
    + done.
    + intros _. eexists. split; [done|]. right. by exists address.
    + apply preceded_by_none. rewrite Hes. scan_side.
    + apply preceded_by_none. rewrite Hes. scan_side.
    + rewrite Hes.
      eapply (preceded_by_prefix _ _ [EvLog Information s; EvObjectManagerNew None]);
        [| |reflexivity]; [|in_list].
      scan_side.
Qed.

End ScanOrder.

(** ** What a scan records *)

Lemma emplace_size {V} (k : N) (v : V) (m : gmap N V) :
  (size (emplace k v m) ≤ S (size m))%nat.
Proof.
  unfold emplace. destruct (m !! k) eqn:Hk; [lia|].
  rewrite map_size_insert_None by done. lia.
Qed.

(** An event that is no read of a name separates the reads before it from
    those after it. *)
Lemma deviceReads_app_sep (a b : list Event) (e : Event) :
  (∀ p n, e ≠ EvGetName p n) →
  deviceReads (a ++ e :: b) = deviceReads a ++ deviceReads (e :: b).
Proof.
  intros He. remember (length a) as n eqn:Hn. revert a Hn.
  induction n as [n IH] using lt_wf_ind. intros a Hn.
  destruct a as [|x a]; [done|]. simpl in Hn.
  assert (Hskip : deviceReads (a ++ e :: b) = deviceReads a ++ deviceReads (e :: b))
    by (apply (IH (length a)); [lia|done]).
  destruct x; try exact Hskip.
  destruct address as [address|]; [|exact Hskip].
  destruct a as [|y a].
  - change (deviceReads (EvGetAddress path (Some address) :: e :: b)
            = deviceReads (e :: b)).
    destruct e; try done. by destruct (He path0 name).
  - destruct y; try exact Hskip.
    change ((path, address, name) :: deviceReads (a ++ e :: b)
            = (path, address, name) :: deviceReads a ++ deviceReads (e :: b)).
    f_equal. apply (IH (length a)); [simpl in Hn; lia|done].
Qed.

Section Records.

Variable bluez : Service.
Context `{MACAddressCodec}.

(** The first read of an address gives the name: later reads of the same
    address change nothing. *)
Lemma foldl_record_device_lookup (reads : list (string * string * option string))
    (devices : gmap N string) (a : N) :
  foldl record_device devices reads !! a =
    match devices !! a with
    | Some n => Some n
    | None =>
        (λ read, default "unknown" read.2) <$>
          List.find (λ read, bool_decide (MACAddress_parse read.1.2 ":" = Some a)) reads
    end.
Proof.
  revert devices. induction reads as [|read reads IH]; intros devices; simpl.
  - by destruct (devices !! a).
  - rewrite IH. unfold record_device at 1.
    destruct (MACAddress_parse read.1.2 ":") as [mac|] eqn:Hmac.
    + destruct (decide (mac = a)) as [->|Hne].
      * rewrite bool_decide_eq_true_2 by done.
        destruct (devices !! a) as [n|] eqn:Hd.
        -- by rewrite (emplace_lookup_keep _ _ _ n _ Hd).
        -- by rewrite (emplace_lookup_same _ _ _ Hd).
      * rewrite bool_decide_eq_false_2 by congruence.
        by rewrite (emplace_lookup_ne _ _ _ _ Hne).
    + by rewrite bool_decide_eq_false_2 by congruence.
Qed.

Lemma foldl_record_device_size (reads : list (string * string * option string))
    (devices : gmap N string) :
  (size (foldl record_device devices reads) ≤ size devices + length reads)%nat.
Proof.
  revert devices. induction reads as [|read reads IH]; intros devices; simpl; [lia|].
  specialize (IH (record_device devices read)).
  assert (Hs : (size (record_device devices read) ≤ S (size devices))%nat).
  { unfold record_device. destruct (MACAddress_parse read.1.2 ":"); [|lia].
    apply emplace_size. }
  lia.
Qed.

(** The callback on an object that has just entered the cache. *)
Lemma onDBusObjectAdded_run (objectManager : GDBusObjectManager) (object : GDBusObject)
    (userData : gmap N string) (h : list Event) :
  let path := object_path object in
  onDBusObjectAdded bluez (object :: objectManager) object userData h =
    if bool_decide ("org.bluez.Device1" ∈ object_interfaces object) then
      match sv_device_proxy bluez h path with
      | Some msg =>
          (Ok userData,
           [EvDeviceProxyNew path (Some msg); EvLogException (IOException msg)])
      | None =>
          let address := sv_address bluez (h ++ [EvDeviceProxyNew path None]) path in
          match address_of address with
          | None =>
              (Throw (AddressException address),
               [EvDeviceProxyNew path None; EvGetAddress path address])
          | Some mac =>
              let name :=
                sv_name bluez ((h ++ [EvDeviceProxyNew path None])
                               ++ [EvGetAddress path address]) path in
              (Ok (emplace mac (default "unknown" name) userData),
               [EvDeviceProxyNew path None; EvGetAddress path address;
                EvGetName path name])
          end
      end
    else (Ok userData, []).
Proof.
  intros path. unfold onDBusObjectAdded, g_dbus_object_manager_get_interface.
  simpl. rewrite bool_decide_eq_true_2 by done. fold path.
  destruct (bool_decide ("org.bluez.Device1" ∈ object_interfaces object)); [|done].
  simpl. rewrite run_catch_retrieveBluezDevice.
  destruct (sv_device_proxy bluez h path) as [msg|]; cbv zeta; [done|].
  rewrite run_device_address.
  destruct (address_of (sv_address bluez (h ++ [EvDeviceProxyNew path None]) path));
    [|done].
  unfold org_bluez_device1_get_name. by rewrite run_observe.
Qed.

(** The two ways the handling of the notifications ends: it returns, with
    all the addresses it read accepted, or the exception of the first
    address that is null or rejected leaves the callback. *)
Lemma dispatchObjectAdded_run (added : list GDBusObject) :
  ∀ (objectManager : GDBusObjectManager) (userData : gmap N string) (h : list Event),
    let announced :=
      object_path <$> filter (λ o, "org.bluez.Device1" ∈ object_interfaces o) added in
    let r := (dispatchObjectAdded bluez objectManager added userData h).1 in
    let es := (dispatchObjectAdded bluez objectManager added userData h).2 in
    ((r = Ok (foldl record_device userData (deviceReads es)) ∧
      (lookups es).*1 = announced ∧
      (deviceReads es).*1.*1 = (filter (λ l, l.2 = None) (lookups es)).*1 ∧
      Forall (λ a, is_Some (address_of a)) (addressReads es))
     ∨
     (∃ path address,
        r = Throw (EscapedCallback (AddressException address)) ∧
        address_of address = None ∧
        last es = Some (EvGetAddress path address) ∧
        last (addressReads es) = Some address ∧
        (lookups es).*1 `prefix_of` announced ∧
        last (lookups es) = Some (path, None))) ∧
    (length (deviceReads es) ≤ length added)%nat.
Proof.
  induction added as [|object added IH]; intros objectManager userData h.
  { split; [|done]. left. by repeat split. }
  cbv zeta.
  destruct (dispatchObjectAdded bluez objectManager (object :: added) userData h)
    as [r0 es0] eqn:Hrun.
  cbn [fst snd]. simpl in Hrun. rewrite run_perform, run_bind in Hrun.
  unfold try_catch in Hrun. rewrite onDBusObjectAdded_run in Hrun. cbv zeta in Hrun.
  destruct (decide ("org.bluez.Device1" ∈ object_interfaces object)) as [Hin|Hout].
  - rewrite filter_cons_True by done.
    rewrite (bool_decide_eq_true_2 _ Hin) in Hrun.
    destruct (sv_device_proxy bluez _ (object_path object)) as [msg|].
    + match type of Hrun with
      | context [dispatchObjectAdded bluez ?om added ?d ?h0] =>
          specialize (IH om d h0);
          destruct (dispatchObjectAdded bluez om added d h0) as [r es]
      end.
      injection Hrun as <- <-. cbn [fst snd] in IH. simpl.
      destruct IH as [[(Hr & Hl & Hd & Ha) | (p & a & Hr & Ha & Hlast & Hal & Hl & Hll)] Hn].
      * split; [|lia]. left. split_and!; [done|by f_equal| |done].
        rewrite ?filter_cons_False by (simpl; congruence). done.
      * split; [|lia]. right. exists p, a. split_and!; [done|done| |done| |].
        -- rewrite !last_cons, Hlast. done.
        -- by apply prefix_cons.
        -- by rewrite last_cons, Hll.
    + destruct (address_of (sv_address bluez _ (object_path object))) as [mac|] eqn:Hmac.
      * match type of Hrun with
        | context [dispatchObjectAdded bluez ?om added ?d ?h0] =>
            specialize (IH om d h0);
            destruct (dispatchObjectAdded bluez om added d h0) as [r es]
        end.
        injection Hrun as <- <-. cbn [fst snd] in IH.
        unfold address_of in Hmac.
        destruct (sv_address bluez _ (object_path object)) as [text|] eqn:Haddr; [|done].
        simpl in Hmac. simpl.
        destruct IH
          as [[(Hr & Hl & Hd & Ha) | (p & a & Hr & Ha & Hlast & Hal & Hl & Hll)] Hn].
        -- split; [|lia]. left. split_and!.
           ++ rewrite Hr. do 2 f_equal. unfold record_device. simpl. by rewrite Hmac.
           ++ by f_equal.
           ++ rewrite ?filter_cons_True by done. simpl. by f_equal.
           ++ constructor; [|done]. unfold address_of. simpl. by rewrite Hmac.
        -- split; [|lia]. right. exists p, a. split_and!; [done|done| | | |].
           ++ rewrite !last_cons, Hlast. done.
           ++ by rewrite last_cons, Hal.
           ++ by apply prefix_cons.
           ++ by rewrite last_cons, Hll.
      * simpl in Hrun. injection Hrun as <- <-.
        split; [|destruct (sv_address bluez _ (object_path object)); simpl; lia]. right.
        eexists (object_path object), _. split_and!; [done|exact Hmac|done|done| |done].
        simpl. apply prefix_cons, prefix_nil.
  - rewrite filter_cons_False by done.
    rewrite (bool_decide_eq_false_2 _ Hout) in Hrun.
    match type of Hrun with
    | context [dispatchObjectAdded bluez ?om added ?d ?h0] =>
        specialize (IH om d h0);
        destruct (dispatchObjectAdded bluez om added d h0) as [r es]
    end.
    rewrite ?app_nil_r in Hrun. simpl in Hrun.
    injection Hrun as <- <-. cbn [fst snd] in IH. simpl.
    destruct IH as [[Hok | (p & a & Hr & Ha & Hlast & Hal & Hl & Hll)] Hn];
      (split; [|lia]).
    + by left.
    + right. exists p, a. split_and!; [done|done| |done|done|done].
      by rewrite last_cons, Hlast.
Qed.

Lemma truthful_onDBusObjectAdded (objectManager : GDBusObjectManager)
    (object : GDBusObject) (userData : gmap N string) :
  truthful bluez (onDBusObjectAdded bluez objectManager object userData).
Proof.
  unfold onDBusObjectAdded, BEEEON_CATCH_CHAIN_ACTION, org_bluez_device1_get_name.
  repeat first [ apply truthful_retrieveBluezDevice | apply truthful_device_address
               | truthful_step ].
Qed.

Lemma truthful_dispatchObjectAdded (objectManager : GDBusObjectManager)
    (added : list GDBusObject) (userData : gmap N string) :
  truthful bluez (dispatchObjectAdded bluez objectManager added userData).
Proof.
  revert objectManager userData.
  induction added as [|object added IH]; intros objectManager userData; simpl.
  - truthful_step.
  - repeat first [apply truthful_onDBusObjectAdded | apply IH | truthful_step].
Qed.

(** X8. What the wait records.  While [lescan] waits, the announced
    objects that expose the device interface are looked up in turn,
    whatever their path: the callback applies no filter on the adapter.
    The failure of a lookup is caught and the object skipped; a null or
    rejected address is not: its exception leaves the callback, with only
    the objects up to that one looked up, and the run ends.  Otherwise
    every such object was looked up, the devices read are those whose
    lookup succeeded, and the map the callback was registered with has
    each of them recorded.  The map only grows: an address that is there
    keeps its name, and every announcement adds at most one address.
    Every answer in the trace is what the service gave. *)
Theorem wait_records_announced_devices (timeout : Timespan)
    (objectManager : GDBusObjectManager) (userData : gmap N string) (h : list Event) :
  let added := sv_object_added bluez h in
  let announced :=
    object_path <$> filter (λ o, "org.bluez.Device1" ∈ object_interfaces o) added in
  let r := (m_waitCondition_tryWait bluez timeout objectManager userData h).1 in
  let es := (m_waitCondition_tryWait bluez timeout objectManager userData h).2 in
  let userData' := foldl record_device userData (deviceReads es) in
  head es = Some (EvWaitConditionTryWait timeout) ∧
  answers bluez h es ∧
  ((r = Ok userData' ∧
    (lookups es).*1 = announced ∧
    (deviceReads es).*1.*1 = (filter (λ l, l.2 = None) (lookups es)).*1 ∧
    Forall (λ a, is_Some (address_of a)) (addressReads es))
   ∨
   (∃ path address,
      r = Throw (EscapedCallback (AddressException address)) ∧
      address_of address = None ∧
      last es = Some (EvGetAddress path address) ∧
      last (addressReads es) = Some address ∧
      (lookups es).*1 `prefix_of` announced ∧
      last (lookups es) = Some (path, None))) ∧
  (∀ a n, userData !! a = Some n → userData' !! a = Some n) ∧
  (size userData' ≤ size userData + length added)%nat.
Proof.
  intros added announced r es userData'.
  assert (Htrue : answers bluez h es).
  { subst es. unfold m_waitCondition_tryWait.
    assert (Ht : truthful bluez
              (added <- observe (sv_object_added bluez)
                          (λ _, EvWaitConditionTryWait timeout) ;;
               dispatchObjectAdded bluez objectManager added userData)).
    { repeat first [apply truthful_dispatchObjectAdded | truthful_step]. }
    apply Ht. }
  subst r es userData' announced.
  destruct (m_waitCondition_tryWait bluez timeout objectManager userData h)
    as [r es] eqn:Hrun.
  cbn [fst snd] in *. unfold m_waitCondition_tryWait in Hrun.
  rewrite run_observe in Hrun. fold added in Hrun.
  match type of Hrun with
  | context [dispatchObjectAdded bluez ?om added ?d ?h0] =>
      destruct (dispatchObjectAdded_run added om d h0) as [Hcases Hn];
      destruct (dispatchObjectAdded bluez om added d h0) as [r1 es1]
  end.
  cbn [fst snd] in Hcases, Hn. injection Hrun as <- <-.
  split_and!; [done|done| | |].
  - destruct Hcases as [Hok | (p & a & Hr & Ha & Hlast & Hal & Hl & Hll)].
    + by left.
    + right. exists p, a. split_and!; [done|done| |done|done|done].
      by rewrite last_cons, Hlast.
  - intros a n Ha. simpl. by rewrite foldl_record_device_lookup, Ha.
  - simpl. pose proof (foldl_record_device_size (deviceReads es1) userData). lia.
Qed.

Lemma lescan_accumulate_run (m_name : string) (timeout : Timespan) (h : list Event) :
  let r := (lescan_accumulate bluez m_name timeout h).1 in
  let es := (lescan_accumulate bluez m_name timeout h).2 in
  (∃ msg, r = Throw (IOException msg) ∧ waits es = []) ∨
  (∃ path address,
     r = Throw (AddressException address) ∧ waits es = [] ∧
     address_of address = None ∧ last es = Some (EvGetAddress path address)) ∨
  (r = Ok (foldl record_device ∅ (deviceReads es)) ∧ waits es = [timeout]) ∨
  (∃ path address,
     r = Throw (EscapedCallback (AddressException address)) ∧ waits es = [timeout] ∧
     address_of address = None ∧ last es = Some (EvGetAddress path address)).
Proof.
  intros r es. subst r es.
  destruct (lescan_accumulate bluez m_name timeout h) as [r es] eqn:Hl. cbn [fst snd].
  unfold lescan_accumulate, logger_information, createBluezObjectManager in Hl.
  rewrite run_perform in Hl.
  rewrite !run_bind_assoc, run_observe in Hl.
  match type of Hl with
  | context [sv_object_manager bluez ?h0] =>
      destruct (sv_object_manager bluez h0) as [[msg|] objectManager]
  end; simpl in Hl.
  { injection Hl as <- <-. left. by exists msg. }
  rewrite !run_bind_assoc, !run_ret in Hl.
  rewrite run_bind in Hl. unfold processKnownDevices in Hl.
  match type of Hl with
  | context [processKnownDevices_loop bluez ?paths ?devices ?h0] =>
      pose proof (scan_processKnownDevices_loop bluez paths devices h0) as Hseed;
      destruct (processKnownDevices_loop_run bluez paths devices h0)
        as [(Hok & _) | (p & address & Hok & Ha & Hlast & _)];
      destruct (processKnownDevices_loop bluez paths devices h0) as [r1 seed]
  end; cbn [fst snd] in *; subst r1.
  2: { injection Hl as <- <-. right. left. exists p, address.
       split_and!; [done| |done|].
       - change (waits seed = []). by apply waits_scan.
       - by rewrite !last_cons, Hlast. }
  rewrite run_perform, run_startDiscovery in Hl.
  match type of Hl with
  | context [startDiscovery_events _ _ ?d ?err] =>
      set (discovering := d) in Hl; set (error := err) in Hl
  end.
  assert (Hwait : ∀ h0 userData,
    let r := (m_waitCondition_tryWait bluez timeout objectManager userData h0).1 in
    let es := (m_waitCondition_tryWait bluez timeout objectManager userData h0).2 in
    ∃ rest, es = EvWaitConditionTryWait timeout :: rest ∧
            Forall (λ e, isScanEvent e = true) rest ∧
            (r = Ok (foldl record_device userData (deviceReads rest)) ∨
             ∃ path address,
               r = Throw (EscapedCallback (AddressException address)) ∧
               address_of address = None ∧
               last rest = Some (EvGetAddress path address))).
  { intros h0 userData. cbv zeta. unfold m_waitCondition_tryWait. rewrite run_observe.
    match goal with
    | |- context [dispatchObjectAdded bluez ?om ?added ?d ?h1] =>
        pose proof (scan_dispatchObjectAdded bluez om added d h1) as Hscan;
        destruct (dispatchObjectAdded_run added om d h1) as [Hcases _];
        destruct (dispatchObjectAdded bluez om added d h1) as [r1 es1]
    end.
    cbn [fst snd] in *. exists es1. split; [done|]. split; [done|].
    destruct Hcases as [(Hr & _) | (p & a & Hr & Ha & Hlast & _)]; [by left|].
    right. by exists p, a. }
  assert (Hdone : ∀ d err rest,
    Forall (λ e, isScanEvent e = true) rest →
    let es :=
      EvLog Information ("starting BLE scan for " +:+ pretty (totalSeconds timeout)
                         +:+ " seconds")
      :: EvObjectManagerNew None
      :: seed ++ EvSignalConnect "object-added"
         :: startDiscovery_events (m_adapter m_name) "le" d err
            ++ EvWaitConditionTryWait timeout :: rest in
    deviceReads es = deviceReads seed ++ deviceReads rest ∧ waits es = [timeout] ∧
    (∀ e, last rest = Some e → last es = Some e)).
  { intros d err rest Hrest. cbv zeta. split_and!.
    - change (deviceReads (seed ++ EvSignalConnect "object-added"
                :: startDiscovery_events (m_adapter m_name) "le" d err
                   ++ EvWaitConditionTryWait timeout :: rest)
              = deviceReads seed ++ deviceReads rest).
      rewrite deviceReads_app_sep by done. f_equal. by destruct d, err.
    - change (waits (seed ++ EvSignalConnect "object-added"
                :: startDiscovery_events (m_adapter m_name) "le" d err
                   ++ EvWaitConditionTryWait timeout :: rest) = [timeout]).
      rewrite waits_app, (waits_scan seed Hseed). simpl.
      change (waits (startDiscovery_events (m_adapter m_name) "le" d err
                     ++ EvWaitConditionTryWait timeout :: rest) = [timeout]).
      rewrite waits_app. simpl. rewrite (waits_scan rest Hrest).
      by destruct d, err.
    - intros e He. rewrite !last_cons, last_app, last_cons, last_app, last_cons, He.
      done. }
  destruct discovering eqn:Hd, error as [msg|] eqn:He;
    [ | | left; injection Hl as <- <-; exists msg; split; [done|];
          change (waits (seed ++ EvSignalConnect "object-added"
                    :: startDiscovery_events (m_adapter m_name) "le" false (Some msg))
                  = []);
          rewrite waits_app, (waits_scan seed Hseed); reflexivity | ];
    do 2 right;
    match type of Hl with
    | context [m_waitCondition_tryWait bluez timeout objectManager ?ud ?h0] =>
        destruct (Hwait h0 ud) as (rest & Hes & Hrest & Hr);
        destruct (m_waitCondition_tryWait bluez timeout objectManager ud h0)
          as [r2 es2]
    end;
    cbn [fst snd] in Hes, Hr; subst es2; injection Hl as <- <-;
    [ destruct (Hdone true (Some msg) rest Hrest) as (Hreads & Hwaits & Hlast')
    | destruct (Hdone true None rest Hrest) as (Hreads & Hwaits & Hlast')
    | destruct (Hdone false None rest Hrest) as (Hreads & Hwaits & Hlast') ];
    (destruct Hr as [-> | (p & a & -> & Ha & Hlast)];
     [ left; split; [|exact Hwaits];
       f_equal; simpl in Hreads |- *; rewrite <- ?(assoc_L (++)) in *; simpl in *;
       rewrite Hreads, foldl_app; reflexivity
     | right; exists p, a; split_and!; [done|exact Hwaits|done|];
       specialize (Hlast' _ Hlast);
       simpl in Hlast' |- *; rewrite <- ?(assoc_L (++)) in *; exact Hlast' ]).
Qed.

Lemma truthful_lescan_accumulate (m_name : string) (timeout : Timespan) :
  truthful bluez (lescan_accumulate bluez m_name timeout).
Proof.
  unfold lescan_accumulate, logger_information, createBluezObjectManager,
    processKnownDevices, m_waitCondition_tryWait, throwErrorIfAny.
  repeat first
    [ apply truthful_processKnownDevices_loop | apply truthful_dispatchObjectAdded
    | apply truthful_startDiscovery | truthful_step ].
Qed.

(** X9. What the accumulation of [lescan] holds.  The map starts empty on
    every scan, and the accumulation ends in one of four ways.  It
    returns, after its one wait, exactly the devices read during this
    scan, by the seeding pass and by the callback: every address under
    the name of its first read, or ["unknown"] when that read gave no
    name.  Or the object manager or the discovery filter failed and it
    throws the [IOException] without having waited.  Or the seeding pass
    read an address that is null or rejected and it throws that exception
    without having waited.  Or the callback read such an address during
    the wait, and the run ends with that exception leaving the callback.
    Every answer in the trace is what the service gave. *)
Theorem lescan_accumulate_records_reads (m_name : string) (timeout : Timespan)
    (h : list Event) :
  let r := (lescan_accumulate bluez m_name timeout h).1 in
  let es := (lescan_accumulate bluez m_name timeout h).2 in
  let allDevices := foldl record_device ∅ (deviceReads es) in
  answers bluez h es ∧
  ((r = Ok allDevices ∧ waits es = [timeout]) ∨
   (∃ msg, r = Throw (IOException msg) ∧ waits es = []) ∨
   (∃ path address,
      r = Throw (AddressException address) ∧ waits es = [] ∧
      address_of address = None ∧ last es = Some (EvGetAddress path address)) ∨
   (∃ path address,
      r = Throw (EscapedCallback (AddressException address)) ∧ waits es = [timeout] ∧
      address_of address = None ∧ last es = Some (EvGetAddress path address))) ∧
  (∀ a, allDevices !! a =
        (λ read, default "unknown" read.2) <$>
          List.find (λ read, bool_decide (MACAddress_parse read.1.2 ":" = Some a))
                    (deviceReads es)).
Proof.
  intros r es allDevices. split_and!.
  - apply truthful_lescan_accumulate.
  - destruct (lescan_accumulate_run m_name timeout h)
      as [(msg & Hr & Hw) | [(p & a & Hr) | [[Hr Hw] | (p & a & Hr)]]].
    + right. left. by exists msg.
    + right. right. left. by exists p, a.
    + by left.
    + right. right. right. by exists p, a.
  - intros a. unfold allDevices. by rewrite foldl_record_device_lookup, lookup_empty.
Qed.

End Records.

(** ** The object paths *)

Lemma string_find_contains (pre needle rest : string) :
  needle ≠ "" → string_find (pre +:+ needle +:+ rest) needle ≠ None.
Proof.
  intros Hne Hnone. unfold string_find in Hnone.
  apply (String.index_correct3 0 (String.length pre)) in Hnone; [|done|lia].
  apply Hnone. rewrite substring_append_skip. apply substring_append_prefix.
Qed.

Lemma prefix_append (p r : string) : String.prefix p (p +:+ r) = true.
Proof.
  induction p as [|c p IH].
  { change (String.prefix "" r = true). by destruct r. }
  change (String.prefix (String c p) (String c (p +:+ r)) = true). simpl.
  by destruct (ascii_dec c c).
Qed.

Lemma append_inj_l (p a b : string) : p +:+ a = p +:+ b → a = b.
Proof.
  induction p as [|c p IH]; [done|].
  change (String c (p +:+ a) = String c (p +:+ b) → a = b).
  intros [= Heq]. by apply IH.
Qed.

Section Paths.

Context `{MACAddressCodec}.

(** X10. The object paths.  The path of a device of the adapter lies under
    the path of the adapter, and the filter of the seeding pass lets it
    through; the filter also lets through every device path of an adapter
    whose name begins with the name of this one.  Different adapter names
    have different adapter paths. *)
Theorem device_paths_pass_the_filter (m_name : string) (address : N) :
  String.prefix (createAdapterPath m_name) (createDevicePath m_name address) = true ∧
  spec_under_adapter_path m_name (createDevicePath m_name address) = true ∧
  pathFilter m_name (createDevicePath m_name address) = false ∧
  (∀ suffix, pathFilter m_name (createDevicePath (m_name +:+ suffix) address) = false) ∧
  (∀ name, createAdapterPath m_name = createAdapterPath name → m_name = name).
Proof.
  assert (Hpass : ∀ suffix,
            pathFilter m_name (createDevicePath (m_name +:+ suffix) address) = false).
  { intros suffix. unfold pathFilter, createDevicePath.
    pose proof (string_find_contains "/org/bluez" ("/" +:+ m_name)
                  (suffix +:+ "/dev_" +:+ MACAddress_toString address "_")) as Hfind.
    rewrite !string_append_assoc in Hfind.
    change ("/org/bluez" +:+ "/" +:+ m_name +:+ suffix +:+ "/dev_"
            +:+ MACAddress_toString address "_")
      with ("/org/bluez/" +:+ m_name +:+ suffix +:+ "/dev_"
            +:+ MACAddress_toString address "_") in Hfind.
    rewrite string_append_assoc.
    destruct (string_find _ _); [done|]. by destruct Hfind. }
  split_and!.
  - unfold createAdapterPath, createDevicePath.
    rewrite <- (string_append_assoc "/org/bluez/" m_name). apply prefix_append.
  - unfold spec_under_adapter_path, createDevicePath.
    change ("/dev_" +:+ MACAddress_toString address "_")
      with ("/" +:+ "dev_" +:+ MACAddress_toString address "_").
    rewrite <- (string_append_assoc "/org/bluez/" m_name "/"),
            <- (string_append_assoc "/org/bluez/" m_name),
            <- (string_append_assoc ("/org/bluez/" +:+ m_name) "/").
    apply prefix_append.
  - unfold pathFilter, createDevicePath.
    pose proof (string_find_contains "/org/bluez" ("/" +:+ m_name)
                  ("/dev_" +:+ MACAddress_toString address "_")) as Hfind.
    rewrite !string_append_assoc in Hfind.
    change ("/org/bluez" +:+ "/" +:+ m_name +:+ "/dev_"
            +:+ MACAddress_toString address "_")
      with ("/org/bluez/" +:+ m_name +:+ "/dev_"
            +:+ MACAddress_toString address "_") in Hfind.
    destruct (string_find _ _); [done|]. by destruct Hfind.
  - exact Hpass.
  - intros name. unfold createAdapterPath. apply append_inj_l.
Qed.

End Paths.

(** ** Connecting, discovery and the life of a controller *)

Lemma to_int_in_range (z : Z) : -2 ^ 31 ≤ z < 2 ^ 31 → to_int z = z.
Proof. intros Hz. unfold to_int. rewrite Z.mod_small; lia. Qed.

(** Membership in a list written with [::] and [++], on both sides. *)
Ltac in_list_iff :=
  simpl;
  repeat (rewrite elem_of_app || rewrite elem_of_cons || rewrite elem_of_nil);
  intuition congruence.

Section Requests.

Variable bluez : Service.
Context `{MACAddressCodec}.

(** The three runs of [connect]. *)
Lemma connect_run (m_name : string) (address : N) (timeout : Timespan)
    (h : list Event) :
  let device := createDevicePath m_name address in
  let conn := {| conn_name := m_name; conn_device := device; conn_timeout := timeout |} in
  ∃ log,
    (log = [] ∨
     log = [EvLog Debug ("connecting to device " +:+ MACAddress_toString address ":")]) ∧
    ((∃ msg, connect bluez m_name address timeout h =
               (Throw (IOException msg), log ++ [EvDeviceProxyNew device (Some msg)])) ∨
     connect bluez m_name address timeout h =
       (Ok conn, log ++ [EvDeviceProxyNew device None; EvGetConnected device true]) ∨
     (∃ err, connect bluez m_name address timeout h =
        (match err with Some msg => Throw (IOException msg) | None => Ok conn end,
         log ++ [EvDeviceProxyNew device None; EvGetConnected device false;
                 EvSetDefaultTimeout device (to_int (totalMilliseconds timeout));
                 EvCallConnect device err]))).
Proof.
  intros device conn. unfold connect.
  match goal with
  | |- context [bind (logger_debug bluez ?msg) ?k ?h0] =>
      destruct (run_logger_debug bluez msg k h0) as (log & Hlog & ->)
  end.
  exists log. split; [exact Hlog|].
  cbv zeta. fold device. rewrite run_retrieveBluezDevice.
  destruct (sv_device_proxy bluez (h ++ log) device) as [msg|]; simpl.
  { left. by exists msg. }
  right. unfold org_bluez_device1_get_connected. rewrite run_observe.
  destruct (sv_connected bluez _ device); simpl.
  - by left.
  - right. rewrite run_bind_assoc, run_perform, run_bind_assoc, run_observe.
    match goal with
    | |- context [sv_connect bluez ?h0 device] =>
        exists (sv_connect bluez h0 device); destruct (sv_connect bluez h0 device)
    end; done.
Qed.

(** X11. The connect request.  [connect] asks the device to connect at most
    once, as the last thing it does, after it has seen the device not
    connected and right after it has set the timeout of the proxy to the
    milliseconds of the given timeout; it does not retry.  When the
    request or the lookup of the proxy fails, that failure is thrown and
    is the last event of the call.  A connection that is returned names
    the adapter, the device path of the address and the given timeout, and
    it is returned only for a device that was connected or has accepted
    the request. *)
Theorem connect_requests_once (m_name : string) (address : N) (timeout : Timespan)
    (h : list Event) :
  let device := createDevicePath m_name address in
  let r := (connect bluez m_name address timeout h).1 in
  let es := (connect bluez m_name address timeout h).2 in
  (∀ pre e post, es = pre ++ e :: post → isConnectRequest e = true →
     ∃ pre' err,
       es = pre' ++ [EvGetConnected device false;
                     EvSetDefaultTimeout device (to_int (totalMilliseconds timeout));
                     EvCallConnect device err] ∧
       Forall (λ e, isConnectRequest e = false) pre') ∧
  (∀ msg, r = Throw (IOException msg) →
     last es = Some (EvDeviceProxyNew device (Some msg)) ∨
     last es = Some (EvCallConnect device (Some msg))) ∧
  (∀ conn, r = Ok conn →
     conn = {| conn_name := m_name; conn_device := device; conn_timeout := timeout |} ∧
     (last es = Some (EvGetConnected device true) ∨
      last es = Some (EvCallConnect device None))) ∧
  (-2 ^ 31 ≤ totalMilliseconds timeout < 2 ^ 31 →
   to_int (totalMilliseconds timeout) = Z.quot timeout 1000).
Proof.
  intros device r es. subst r es.
  destruct (connect_run m_name address timeout h) as (log & Hlog & Hrun).
  fold device in Hrun.
  assert (Hnl : Forall (λ e, isConnectRequest e = false) log).
  { destruct Hlog as [-> | ->]; by repeat constructor. }
  assert (Hnone : ∀ l pre e post,
            l = pre ++ e :: post → isConnectRequest e = true →
            Forall (λ e, isConnectRequest e = false) l → False).
  { intros l pre e post -> He Hl. apply Forall_app in Hl as [_ Hl].
    apply Forall_cons in Hl as [Hl _]. congruence. }
  destruct Hrun as [(msg & ->) | [-> | (err & ->)]]; cbn [fst snd].
  - split_and!.
    + intros pre e post Heq He. exfalso. eapply Hnone; [exact Heq|exact He|].
      apply Forall_app. split; [done|]. by repeat constructor.
    + intros msg' [= <-]. left. by rewrite last_app.
    + done.
    + apply to_int_in_range.
  - split_and!.
    + intros pre e post Heq He. exfalso. eapply Hnone; [exact Heq|exact He|].
      apply Forall_app. split; [done|]. by repeat constructor.
    + done.
    + intros conn [= <-]. split; [done|]. left.
      by rewrite last_app.
    + apply to_int_in_range.
  - split_and!.
    + intros _ _ _ _ _. exists (log ++ [EvDeviceProxyNew device None]), err.
      split; [by rewrite <- (assoc_L (++))|].
      apply Forall_app. split; [done|]. by repeat constructor.
    + intros msg Hr. right. destruct err as [msg'|]; [|done].
      injection Hr as ->.
      by rewrite last_app.
    + intros conn Hr. destruct err as [msg'|]; [done|]. injection Hr as <-.
      split; [done|]. right.
      by rewrite last_app.
    + apply to_int_in_range.
Qed.

Lemma startDiscovery_run (adapter trasport : string) (h : list Event) :
  ∃ d err,
    startDiscovery bluez adapter trasport h =
      (match d, err with
       | false, Some msg => Throw (IOException msg)
       | _, _ => Ok tt
       end,
       startDiscovery_events adapter trasport d err).
Proof.
  pose proof (run_startDiscovery bluez adapter trasport (λ _, ret tt) h) as Hrun.
  cbv zeta in Hrun.
  match type of Hrun with
  | context [startDiscovery_events _ _ ?d ?err] => exists d, err; revert Hrun;
      generalize d as d'; generalize err as err'
  end.
  intros err' d' Hrun. unfold bind in Hrun.
  destruct (startDiscovery bluez adapter trasport h) as [[[]|x] es].
  - unfold ret in Hrun. rewrite app_nil_r in Hrun.
    destruct d', err'; by inversion Hrun.
  - destruct d', err'; by inversion Hrun.
Qed.

Lemma stopDiscovery_run (adapter : string) (h : list Event) :
  ∃ d,
    stopDiscovery bluez adapter h =
      (Ok tt,
       [EvLock DiscoveringMutex; EvGetDiscovering adapter d] ++
       (if d then [EvStopDiscovery adapter] else []) ++ [EvUnlock DiscoveringMutex]).
Proof.
  unfold stopDiscovery, org_bluez_adapter1_get_discovering.
  rewrite ScopedLock_run, run_observe.
  match goal with
  | |- context [sv_discovering bluez ?h0 adapter] =>
      exists (sv_discovering bluez h0 adapter); by destruct (sv_discovering bluez h0 adapter)
  end.
Qed.

(** X12. The discovery requests.  [startDiscovery] asks for discovery
    exactly when the service said that discovery was not running and has
    accepted the filter of the given transport, which is set first; it
    throws exactly when the filter was refused, and then it has not asked
    for discovery.  When discovery was running it only reads the state.
    [stopDiscovery] never throws and asks for the end of discovery exactly
    when the service said that discovery was running.  Both begin by
    taking the discovering mutex and end by giving it back, also when
    [startDiscovery] throws. *)
Theorem discovery_requests (adapter trasport : string) (h : list Event) :
  let r := (startDiscovery bluez adapter trasport h).1 in
  let es := (startDiscovery bluez adapter trasport h).2 in
  let r' := (stopDiscovery bluez adapter h).1 in
  let es' := (stopDiscovery bluez adapter h).2 in
  (EvStartDiscovery adapter ∈ es ↔
     EvGetDiscovering adapter false ∈ es ∧
     EvSetDiscoveryFilter adapter trasport None ∈ es) ∧
  preceded_by (λ e, e = EvSetDiscoveryFilter adapter trasport None)
              (λ e, e = EvStartDiscovery adapter) es ∧
  (∀ msg, r = Throw (IOException msg) ↔
          EvSetDiscoveryFilter adapter trasport (Some msg) ∈ es) ∧
  (r = Ok tt ∨ EvStartDiscovery adapter ∉ es) ∧
  (EvGetDiscovering adapter true ∈ es →
     r = Ok tt ∧
     es = [EvLock DiscoveringMutex; EvGetDiscovering adapter true;
           EvUnlock DiscoveringMutex]) ∧
  head es = Some (EvLock DiscoveringMutex) ∧
  last es = Some (EvUnlock DiscoveringMutex) ∧
  r' = Ok tt ∧
  (EvStopDiscovery adapter ∈ es' ↔ EvGetDiscovering adapter true ∈ es') ∧
  head es' = Some (EvLock DiscoveringMutex) ∧
  last es' = Some (EvUnlock DiscoveringMutex).
Proof.
  intros r es r' es'. subst r es r' es'.
  destruct (startDiscovery_run adapter trasport h) as (d & err & ->).
  destruct (stopDiscovery_run adapter h) as (d' & ->).
  cbn [fst snd]. split_and!.
  - destruct d, err; in_list_iff.
  - intros pre e post Heq ->.
    destruct d, err as [msg|]; simpl in Heq;
      repeat (destruct pre as [|? pre]; simplify_eq/=).
    exists (EvSetDiscoveryFilter adapter trasport None). split; [in_list|done].
  - intros msg. destruct d, err as [msg'|]; in_list_iff.
  - destruct d, err as [msg|]; simpl; try (by left). right. in_list_iff.
  - destruct d, err; in_list_iff.
  - by destruct d, err.
  - by destruct d, err.
  - done.
  - destruct d'; in_list_iff.
  - done.
  - by destruct d'.
Qed.

(** X13. The life of a controller.  The constructor starts the event loop
    thread only after it has obtained the adapter proxy, and throws the
    failure of the proxy without starting the thread.  The destructor
    never throws: it runs the stop-discovery step first, asks the main
    loop to quit exactly when the loop is running, and then always joins
    the thread; a failure of the join is logged, as the last event, and
    not thrown. *)
Theorem controller_life (m_name : string) (h : list Event) :
  let adapter := createAdapterPath m_name in
  let r := (DBusHciInterface_new bluez m_name h).1 in
  let es := (DBusHciInterface_new bluez m_name h).2 in
  let r' := (DBusHciInterface_delete bluez m_name h).1 in
  let es' := (DBusHciInterface_delete bluez m_name h).2 in
  ((r = Ok m_name ∧ es = [EvAdapterProxyNew adapter None; EvThreadStart]) ∨
   (∃ msg, r = Throw (IOException msg) ∧
           es = [EvAdapterProxyNew adapter (Some msg)])) ∧
  r' = Ok tt ∧
  (∃ d running err,
     es' = ([EvLock DiscoveringMutex; EvGetDiscovering adapter d] ++
            (if d then [EvStopDiscovery adapter] else []) ++ [EvUnlock DiscoveringMutex]) ++
           [EvMainLoopRunning running] ++
           (if running then [EvMainLoopQuit] else []) ++
           [EvThreadJoin err] ++
           match err with
           | Some msg => [EvLogException (SystemException msg)]
           | None => []
           end) ∧
  (EvMainLoopQuit ∈ es' ↔ EvMainLoopRunning true ∈ es') ∧
  preceded_by (λ e, e = EvUnlock DiscoveringMutex)
              (λ e, ∃ running, e = EvMainLoopRunning running) es' ∧
  preceded_by (λ e, ∃ running, e = EvMainLoopRunning running)
              (λ e, ∃ err, e = EvThreadJoin err) es'.
Proof.
  intros adapter r es r' es'. subst r es r' es'.
  assert (Hnew :
    (DBusHciInterface_new bluez m_name h =
       (Ok m_name, [EvAdapterProxyNew adapter None; EvThreadStart])) ∨
    (∃ msg, DBusHciInterface_new bluez m_name h =
       (Throw (IOException msg), [EvAdapterProxyNew adapter (Some msg)]))).
  { unfold DBusHciInterface_new. fold adapter. rewrite run_retrieveBluezAdapter.
    destruct (sv_adapter_proxy bluez h adapter) as [msg|]; [right; by exists msg|].
    by left. }
  assert (Hdel : ∃ d running err,
    DBusHciInterface_delete bluez m_name h =
      (Ok tt,
       ([EvLock DiscoveringMutex; EvGetDiscovering adapter d] ++
        (if d then [EvStopDiscovery adapter] else []) ++ [EvUnlock DiscoveringMutex]) ++
       [EvMainLoopRunning running] ++
       (if running then [EvMainLoopQuit] else []) ++
       [EvThreadJoin err] ++
       match err with
       | Some msg => [EvLogException (SystemException msg)]
       | None => []
       end)).
  { unfold DBusHciInterface_delete, m_adapter. fold adapter.
    rewrite run_bind.
    destruct (stopDiscovery_run adapter h) as (d & ->).
    rewrite run_observe.
    match goal with
    | |- context [sv_loop_running bluez ?h0] =>
        exists d, (sv_loop_running bluez h0); destruct (sv_loop_running bluez h0)
    end; simpl; unfold try_catch, bind, observe, perform, throw, ret; simpl;
      match goal with
      | |- context [sv_join bluez ?h0] =>
          exists (sv_join bluez h0); destruct (sv_join bluez h0)
      end; by destruct d. }
  destruct Hdel as (d & running & err & Hdel). rewrite Hdel. cbn [fst snd].
  split_and!.
  - destruct Hnew as [-> | (msg & ->)]; [by left | right; by exists msg].
  - done.
  - by exists d, running, err.
  - destruct d, running, err; in_list_iff.
  - eapply preceded_by_prefix; [| |reflexivity]; [|destruct d; in_list].
    destruct d; repeat constructor; by intros [? ?].
  - rewrite (assoc_L (++) _ [EvMainLoopRunning running]).
    rewrite (assoc_L (++) _ (if running then _ else _)).
    eapply preceded_by_prefix with (e' := EvMainLoopRunning running);
      [| |by exists running].
    + destruct d, running; repeat constructor; by intros [? ?].
    + destruct d, running; in_list.
Qed.

End Requests.

(** ** Threads in [lookup] *)

Section Threads.

Variable bluez : Service.

Lemma new_DBusHciInterface_run (name : string) (mem : Memory) (h : list Event) :
  new_DBusHciInterface bluez name mem h =
    match sv_adapter_proxy bluez h (createAdapterPath name) with
    | Some msg =>
        (Throw (IOException msg),
         [EvAdapterProxyNew (createAdapterPath name) (Some msg)])
    | None =>
        (Ok (length (heap mem),
             {| heap := heap mem ++ [name]; m_interfaces := m_interfaces mem |}),
         [EvAdapterProxyNew (createAdapterPath name) None; EvThreadStart])
    end.
Proof.
  unfold new_DBusHciInterface, DBusHciInterface_new.
  rewrite !run_bind_assoc, run_retrieveBluezAdapter.
  by destruct (sv_adapter_proxy bluez h (createAdapterPath name)).
Qed.

Lemma pc_ok_prefix (name : string) (pc : LookupPc) (mem mem' : Memory) :
  heap mem `prefix_of` heap mem' → pc_ok name pc mem → pc_ok name pc mem'.
Proof.
  intros [k Hk] Hpc. destruct pc as [| |p|[p|x]]; simpl in *; try done;
    rewrite Hk; by apply lookup_app_l_Some.
Qed.

(** One statement of one thread keeps the registry sound. *)
Lemma lookup_step_inv (name : string) (pc : LookupPc) (s : Machine) :
  registry_sound (memory s) → pc_ok name pc (memory s) →
  registry_sound (memory (lookup_step bluez name pc s).2) ∧
  pc_ok name (lookup_step bluez name pc s).1 (memory (lookup_step bluez name pc s).2) ∧
  heap (memory s) `prefix_of` heap (memory (lookup_step bluez name pc s).2) ∧
  (length (heap (memory (lookup_step bluez name pc s).2))
     + pending (lookup_step bluez name pc s).1
   ≤ length (heap (memory s)) + pending pc)%nat ∧
  (∀ n p, m_interfaces (memory s) !! n = Some p →
          m_interfaces (memory (lookup_step bluez name pc s).2) !! n = Some p).
Proof.
  intros Hs Hpc. destruct pc as [| |newHci|r]; simpl.
  - destruct (m_interfaces (memory s) !! name) as [it|] eqn:Hit; simpl.
    + split_and!; [done|by apply Hs|done|lia|done].
    + split_and!; [done|done|done|lia|done].
  - rewrite new_DBusHciInterface_run.
    destruct (sv_adapter_proxy bluez (history s) (createAdapterPath name)) as [msg|];
      simpl.
    + split_and!; [done|done|done|lia|done].
    + split_and!.
      * intros n p Hn. apply lookup_app_l_Some. by apply Hs.
      * rewrite lookup_app_r by lia. by rewrite Nat.sub_diag.
      * by apply prefix_app_r.
      * rewrite length_app. simpl. lia.
      * done.
  - simpl in Hpc. split_and!.
    + intros n p. simpl. unfold emplace.
      destruct (m_interfaces (memory s) !! name) as [it|] eqn:Hit; [apply Hs|].
      destruct (decide (n = name)) as [->|Hne].
      * rewrite lookup_insert_eq. by intros [= <-].
      * rewrite lookup_insert_ne by done. apply Hs.
    + done.
    + done.
    + lia.
    + intros n p Hn. unfold emplace.
      destruct (m_interfaces (memory s) !! name) as [it|] eqn:Hit; [done|].
      rewrite lookup_insert_ne; [done|]. intros ->. congruence.
  - split_and!; [done|done|done|lia|done].
Qed.

Lemma run_threads_inv (schedule : list bool) (name1 name2 : string) :
  ∀ (pc1 pc2 : LookupPc) (s : Machine),
    registry_sound (memory s) → pc_ok name1 pc1 (memory s) → pc_ok name2 pc2 (memory s) →
    let pc1' := (run_threads bluez schedule name1 name2 pc1 pc2 s).1.1 in
    let pc2' := (run_threads bluez schedule name1 name2 pc1 pc2 s).1.2 in
    let s' := (run_threads bluez schedule name1 name2 pc1 pc2 s).2 in
    registry_sound (memory s') ∧
    pc_ok name1 pc1' (memory s') ∧ pc_ok name2 pc2' (memory s') ∧
    heap (memory s) `prefix_of` heap (memory s') ∧
    (length (heap (memory s')) + pending pc1' + pending pc2'
     ≤ length (heap (memory s)) + pending pc1 + pending pc2)%nat ∧
    (∀ n p, m_interfaces (memory s) !! n = Some p →
            m_interfaces (memory s') !! n = Some p).
Proof.
  induction schedule as [|b schedule IH]; intros pc1 pc2 s Hs H1 H2.
  { simpl. split_and!; [done..|lia|done]. }
  destruct b; simpl.
  - destruct (lookup_step_inv name1 pc1 s Hs H1) as (Hs' & H1' & Hp & Hl & Hk).
    destruct (lookup_step bluez name1 pc1 s) as [pc1' s'] eqn:Hstep. simpl in *.
    destruct (IH pc1' pc2 s' Hs' H1' (pc_ok_prefix _ _ _ _ Hp H2))
      as (Hs'' & H1'' & H2'' & Hp' & Hl' & Hk').
    split_and!; [done..| | |].
    + by etrans.
    + lia.
    + intros n p Hn. by apply Hk', Hk.
  - destruct (lookup_step_inv name2 pc2 s Hs H2) as (Hs' & H2' & Hp & Hl & Hk).
    destruct (lookup_step bluez name2 pc2 s) as [pc2' s'] eqn:Hstep. simpl in *.
    destruct (IH pc1 pc2' s' Hs' (pc_ok_prefix _ _ _ _ Hp H1) H2')
      as (Hs'' & H1'' & H2'' & Hp' & Hl' & Hk').
    split_and!; [done..| | |].
    + by etrans.
    + lia.
    + intros n p Hn. by apply Hk', Hk.
Qed.

(** X14. Threads in [lookup], whatever their interleaving.  Two threads
    start a [lookup] on a registry whose entries all point to controllers
    of their names.  After any schedule of their statements the registry
    is still so, every thread that has returned holds a controller of the
    name it asked for, no controller was destroyed and no entry of the
    registry was replaced, and at most two controllers were constructed. *)
Theorem lookup_any_schedule (schedule : list bool) (name1 name2 : string)
    (s : Machine) :
  registry_sound (memory s) →
  let pc1 := (run_threads bluez schedule name1 name2 PcFind PcFind s).1.1 in
  let pc2 := (run_threads bluez schedule name1 name2 PcFind PcFind s).1.2 in
  let s' := (run_threads bluez schedule name1 name2 PcFind PcFind s).2 in
  registry_sound (memory s') ∧
  (∀ p, pc1 = PcReturned (Ok p) → heap (memory s') !! p = Some name1) ∧
  (∀ p, pc2 = PcReturned (Ok p) → heap (memory s') !! p = Some name2) ∧
  heap (memory s) `prefix_of` heap (memory s') ∧
  (length (heap (memory s')) ≤ length (heap (memory s)) + 2)%nat ∧
  (∀ n p, m_interfaces (memory s) !! n = Some p →
          m_interfaces (memory s') !! n = Some p).
Proof.
  intros Hs pc1 pc2 s'.
  destruct (run_threads_inv schedule name1 name2 PcFind PcFind s Hs I I)
    as (Hs' & H1 & H2 & Hp & Hl & Hk).
  fold pc1 pc2 s' in Hs', H1, H2, Hp, Hl, Hk.
  split_and!; [done| | |done| |done].
  - intros p Hpc. by rewrite Hpc in H1.
  - intros p Hpc. by rewrite Hpc in H2.
  - simpl in Hl. lia.
Qed.

End Threads.

(** ** The time a change of power takes *)

Lemma conditionWaits_app (a b : list Event) :
  conditionWaits (a ++ b) = conditionWaits a ++ conditionWaits b.
Proof.
  induction a as [|e a IH]; [done|]. destruct e; simpl; by rewrite ?IH.
Qed.

Lemma conditionWaits_polls (path : string) (powered : bool) (misses : nat) :
  conditionWaits (concat (poll_events path powered <$> replicate misses (negb powered)))
    = replicate misses 200.
Proof.
  induction misses as [|n IH]; [done|].
  cbn [replicate]. rewrite fmap_cons, concat_cons, conditionWaits_app, IH.
  by destruct powered.
Qed.

Section PowerTime.

Variable bluez : Service.

Lemma waitUntilPoweredChange_waits (m_name path : string) (powered : bool)
    (h : list Event) :
  let r := (waitUntilPoweredChange bluez m_name path powered h).1 in
  let es := (waitUntilPoweredChange bluez m_name path powered h).2 in
  ∃ k : nat,
    conditionWaits es = replicate k 200 ∧ (k ≤ 5)%nat ∧
    (r = Ok tt → (k ≤ 4)%nat) ∧
    (∀ msg, r = Throw (TimeoutException msg) → k = 5%nat).
Proof.
  intros r es. subst r es.
  destruct (waitUntilPoweredChange_run bluez m_name path powered h)
    as (misses & tail & -> & Hcases).
  exists misses. rewrite conditionWaits_app, conditionWaits_polls.
  destruct Hcases as [(-> & Hlt & ->) | [(-> & -> & ->) | (msg & -> & Hlt & ->)]].
  - rewrite poll_events_hit. simpl. rewrite ?app_nil_r.
    split_and!; [done|lia|intros _; lia|done].
  - simpl. rewrite ?app_nil_r. split_and!; [done|lia|done|done].
  - simpl. rewrite ?app_nil_r. split_and!; [done|lia|done|done].
Qed.

Lemma up_waits (m_name : string) (h : list Event) :
  let r := (up bluez m_name h).1 in
  let es := (up bluez m_name h).2 in
  ∃ k : nat,
    conditionWaits es = replicate k 200 ∧ (k ≤ 5)%nat ∧
    (setPowerCalls es = [] → k = 0%nat) ∧
    (r = Ok tt → (k ≤ 4)%nat) ∧
    (∀ msg, r = Throw (TimeoutException msg) → k = 5%nat).
Proof.
  intros r es. subst r es.
  destruct (up_run bluez m_name h) as (log & body & Hlog & -> & Hcases).
  set (adapter := createAdapterPath m_name) in *.
  assert (Hl : conditionWaits log = [] ∧ setPowerCalls log = []).
  { by destruct Hlog as [-> | ->]. }
  destruct Hl as [Hlw Hls].
  assert (Hsd : ∀ d err,
    conditionWaits (EvAdapterProxyNew adapter None
                    :: startDiscovery_events adapter "le" d err) = [] ∧
    setPowerCalls (EvAdapterProxyNew adapter None
                   :: startDiscovery_events adapter "le" d err) = []).
  { intros d err. by destruct d, err. }
  rewrite !conditionWaits_app, !setPowerCalls_app, Hlw, Hls. simpl.
  rewrite ?app_nil_r.
  destruct Hcases
    as [(msg & -> & ->)
       | (d & err & [(-> & msg & -> & -> & ->)
                    | (Hd & [(-> & ->) | (h' & es & -> & -> & ->)])])].
  - exists 0%nat. simpl. split_and!; [done|lia|done|intros _; lia|done].
  - exists 0%nat. simpl. split_and!; [done|lia|done|intros _; lia|done].
  - destruct (Hsd d err) as [Hw Hs].
    rewrite conditionWaits_app, Hw. simpl.
    exists 0%nat. split_and!; [done|lia|done|intros _; lia|done].
  - destruct (Hsd d err) as [Hw Hs].
    rewrite conditionWaits_app, setPowerCalls_app, Hw, Hs. simpl.
    destruct (waitUntilPoweredChange_waits m_name adapter true h')
      as (k & Hk & Hle & Hok & Hto).
    exists k. split_and!; [done|done|done|done|done].
Qed.

Lemma down_waits (m_name : string) (h : list Event) :
  let r := (down bluez m_name h).1 in
  let es := (down bluez m_name h).2 in
  ∃ k : nat,
    conditionWaits es = replicate k 200 ∧ (k ≤ 5)%nat ∧
    (setPowerCalls es = [] → k = 0%nat) ∧
    (r = Ok tt → (k ≤ 4)%nat) ∧
    (∀ msg, r = Throw (TimeoutException msg) → k = 5%nat).
Proof.
  intros r es. subst r es.
  destruct (down_run bluez m_name h) as (log & body & Hlog & -> & Hcases).
  set (adapter := createAdapterPath m_name) in *.
  assert (Hl : conditionWaits log = [] ∧ setPowerCalls log = []).
  { by destruct Hlog as [-> | ->]. }
  destruct Hl as [Hlw Hls].
  rewrite !conditionWaits_app, !setPowerCalls_app, Hlw, Hls. simpl.
  rewrite ?app_nil_r.
  destruct Hcases as [(msg & -> & ->) | [(-> & ->) | (h' & -> & ->)]].
  - exists 0%nat. simpl. split_and!; [done|lia|done|intros _; lia|done].
  - exists 0%nat. simpl. split_and!; [done|lia|done|intros _; lia|done].
  - simpl.
    destruct (waitUntilPoweredChange_waits m_name adapter false h')
      as (k & Hk & Hle & Hok & Hto).
    exists k. split_and!; [done|done|done|done|done].
Qed.

(** X15. The time a change of power takes.  [up] and [down] wait on
    [m_condition] only after a set-power request, 200 ms each time and at
    most 5 times: at most 4 times when they return, and 5 times before the
    [TimeoutException].  [reset] waits at most 9 times. *)
Theorem power_change_waits (m_name : string) (h : list Event) :
  (∃ k : nat,
     conditionWaits (up bluez m_name h).2 = replicate k 200 ∧ (k ≤ 5)%nat ∧
     (setPowerCalls (up bluez m_name h).2 = [] → k = 0%nat) ∧
     ((up bluez m_name h).1 = Ok tt → (k ≤ 4)%nat) ∧
     (∀ msg, (up bluez m_name h).1 = Throw (TimeoutException msg) → k = 5%nat)) ∧
  (∃ k : nat,
     conditionWaits (down bluez m_name h).2 = replicate k 200 ∧ (k ≤ 5)%nat ∧
     (setPowerCalls (down bluez m_name h).2 = [] → k = 0%nat) ∧
     ((down bluez m_name h).1 = Ok tt → (k ≤ 4)%nat) ∧
     (∀ msg, (down bluez m_name h).1 = Throw (TimeoutException msg) → k = 5%nat)) ∧
  (∃ k : nat,
     conditionWaits (reset bluez m_name h).2 = replicate k 200 ∧ (k ≤ 9)%nat).
Proof.
  split_and!.
  - apply up_waits.
  - apply down_waits.
  - unfold reset. rewrite run_bind.
    destruct (down_waits m_name h) as (k1 & Hk1 & Hle1 & _ & Hok1 & _).
    destruct (down bluez m_name h) as [[[]|x] e1]; simpl in *.
    + destruct (up_waits m_name (h ++ e1)) as (k2 & Hk2 & Hle2 & _).
      destruct (up bluez m_name (h ++ e1)) as [r e2]. simpl in *.
      exists (k1 + k2)%nat. rewrite conditionWaits_app, Hk1, Hk2, replicate_add.
      split; [done|]. specialize (Hok1 eq_refl). lia.
    + exists k1. split; [done|lia].
Qed.

End PowerTime.

(** ** The further properties on runs *)

(** X14, on the schedule of the race: both threads run their [find] before
    either runs its [emplace]. *)
Lemma lookup_any_schedule_witness :
  registry_sound (memory initial_machine) ∧
  let schedule := [true; false; true; true; false; false] in
  let pc1 := (run_threads quiet_service schedule "hci0" "hci0" PcFind PcFind
                initial_machine).1.1 in
  let pc2 := (run_threads quiet_service schedule "hci0" "hci0" PcFind PcFind
                initial_machine).1.2 in
  let s' := (run_threads quiet_service schedule "hci0" "hci0" PcFind PcFind
               initial_machine).2 in
  registry_sound (memory s') ∧
  (∀ p, pc1 = PcReturned (Ok p) → heap (memory s') !! p = Some "hci0"%string) ∧
  (∀ p, pc2 = PcReturned (Ok p) → heap (memory s') !! p = Some "hci0"%string) ∧
  heap (memory initial_machine) `prefix_of` heap (memory s') ∧
  (length (heap (memory s')) ≤ length (heap (memory initial_machine)) + 2)%nat ∧
  (∀ n p, m_interfaces (memory initial_machine) !! n = Some p →
          m_interfaces (memory s') !! n = Some p).
Proof.
  assert (Hs : registry_sound (memory initial_machine)).
  { intros name p Hp. simpl in Hp. by rewrite lookup_empty in Hp. }
  split; [exact Hs|].
  exact (lookup_any_schedule quiet_service [true; false; true; true; false; false]
           "hci0" "hci0" initial_machine Hs).
Defined.
